(** * SingleLinkedList: a shallow embedding of single-linked-list.h

    The container is a chain of heap cells anchored at a sentinel node
    [head_] that is embedded in the list object.  Iterators are raw node
    addresses, and [InsertAfter]/[EraseAfter] write through them, so the
    model keeps an explicit store of nodes: every operation is a
    state-passing function on a [World]. *)

From stdpp Require Import gmap list.
From Stdlib Require Import ZArith Lia.

Local Open Scope Z_scope.

Set Default Proof Using "Type".

(** ** Memory model *)

(** A [Node*] is the address of a node, a [positive]; [nullptr] is [None]. *)
Abbreviation NodePtr := (option positive).

(** Pointers are 64 bits wide: every object lives below [addr_limit]. *)
Definition addr_limit : Z := 18446744073709551616.

(** [size_t] arithmetic wraps modulo 2^64. *)
Definition size_t_wrap (z : Z) : Z := z mod 18446744073709551616.

(** [struct Node { Type value; Node* next_node = nullptr; }] *)
Record Node (Type_ : Type) : Type := mkNode {
  value : Type_;
  next_node : NodePtr
}.
Arguments mkNode {Type_} _ _.
Arguments value {Type_} _.
Arguments next_node {Type_} _.

(** The store.  [nodes] holds every live [Node]: the cells made by [new]
    and the sentinel [head_] of every live list object.  A list object is
    named by the address of its [head_]; [sizes] holds its [size_] field
    under that same key. *)
Record World (Type_ : Type) : Type := mkWorld {
  nodes : gmap positive (Node Type_);
  sizes : gmap positive Z
}.
Arguments mkWorld {Type_} _ _.
Arguments nodes {Type_} _.
Arguments sizes {Type_} _.

(** What a call can do: return normally, let [std::bad_alloc] escape, stop
    at a failed [assert], or run into undefined behaviour (a read or
    write through a null or dangling pointer).  [OutOfFuel] belongs to the
    model only: a loop was cut before it finished. *)
Inductive outcome (Type_ A : Type) : Type :=
| Ok (a : A) (w : World Type_)
| BadAlloc (w : World Type_)
| AssertFail
| Undefined
| OutOfFuel.
Arguments Ok {Type_ A} _ _.
Arguments BadAlloc {Type_ A} _.
Arguments AssertFail {Type_ A}.
Arguments Undefined {Type_ A}.
Arguments OutOfFuel {Type_ A}.

(** What a call returned, if it did return. *)
Definition returned {Type_ A : Type} (r : outcome Type_ A) : option A :=
  match r with
  | Ok a _ => Some a
  | _ => None
  end.

(** ** Iterators *)

(** [BasicIterator<ValueType>]: [ValueType] is [Type] or [const Type]. *)
Inductive mutability : Set := Mutable | Const.

Record BasicIterator (vt : mutability) : Set := mkIter { node_ : NodePtr }.
Arguments mkIter {vt} _.
Arguments node_ {vt} _.

Abbreviation Iterator := (BasicIterator Mutable).
Abbreviation ConstIterator := (BasicIterator Const).

(** [BasicIterator() = default], with [Node* node_ = nullptr]. *)
Definition default_iterator (vt : mutability) : BasicIterator vt :=
  mkIter None.

(** [BasicIterator(const BasicIterator<Type>& other)]: the copy constructor
    of [Iterator] and the converting constructor of [ConstIterator]. *)
Definition from_iterator {vt : mutability} (other : Iterator) : BasicIterator vt :=
  mkIter (node_ other).

(** [operator==] and [operator!=]; the source has one overload for each
    mutability of [rhs], both compare the node addresses. *)
Definition iter_eq {vt vt' : mutability}
    (lhs : BasicIterator vt) (rhs : BasicIterator vt') : bool :=
  bool_decide (node_ lhs = node_ rhs).

Definition iter_ne {vt vt' : mutability}
    (lhs : BasicIterator vt) (rhs : BasicIterator vt') : bool :=
  bool_decide (node_ lhs ≠ node_ rhs).

(** ** An allocator to run the model with *)

(** Some free address, or failure once the 64-bit address space is used up. *)
Definition first_fit {Type_ : Type} (m : gmap positive (Node Type_)) : NodePtr :=
  let a := fresh (dom m) in
  if decide (Z.pos a < addr_limit) then Some a else None.

(** An allocator with no memory left. *)
Definition exhausted {Type_ : Type} (m : gmap positive (Node Type_)) : NodePtr :=
  None.

(** A store to run the model on: the list [10; 20; 30] at address 1 and
    the list [10; 20] at address 2, with the nodes where [first_fit] puts
    them. *)
Definition two_lists : World Z :=
  mkWorld
    (list_to_map
       [(1%positive, mkNode 0 (Some 10%positive));
        (10%positive, mkNode 10 (Some 11%positive));
        (11%positive, mkNode 20 (Some 12%positive));
        (12%positive, mkNode 30 None);
        (2%positive, mkNode 0 (Some 13%positive));
        (13%positive, mkNode 10 (Some 14%positive));
        (14%positive, mkNode 20 None)])
    (list_to_map [(1%positive, 3); (2%positive, 2)]).

Section SingleLinkedList.

Context {Type_ : Type}.

(** What [new Node] returns in a given store: a fresh address, or [None]
    when it throws [std::bad_alloc]. *)
Variable new_ : gmap positive (Node Type_) → NodePtr.

(** The value a default-initialised [Node] holds (the sentinel's [value],
    which nothing reads). *)
Variable Type_default : Type_.

(** [Type]'s [operator==] and [operator<]. *)
Variable Type_eq : Type_ → Type_ → bool.
Variable Type_lt : Type_ → Type_ → bool.

(** [new] never hands out the address of a live object, nor one beyond
    the address space. *)
Hypothesis new_fresh :
  ∀ m a, new_ m = Some a → m !! a = None ∧ Z.pos a < addr_limit.

(** ** The state-and-failure monad *)

Definition M (A : Type) : Type := World Type_ → outcome Type_ A.

#[export] Instance M_ret : MRet M := λ A a w, Ok a w.

#[export] Instance M_bind : MBind M := λ A B f c w,
  match c w with
  | Ok a w' => f a w'
  | BadAlloc w' => BadAlloc w'
  | AssertFail => AssertFail
  | Undefined => Undefined
  | OutOfFuel => OutOfFuel
  end.

Definition out_of_fuel {A : Type} : M A := λ _, OutOfFuel.

(** A loop over a chain visits each live node at most once, so the number
    of live nodes is fuel enough for it. *)
Definition with_fuel {A : Type} (loop : nat → M A) : M A :=
  λ w, loop (size (nodes w)) w.

Definition assert_ (b : bool) : M unit :=
  λ w, if b then Ok () w else AssertFail.

(** [*p] for a [Node* p]: reading through a null or dangling pointer is
    undefined. *)
Definition load (p : NodePtr) : M (Node Type_) :=
  λ w, match p with
       | None => Undefined
       | Some a => match nodes w !! a with
                   | Some n => Ok n w
                   | None => Undefined
                   end
       end.

(** [p->next_node = q] *)
Definition store_next (p q : NodePtr) : M unit :=
  λ w, match p with
       | None => Undefined
       | Some a => match nodes w !! a with
                   | Some n => Ok () (mkWorld (<[a := mkNode (value n) q]> (nodes w)) (sizes w))
                   | None => Undefined
                   end
       end.

(** [new Node(val, next)] *)
Definition new_Node (val : Type_) (next : NodePtr) : M positive :=
  λ w, match new_ (nodes w) with
       | Some a => Ok a (mkWorld (<[a := mkNode val next]> (nodes w)) (sizes w))
       | None => BadAlloc w
       end.

(** [delete p]; deleting [nullptr] does nothing. *)
Definition delete_ (p : NodePtr) : M unit :=
  λ w, match p with
       | None => Ok () w
       | Some a => match nodes w !! a with
                   | Some _ => Ok () (mkWorld (delete a (nodes w)) (sizes w))
                   | None => Undefined
                   end
       end.

(** [this->size_], read and written. *)
Definition get_size (this : positive) : M Z :=
  λ w, match sizes w !! this with
       | Some s => Ok s w
       | None => Undefined
       end.

Definition set_size (this : positive) (s : Z) : M unit :=
  λ w, match sizes w !! this with
       | Some _ => Ok () (mkWorld (nodes w) (<[this := s]> (sizes w)))
       | None => Undefined
       end.

(** [this->head_.next_node], read and written. *)
Definition get_head_next (this : positive) : M NodePtr :=
  n ← load (Some this); mret (next_node n).

Definition set_head_next (this : positive) (q : NodePtr) : M unit :=
  store_next (Some this) q.

(** ** BasicIterator: the operations that touch the store *)

(** [operator++()] *)
Definition pre_incr {vt : mutability} (it : BasicIterator vt) : M (BasicIterator vt) :=
  assert_ (bool_decide (node_ it ≠ None));;
  n ← load (node_ it);
  mret (mkIter (next_node n)).

(** [operator++(int)]: the advanced iterator paired with the returned old
    position. *)
Definition post_incr {vt : mutability} (it : BasicIterator vt)
    : M (BasicIterator vt * BasicIterator vt) :=
  assert_ (bool_decide (node_ it ≠ None));;
  let old := node_ it in
  n ← load (node_ it);
  mret (mkIter (next_node n), mkIter old).

(** [operator*()] *)
Definition deref {vt : mutability} (it : BasicIterator vt) : M Type_ :=
  assert_ (bool_decide (node_ it ≠ None));;
  n ← load (node_ it);
  mret (value n).

(** ** SingleLinkedList *)

(** Storage for the members of a list object at [this]: [head_] is
    default-initialised ([next_node = nullptr]) and [size_] holds [s]. *)
Definition construct_members (this : positive) (s : Z) : M unit :=
  λ w, Ok () (mkWorld (<[this := mkNode Type_default None]> (nodes w))
                      (<[this := s]> (sizes w))).

(** The members' lifetime ends. *)
Definition destroy_members (this : positive) : M unit :=
  λ w, Ok () (mkWorld (delete this (nodes w)) (delete this (sizes w))).

(** [SingleLinkedList() : size_(0) {}] *)
Definition ctor_default (this : positive) : M unit :=
  construct_members this 0.

Definition GetSize (this : positive) : M Z := get_size this.

Definition IsEmpty (this : positive) : M bool :=
  s ← get_size this; mret (bool_decide (s = 0)).

Definition begin_ {vt : mutability} (this : positive) : M (BasicIterator vt) :=
  p ← get_head_next this; mret (mkIter p).

Definition end_ {vt : mutability} (this : positive) : M (BasicIterator vt) :=
  mret (mkIter None).

Definition cbegin (this : positive) : M ConstIterator := begin_ this.
Definition cend (this : positive) : M ConstIterator := end_ this.

Definition before_begin {vt : mutability} (this : positive) : BasicIterator vt :=
  mkIter (Some this).

Definition cbefore_begin (this : positive) : ConstIterator := before_begin this.

Definition swap (this other : positive) : M unit :=
  a ← get_head_next this;
  b ← get_head_next other;
  set_head_next this b;;
  set_head_next other a;;
  s ← get_size this;
  t ← get_size other;
  set_size this t;;
  set_size other s.

Definition PushFront (this : positive) (val : Type_) : M unit :=
  old ← get_head_next this;
  a ← new_Node val old;
  set_head_next this (Some a);;
  s ← get_size this;
  set_size this (size_t_wrap (s + 1)).

Definition PopFront (this : positive) : M unit :=
  e ← IsEmpty this;
  if (e : bool) then mret ()
  else
    front ← get_head_next this;
    n ← load front;
    let new_front := next_node n in
    front' ← get_head_next this;
    delete_ front';;
    set_head_next this new_front;;
    s ← get_size this;
    set_size this (size_t_wrap (s - 1)).

Definition InsertAfter (this : positive) (pos : ConstIterator) (val : Type_)
    : M Iterator :=
  assert_ (bool_decide (node_ pos ≠ None));;
  insert_node ← new_Node val None;
  p ← load (node_ pos);
  store_next (Some insert_node) (next_node p);;
  store_next (node_ pos) (Some insert_node);;
  s ← get_size this;
  set_size this (size_t_wrap (s + 1));;
  p' ← load (node_ pos);
  mret (mkIter (next_node p')).

Definition EraseAfter (this : positive) (pos : ConstIterator) : M Iterator :=
  assert_ (bool_decide (node_ pos ≠ None));;
  p ← load (node_ pos);
  let erase_node := next_node p in
  e ← load erase_node;
  store_next (node_ pos) (next_node e);;
  delete_ erase_node;;
  s ← get_size this;
  set_size this (size_t_wrap (s - 1));;
  p' ← load (node_ pos);
  mret (mkIter (next_node p')).

(** The [while] loop of [Clear], cut after [fuel] rounds. *)
Fixpoint Clear_loop (fuel : nat) (this : positive) : M unit :=
  p ← get_head_next this;
  match p with
  | None => mret ()
  | Some _ =>
      match fuel with
      | O => out_of_fuel
      | S fuel' =>
          let temp := p in
          t ← load temp;
          set_head_next this (next_node t);;
          delete_ temp;;
          s ← get_size this;
          set_size this (size_t_wrap (s - 1));;
          Clear_loop fuel' this
      end
  end.

Definition Clear (this : positive) : M unit :=
  with_fuel (λ fuel, Clear_loop fuel this).

(** The exception in flight carries on. *)
Definition rethrow {A : Type} : M A := λ w, BadAlloc w.

(** Leaving a scope that holds a local object: [cleanup] (its destructor)
    runs when the body returns and when an exception unwinds through it. *)
Definition finally {A : Type} (body : M A) (cleanup : M unit) : M A :=
  λ w, match body w with
       | Ok a w' => (cleanup;; mret a) w'
       | BadAlloc w' => (cleanup;; rethrow) w'
       | AssertFail => AssertFail
       | Undefined => Undefined
       | OutOfFuel => OutOfFuel
       end.

(** [cleanup] runs only when an exception unwinds through the body. *)
Definition on_throw {A : Type} (body : M A) (cleanup : M unit) : M A :=
  λ w, match body w with
       | BadAlloc w' => (cleanup;; rethrow) w'
       | r => r
       end.

(** [~SingleLinkedList()] *)
Definition dtor (this : positive) : M unit :=
  Clear this;; destroy_members this.

(** The range-[for] over an [initializer_list]. *)
Fixpoint insert_each (temp : positive) (current : Iterator) (values : list Type_)
    : M Iterator :=
  match values with
  | [] => mret current
  | element :: rest =>
      current' ← InsertAfter temp (from_iterator current) element;
      insert_each temp current' rest
  end.

(** [SingleLinkedList(std::initializer_list<Type> values)].  The
    constructor has no initialiser for [size_]: the field starts with
    whatever its storage holds, [junk].  [temp] is the address of the local
    list. *)
Definition ctor_init (this temp : positive) (junk : Z) (values : list Type_)
    : M unit :=
  construct_members this junk;;
  on_throw
    (ctor_default temp;;
     finally
       (insert_each temp (before_begin temp) values;;
        swap this temp)
       (dtor temp))
    (destroy_members this).

(** The range-[for] over [other], from [it] to [last], cut after [fuel]
    rounds. *)
Fixpoint copy_loop (fuel : nat) (temp : positive) (current : Iterator)
    (it last : ConstIterator) : M Iterator :=
  if iter_ne it last then
    match fuel with
    | O => out_of_fuel
    | S fuel' =>
        element ← deref it;
        current' ← InsertAfter temp (from_iterator current) element;
        it' ← pre_incr it;
        copy_loop fuel' temp current' it' last
    end
  else mret current.

(** [SingleLinkedList(const SingleLinkedList& other)] *)
Definition ctor_copy (this temp : positive) (junk : Z) (other : positive)
    : M unit :=
  construct_members this junk;;
  on_throw
    (ctor_default temp;;
     finally
       (first ← cbegin other;
        last ← cend other;
        with_fuel (λ fuel, copy_loop fuel temp (before_begin temp) first last);;
        swap this temp)
       (dtor temp))
    (destroy_members this).

(** [operator=(const SingleLinkedList& rhs)]; [temp] is the local copy and
    [temp'] the local list inside its copy constructor. *)
Definition assign (this temp temp' : positive) (junk : Z) (rhs : positive)
    : M unit :=
  ctor_copy temp temp' junk rhs;;
  finally (swap this temp) (dtor temp).

(** ** Comparison of lists *)

(** [std::equal(first1, last1, first2)] of <algorithm> over list iterators:
    walk both ranges in step and stop at the first pair that [==] rejects. *)
Fixpoint std_equal (fuel : nat) (first1 last1 first2 : ConstIterator) : M bool :=
  if iter_ne first1 last1 then
    match fuel with
    | O => out_of_fuel
    | S fuel' =>
        x ← deref first1;
        y ← deref first2;
        if Type_eq x y then
          first1' ← pre_incr first1;
          first2' ← pre_incr first2;
          std_equal fuel' first1' last1 first2'
        else mret false
    end
  else mret true.

(** [std::lexicographical_compare(first1, last1, first2, last2)] of
    <algorithm> over list iterators. *)
Fixpoint std_lexicographical_compare (fuel : nat)
    (first1 last1 first2 last2 : ConstIterator) : M bool :=
  if iter_ne first1 last1 && iter_ne first2 last2 then
    match fuel with
    | O => out_of_fuel
    | S fuel' =>
        x ← deref first1;
        y ← deref first2;
        if Type_lt x y then mret true
        else if Type_lt y x then mret false
        else
          first1' ← pre_incr first1;
          first2' ← pre_incr first2;
          std_lexicographical_compare fuel' first1' last1 first2' last2
    end
  else mret (iter_eq first1 last1 && iter_ne first2 last2).

Definition operator_eq (lhs rhs : positive) : M bool :=
  s ← GetSize lhs;
  t ← GetSize rhs;
  if bool_decide (s = t) then
    first1 ← cbegin lhs;
    last1 ← cend lhs;
    first2 ← cbegin rhs;
    with_fuel (λ fuel, std_equal fuel first1 last1 first2)
  else mret false.

Definition operator_ne (lhs rhs : positive) : M bool :=
  b ← operator_eq lhs rhs; mret (negb b).

Definition operator_lt (lhs rhs : positive) : M bool :=
  first1 ← cbegin lhs;
  last1 ← cend lhs;
  first2 ← cbegin rhs;
  last2 ← cend rhs;
  with_fuel (λ fuel, std_lexicographical_compare fuel first1 last1 first2 last2).

Definition operator_le (lhs rhs : positive) : M bool :=
  b ← operator_lt lhs rhs;
  if (b : bool) then mret true else operator_eq lhs rhs.

Definition operator_gt (lhs rhs : positive) : M bool :=
  operator_lt rhs lhs.

Definition operator_ge (lhs rhs : positive) : M bool :=
  b ← operator_lt lhs rhs; mret (negb b).

(** ** Observing a list through its iterators *)

(** [k] applications of [operator++]. *)
Fixpoint advance {vt : mutability} (k : nat) (it : BasicIterator vt)
    : M (BasicIterator vt) :=
  match k with
  | O => mret it
  | S k' => it' ← pre_incr it; advance k' it'
  end.

(** [std::distance(first, last)]: the number of [++] steps from [first] to
    [last]. *)
Fixpoint distance (fuel : nat) (first last : ConstIterator) : M Z :=
  if iter_ne first last then
    match fuel with
    | O => out_of_fuel
    | S fuel' =>
        first' ← pre_incr first;
        d ← distance fuel' first' last;
        mret (1 + d)
    end
  else mret 0.

(** The values met by [for (it = first; it != last; ++it)]. *)
Fixpoint collect (fuel : nat) (first last : ConstIterator) : M (list Type_) :=
  if iter_ne first last then
    match fuel with
    | O => out_of_fuel
    | S fuel' =>
        x ← deref first;
        first' ← pre_incr first;
        xs ← collect fuel' first' last;
        mret (x :: xs)
    end
  else mret [].

(** The element sequence of a list, from [cbegin()] to [cend()]. *)
Definition to_list (this : positive) : M (list Type_) :=
  first ← cbegin this;
  last ← cend this;
  with_fuel (λ fuel, collect fuel first last).

(** The number of iterator steps from [cbegin()] to [cend()]. *)
Definition count_steps (this : positive) : M Z :=
  first ← cbegin this;
  last ← cend this;
  with_fuel (λ fuel, distance fuel first last).

(** [pos] is position [k] of the list at [this]: [k] steps after its
    [before_begin()], and on a node.  Position 0 is the sentinel, position
    [k > 0] the [k]-th element. *)
Definition is_position (w : World Type_) (this : positive)
    (pos : ConstIterator) (k : nat) : Prop :=
  advance k (cbefore_begin this) w = Ok pos w ∧ node_ pos ≠ None.

(** The node at [pos] has a successor. *)
Definition has_successor (w : World Type_) (pos : ConstIterator) : Prop :=
  ∃ nxt : ConstIterator, pre_incr pos w = Ok nxt w ∧ node_ nxt ≠ None.

(** ** Sequences of calls *)

(** Storage that no live object occupies. *)
Definition unused (w : World Type_) (a : positive) : Prop :=
  nodes w !! a = None ∧ sizes w !! a = None ∧ Z.pos a < addr_limit.

(** There is a live list object at [this]. *)
Definition is_list (w : World Type_) (this : positive) : Prop :=
  is_Some (sizes w !! this).

(** The public operations, with their arguments.  Addresses of the object
    under construction and of the locals come from the caller's side. *)
Inductive call : Type :=
| CallCtor (this : positive)
| CallCtorInit (this temp : positive) (junk : Z) (values : list Type_)
| CallCtorCopy (this temp : positive) (junk : Z) (other : positive)
| CallAssign (this temp temp' : positive) (junk : Z) (rhs : positive)
| CallDtor (this : positive)
| CallPushFront (this : positive) (val : Type_)
| CallPopFront (this : positive)
| CallInsertAfter (this : positive) (pos : ConstIterator) (val : Type_)
| CallEraseAfter (this : positive) (pos : ConstIterator)
| CallClear (this : positive)
| CallSwap (this other : positive).

Definition exec (c : call) : M unit :=
  match c with
  | CallCtor this => ctor_default this
  | CallCtorInit this temp junk values => ctor_init this temp junk values
  | CallCtorCopy this temp junk other => ctor_copy this temp junk other
  | CallAssign this temp temp' junk rhs => assign this temp temp' junk rhs
  | CallDtor this => dtor this
  | CallPushFront this val => PushFront this val
  | CallPopFront this => PopFront this
  | CallInsertAfter this pos val => InsertAfter this pos val;; mret ()
  | CallEraseAfter this pos => EraseAfter this pos;; mret ()
  | CallClear this => Clear this
  | CallSwap this other => swap this other
  end.

(** What each call requires of its arguments. *)
Definition precondition (w : World Type_) (c : call) : Prop :=
  match c with
  | CallCtor this => unused w this
  | CallCtorInit this temp _ _ => unused w this ∧ unused w temp ∧ this ≠ temp
  | CallCtorCopy this temp _ other =>
      unused w this ∧ unused w temp ∧ this ≠ temp ∧ is_list w other
  | CallAssign this temp temp' _ rhs =>
      is_list w this ∧ is_list w rhs ∧
      unused w temp ∧ unused w temp' ∧ temp ≠ temp'
  | CallDtor this | CallPushFront this _ | CallPopFront this | CallClear this =>
      is_list w this
  | CallInsertAfter this pos _ => is_list w this ∧ ∃ k, is_position w this pos k
  | CallEraseAfter this pos =>
      is_list w this ∧ (∃ k, is_position w this pos k) ∧ has_successor w pos
  | CallSwap this other => is_list w this ∧ is_list w other
  end.

(** The store before any object exists. *)
Definition empty_world : World Type_ := mkWorld ∅ ∅.

(** The stores a program can get to: it starts with no object and makes
    calls whose preconditions hold; a call returns, or throws
    [std::bad_alloc] and the program carries on. *)
Inductive reachable : World Type_ → Prop :=
| reachable_start : reachable empty_world
| reachable_return w c w' :
    reachable w → precondition w c → exec c w = Ok () w' → reachable w'
| reachable_throw w c w' :
    reachable w → precondition w c → exec c w = BadAlloc w' → reachable w'.

(** ** What the specification calls lexicographic order *)

(** Lexicographic comparison written out on the element sequences, as
    the specification words it, for [operator<] to be compared with: the
    first position where the sequences differ decides, and a sequence
    that ends first is the smaller one. *)
Fixpoint lexicographic_less (xs ys : list Type_) : bool :=
  match xs, ys with
  | _, [] => false
  | [], _ :: _ => true
  | x :: xs', y :: ys' =>
      if Type_lt x y then true
      else if Type_lt y x then false
      else lexicographic_less xs' ys'
  end.

(** The pairs that [std::equal] compares, all accepted by [==]. *)
Fixpoint pairwise_equal (xs ys : list Type_) : bool :=
  match xs, ys with
  | [], _ => true
  | _ :: _, [] => false
  | x :: xs', y :: ys' => Type_eq x y && pairwise_equal xs' ys'
  end.

(** Exactly one of three tests holds. *)
Definition exactly_one (a b c : bool) : Prop :=
  (a = true ∧ b = false ∧ c = false) ∨
  (a = false ∧ b = true ∧ c = false) ∨
  (a = false ∧ b = false ∧ c = true).

(** ** The representation invariant *)

(** A cell of a chain: the address of a node and the value it holds. *)
Definition addrs (cells : list (positive * Type_)) : list positive := cells.*1.
Definition values (cells : list (positive * Type_)) : list Type_ := cells.*2.

(** Following [next_node] from [p] visits exactly [cells] and arrives at [q]. *)
Fixpoint lseg (m : gmap positive (Node Type_)) (p : NodePtr)
    (cells : list (positive * Type_)) (q : NodePtr) : Prop :=
  match cells with
  | [] => p = q
  | (a, v) :: rest =>
      p = Some a ∧ ∃ nx, m !! a = Some (mkNode v nx) ∧ lseg m nx rest q
  end.

(** The chain of the list at [this] is [cells] and ends in [nullptr]; the
    sentinel is the cell before the first. *)
Definition chained (w : World Type_) (this : positive)
    (cells : list (positive * Type_)) : Prop :=
  ∃ hv, lseg (nodes w) (Some this) ((this, hv) :: cells) None.

(** [size_] counts the cells. *)
Definition counted (w : World Type_) (this : positive)
    (cells : list (positive * Type_)) : Prop :=
  sizes w !! this = Some (Z.of_nat (length cells)).

(** [reps] gives every list object its chain; no node belongs to two
    chains and no sentinel to any.  A list in [raw] is under construction
    or destruction: its [size_] is not yet, or no longer, meaningful. *)
Record inv (raw : gset positive) (reps : gmap positive (list (positive * Type_)))
    (w : World Type_) : Prop := mkInv {
  inv_dom : dom reps = dom (sizes w);
  inv_chained : ∀ t c, reps !! t = Some c → chained w t c;
  inv_counted : ∀ t c, reps !! t = Some c → t ∉ raw → counted w t c;
  inv_sentinel : ∀ t1 t2 c1 c2,
    reps !! t1 = Some c1 → reps !! t2 = Some c2 → t1 ∉ addrs c2;
  inv_disjoint : ∀ t1 t2 c1 c2 a,
    reps !! t1 = Some c1 → reps !! t2 = Some c2 → t1 ≠ t2 →
    a ∈ addrs c1 → a ∈ addrs c2 → False;
  inv_range : ∀ a, is_Some (nodes w !! a) → Z.pos a < addr_limit
}.

Definition wf_raw (raw : gset positive) (w : World Type_) : Prop :=
  ∃ reps, inv raw reps w.

(** Every list object of the store is well formed. *)
Definition wf (w : World Type_) : Prop := wf_raw ∅ w.

(** After [swap(this, other)] the list at [t] has the chain that the list
    at [swapped this other t] had. *)
Definition swapped (this other t : positive) : positive :=
  if decide (t = this) then other else if decide (t = other) then this else t.

(** A loop that appends to the list at [temp] ends, normally or by
    [std::bad_alloc], in a store where only that list has changed. *)
Definition lands {A : Type} (raw : gset positive)
    (reps : gmap positive (list (positive * Type_))) (temp : positive)
    (r : outcome Type_ A) : Prop :=
  match r with
  | Ok _ w' | BadAlloc w' => ∃ cells', inv raw (<[temp := cells']> reps) w'
  | _ => False
  end.

(** The list at [t] reads the same in [w'] as in [w]: the same elements
    in the same order, and the same count. *)
Definition same_contents (w w' : World Type_) (t : positive) : Prop :=
  ∃ l n, to_list t w = Ok l w ∧ to_list t w' = Ok l w' ∧
         GetSize t w = Ok n w ∧ GetSize t w' = Ok n w'.

(** Every iterator that could be dereferenced in [w], except those on a
    node in [gone], reads the same value in [w']. *)
Definition iterators_keep (w w' : World Type_) (gone : list positive) : Prop :=
  ∀ (it : ConstIterator) x,
    (∀ a, node_ it = Some a → a ∉ gone) →
    deref it w = Ok x w → deref it w' = Ok x w'.

(** [swap(lhs, rhs)], the free function. *)
Definition swap_lists (lhs rhs : positive) : M unit := swap lhs rhs.

(** * Proofs *)

(** ** Chains *)

Lemma lseg_agree m m' p cells q :
  (∀ a, a ∈ addrs cells → m' !! a = m !! a) →
  lseg m p cells q → lseg m' p cells q.
Proof.
  revert p. induction cells as [|[a v] rest IH]; intros p Hag; simpl; [done|].
  intros [-> (nx & Ha & Hrest)]. split; [done|]. exists nx. split.
  - rewrite Hag; [done|]. unfold addrs. simpl. left.
  - apply IH; [|done]. intros b Hb. apply Hag. unfold addrs in *. simpl. by right.
Qed.

Lemma lseg_app m p c1 c2 q :
  lseg m p (c1 ++ c2) q ↔ ∃ r, lseg m p c1 r ∧ lseg m r c2 q.
Proof.
  revert p. induction c1 as [|[a v] rest IH]; intros p; simpl.
  - split; [intros H; by exists p | by intros (r & -> & H)].
  - split.
    + intros [-> (nx & Ha & H)]. apply IH in H as (r & H1 & H2).
      exists r. split; [|done]. split; [done|]. by exists nx.
    + intros (r & [-> (nx & Ha & H1)] & H2). split; [done|].
      exists nx. split; [done|]. apply IH. by exists r.
Qed.

Lemma lseg_functional m p c1 c2 :
  lseg m p c1 None → lseg m p c2 None → c1 = c2.
Proof.
  revert p c2. induction c1 as [|[a v] rest IH]; intros p [|[b u] rest2]; simpl.
  - done.
  - by intros -> [? _].
  - by intros [-> _] ?.
  - intros [-> (nx & Ha & H1)] [[= <-] (nx' & Hb & H2)].
    rewrite Ha in Hb. injection Hb as <- <-. f_equal. by eapply IH.
Qed.

Lemma lseg_live m p cells q a :
  lseg m p cells q → a ∈ addrs cells → is_Some (m !! a).
Proof.
  revert p. induction cells as [|[b v] rest IH]; intros p; unfold addrs; simpl.
  - by intros _ ?%elem_of_nil.
  - intros [-> (nx & Hb & H)] [->|Hin]%elem_of_cons; [by eexists|].
    by eapply IH.
Qed.

Lemma lseg_NoDup m p cells :
  lseg m p cells None → NoDup (addrs cells).
Proof.
  revert p. induction cells as [|[a v] rest IH]; intros p; unfold addrs; simpl.
  - intros _. constructor.
  - intros [-> (nx & Ha & H)]. constructor; [|by eapply IH].
    intros Hin. apply list_elem_of_fmap in Hin as ([a' v'] & Heq & Hin).
    simpl in Heq. subst a'.
    apply list_elem_of_split in Hin as (r1 & r2 & ->).
    pose proof H as H'. apply lseg_app in H' as (r & _ & Hr). simpl in Hr.
    destruct Hr as [-> (nx' & Ha' & Hr2)].
    rewrite Ha in Ha'. injection Ha' as <- <-.
    pose proof (lseg_functional _ _ _ _ H Hr2) as Heq.
    apply (f_equal length) in Heq. rewrite length_app in Heq. simpl in Heq. lia.
Qed.

(** A chain visits distinct live nodes, so it is no longer than the store
    is large, and shorter than the address space. *)
Lemma lseg_length_size m p cells :
  lseg m p cells None → (length cells ≤ size m)%nat.
Proof.
  intros H. pose proof (lseg_NoDup _ _ _ H) as Hnd.
  assert (length cells = length (addrs cells)) as -> by (unfold addrs; by rewrite length_fmap).
  rewrite <- (size_list_to_set (C := gset positive) _ Hnd), <- (size_dom m).
  apply subseteq_size. intros a Ha%elem_of_list_to_set.
  apply elem_of_dom. by eapply lseg_live.
Qed.

Lemma NoDup_below (bound : Z) (l : list positive) :
  0 < bound →
  NoDup l → (∀ a, a ∈ l → Z.pos a < bound) →
  Z.of_nat (length l) < bound.
Proof.
  intros Hpos Hnd Hlt.
  assert (length (Pos.to_nat <$> l) ≤ length (seq 1 (Z.to_nat bound - 1)))%nat as Hle.
  { apply submseteq_length, NoDup_submseteq.
    - apply NoDup_fmap_2; [|done]. intros x y. apply Pos2Nat.inj.
    - intros n (a & -> & Ha)%list_elem_of_fmap. apply elem_of_seq.
      specialize (Hlt a Ha). lia. }
  rewrite length_fmap, length_seq in Hle. lia.
Qed.

Lemma lseg_length_limit m p cells :
  (∀ a, is_Some (m !! a) → Z.pos a < addr_limit) →
  lseg m p cells None →
  Z.of_nat (length cells) < addr_limit.
Proof.
  intros Hr H.
  assert (length cells = length (addrs cells)) as -> by (unfold addrs; by rewrite length_fmap).
  apply NoDup_below; [done|by eapply lseg_NoDup|].
  intros a Ha. apply Hr. by eapply lseg_live.
Qed.

(** ** Splicing a chain *)

Lemma insert_after_lseg m p f1 pa pv nxp c2 a v :
  lseg m p (f1 ++ (pa, pv) :: c2) None →
  m !! pa = Some (mkNode pv nxp) →
  m !! a = None →
  lseg (<[pa := mkNode pv (Some a)]> (<[a := mkNode v nxp]> m)) p
       (f1 ++ (pa, pv) :: (a, v) :: c2) None.
Proof.
  intros H Hpa Ha.
  pose proof (lseg_NoDup _ _ _ H) as Hnd.
  unfold addrs in Hnd. rewrite fmap_app in Hnd. simpl in Hnd.
  apply NoDup_app in Hnd as (_ & Hf1 & Hnd). apply NoDup_cons in Hnd as [Hc2 _].
  assert (∀ b, b ∈ addrs (f1 ++ (pa, pv) :: c2) → b ≠ a) as Hlive.
  { intros b Hb ->. eapply lseg_live in Hb as [? Hb]; [|done]. congruence. }
  assert (pa ≠ a) as Hne by (intros ->; congruence).
  apply lseg_app in H as (r & H1 & H2). simpl in H2.
  destruct H2 as [-> (nx & Hpa' & H2)].
  rewrite Hpa in Hpa'. injection Hpa' as <-.
  apply lseg_app. exists (Some pa). split.
  - eapply lseg_agree; [|done]. intros b Hb.
    rewrite lookup_insert_ne, lookup_insert_ne; [done| |].
    + intros <-. apply (Hlive a); [|done]. unfold addrs in *. rewrite fmap_app.
      apply elem_of_app. by left.
    + intros <-. apply (Hf1 pa); [done|]. simpl. left.
  - simpl. split; [done|]. exists (Some a). split; [by rewrite lookup_insert_eq|].
    split; [done|]. exists nxp. split.
    + by rewrite lookup_insert_ne, lookup_insert_eq.
    + eapply lseg_agree; [|done]. intros b Hb.
      rewrite lookup_insert_ne, lookup_insert_ne; [done| |].
      * intros <-. apply (Hlive a); [|done]. unfold addrs in *. rewrite fmap_app.
        apply elem_of_app. right. simpl. by right.
      * intros <-. by apply Hc2.
Qed.

Lemma erase_after_lseg m p f1 pa pv ea ev nxe c2 :
  lseg m p (f1 ++ (pa, pv) :: (ea, ev) :: c2) None →
  m !! ea = Some (mkNode ev nxe) →
  lseg (delete ea (<[pa := mkNode pv nxe]> m)) p (f1 ++ (pa, pv) :: c2) None.
Proof.
  intros H Hea.
  pose proof (lseg_NoDup _ _ _ H) as Hnd.
  unfold addrs in Hnd. rewrite fmap_app in Hnd. simpl in Hnd.
  apply NoDup_app in Hnd as (_ & Hf1 & Hnd). apply NoDup_cons in Hnd as [Hpa Hnd].
  apply NoDup_cons in Hnd as [Hc2 _].
  apply lseg_app in H as (r & H1 & H2). simpl in H2.
  destruct H2 as [-> (nx & Hpa' & [-> (nx' & Hea' & H2)])].
  rewrite Hea in Hea'. injection Hea' as <-.
  assert (pa ≠ ea) as Hne.
  { intros ->. apply Hpa. simpl. left. }
  apply lseg_app. exists (Some pa). split.
  - eapply lseg_agree; [|done]. intros b Hb.
    rewrite lookup_delete_ne, lookup_insert_ne; [done| |].
    + intros <-. apply (Hf1 pa); [done|]. simpl. left.
    + intros <-. apply (Hf1 ea); [done|]. simpl. right. left.
  - simpl. split; [done|]. exists nxe. split.
    + by rewrite lookup_delete_ne, lookup_insert_eq.
    + eapply lseg_agree; [|done]. intros b Hb.
      rewrite lookup_delete_ne, lookup_insert_ne; [done| |].
      * intros <-. apply Hpa. simpl. by right.
      * intros <-. by apply Hc2.
Qed.

(** ** Running the primitives *)

Ltac mred :=
  repeat (unfold mbind, M_bind, mret, M_ret, with_fuel, assert_, out_of_fuel; simpl).

Lemma pre_incr_Some {vt : mutability} w a n :
  nodes w !! a = Some n →
  pre_incr (vt := vt) (mkIter (Some a)) w = Ok (mkIter (next_node n)) w.
Proof. intros H. unfold pre_incr, load. mred. by rewrite H. Qed.

Lemma pre_incr_None {vt : mutability} w :
  pre_incr (vt := vt) (mkIter None) w = AssertFail.
Proof. done. Qed.

Lemma deref_Some {vt : mutability} w a n :
  nodes w !! a = Some n →
  deref (vt := vt) (mkIter (Some a)) w = Ok (value n) w.
Proof. intros H. unfold deref, load. mred. by rewrite H. Qed.

Lemma get_head_next_Some w this n :
  nodes w !! this = Some n → get_head_next this w = Ok (next_node n) w.
Proof. intros H. unfold get_head_next, load. mred. by rewrite H. Qed.

(** ** Walking a chain *)

Lemma collect_step fuel a (last : ConstIterator) w n :
  nodes w !! a = Some n →
  iter_ne (mkIter (vt := Const) (Some a)) last = true →
  collect (S fuel) (mkIter (Some a)) last w =
    (xs ← collect fuel (mkIter (next_node n)) last; mret (value n :: xs)) w.
Proof.
  intros Ha Hne. simpl. rewrite Hne.
  unfold mbind at 1, M_bind at 1. rewrite (deref_Some _ _ _ Ha).
  unfold mbind at 1, M_bind at 1. by rewrite (pre_incr_Some _ _ _ Ha).
Qed.

Lemma distance_step fuel a (last : ConstIterator) w n :
  nodes w !! a = Some n →
  iter_ne (mkIter (vt := Const) (Some a)) last = true →
  distance (S fuel) (mkIter (Some a)) last w =
    (d ← distance fuel (mkIter (next_node n)) last; mret (1 + d)) w.
Proof.
  intros Ha Hne. simpl. rewrite Hne.
  unfold mbind at 1, M_bind at 1. by rewrite (pre_incr_Some _ _ _ Ha).
Qed.

Lemma collect_lseg w p cells fuel :
  lseg (nodes w) p cells None → (length cells ≤ fuel)%nat →
  collect fuel (mkIter p) (mkIter None) w = Ok (values cells) w.
Proof.
  revert p fuel. induction cells as [|[a v] rest IH]; intros p fuel; simpl.
  - intros -> _. by destruct fuel.
  - intros [-> (nx & Ha & H)] Hle. destruct fuel as [|fuel]; [lia|].
    rewrite (collect_step _ _ _ _ _ Ha) by done.
    unfold mbind, M_bind. simpl. rewrite IH; [done|done|lia].
Qed.

Lemma distance_lseg w p cells fuel :
  lseg (nodes w) p cells None → (length cells ≤ fuel)%nat →
  distance fuel (mkIter p) (mkIter None) w = Ok (Z.of_nat (length cells)) w.
Proof.
  revert p fuel. induction cells as [|[a v] rest IH]; intros p fuel; simpl.
  - intros -> _. by destruct fuel.
  - intros [-> (nx & Ha & H)] Hle. destruct fuel as [|fuel]; [lia|].
    rewrite (distance_step _ _ _ _ _ Ha) by done.
    unfold mbind, M_bind. simpl. rewrite IH; [|done|lia].
    unfold mret, M_ret. f_equal. lia.
Qed.

Lemma advance_lseg {vt : mutability} w p f1 pa pv c2 q :
  lseg (nodes w) p (f1 ++ (pa, pv) :: c2) q →
  advance (vt := vt) (length f1) (mkIter p) w = Ok (mkIter (Some pa)) w.
Proof.
  revert p. induction f1 as [|[a v] rest IH]; intros p; simpl.
  - by intros [-> _].
  - intros [-> (nx & Ha & H)].
    unfold mbind at 1, M_bind at 1. rewrite (pre_incr_Some _ _ _ Ha). simpl.
    by apply IH.
Qed.

Lemma advance_inv {vt : mutability} w w' p cells k (pos : BasicIterator vt) :
  lseg (nodes w) p cells None →
  advance k (mkIter p) w = Ok pos w' → node_ pos ≠ None →
  ∃ f1 pa pv c2,
    cells = f1 ++ (pa, pv) :: c2 ∧ length f1 = k ∧ node_ pos = Some pa.
Proof.
  revert p cells. induction k as [|k IH]; intros p cells H; simpl.
  - intros [= <- <-]. simpl. intros Hp.
    destruct cells as [|[a v] rest]; simpl in H; [done|].
    destruct H as [-> _]. by exists [], a, v, rest.
  - destruct cells as [|[a v] rest]; simpl in H.
    + subst p. unfold mbind, M_bind. by rewrite pre_incr_None.
    + destruct H as [-> (nx & Ha & H)].
      unfold mbind at 1, M_bind at 1. rewrite (pre_incr_Some _ _ _ Ha). simpl.
      intros Hadv Hp. destruct (IH _ _ H Hadv Hp) as (f1 & pa & pv & c2 & -> & <- & Hpos).
      by exists ((a, v) :: f1), pa, pv, c2.
Qed.

(** ** Running the mutators on a store whose relevant cells are known *)

Ltac unfold_ops :=
  unfold InsertAfter, EraseAfter, PushFront, PopFront, swap, IsEmpty, GetSize,
    get_head_next, set_head_next, new_Node, load, store_next, delete_,
    get_size, set_size, construct_members, destroy_members, ctor_default.

Lemma InsertAfter_run w this (pos : ConstIterator) val pa pv nxp s a :
  node_ pos = Some pa →
  nodes w !! pa = Some (mkNode pv nxp) →
  sizes w !! this = Some s →
  new_ (nodes w) = Some a →
  InsertAfter this pos val w =
    Ok (mkIter (Some a))
       (mkWorld (<[pa := mkNode pv (Some a)]> (<[a := mkNode val nxp]> (nodes w)))
                (<[this := size_t_wrap (s + 1)]> (sizes w))).
Proof using new_fresh.
  intros Hpos Hpa Hs Hnew. destruct (new_fresh _ _ Hnew) as [Ha _].
  assert (a ≠ pa) as Hne by (intros ->; congruence).
  destruct w as [m sz]. destruct pos as [p]. simpl in *. subst p.
  unfold_ops. mred. rewrite Hnew. mred.
  rewrite lookup_insert_ne by done. rewrite Hpa. mred.
  rewrite lookup_insert_eq. mred. rewrite insert_insert_eq.
  rewrite lookup_insert_ne by done. rewrite Hpa. mred.
  rewrite Hs. mred. rewrite Hs. mred. by rewrite lookup_insert_eq.
Qed.

Lemma InsertAfter_throw w this (pos : ConstIterator) val pa :
  node_ pos = Some pa →
  new_ (nodes w) = None →
  InsertAfter this pos val w = BadAlloc w.
Proof.
  intros Hpos Hnew. destruct pos as [p]. simpl in *. subst p.
  unfold_ops. mred. by rewrite Hnew.
Qed.

Lemma EraseAfter_run w this (pos : ConstIterator) pa pv ea ev nxe s :
  node_ pos = Some pa →
  nodes w !! pa = Some (mkNode pv (Some ea)) →
  nodes w !! ea = Some (mkNode ev nxe) →
  pa ≠ ea →
  sizes w !! this = Some s →
  EraseAfter this pos w =
    Ok (mkIter nxe)
       (mkWorld (delete ea (<[pa := mkNode pv nxe]> (nodes w)))
                (<[this := size_t_wrap (s - 1)]> (sizes w))).
Proof.
  intros Hpos Hpa Hea Hne Hs.
  destruct w as [m sz]. destruct pos as [p]. simpl in *. subst p.
  unfold_ops. mred. rewrite Hpa. mred. rewrite Hea. mred. rewrite Hpa. mred.
  rewrite lookup_insert_ne by done. rewrite Hea. mred.
  rewrite Hs. mred. rewrite Hs. mred.
  rewrite lookup_delete_ne by done. by rewrite lookup_insert_eq.
Qed.

Lemma PushFront_run w this val hv nx s a :
  nodes w !! this = Some (mkNode hv nx) →
  sizes w !! this = Some s →
  new_ (nodes w) = Some a →
  PushFront this val w =
    Ok ()
       (mkWorld (<[this := mkNode hv (Some a)]> (<[a := mkNode val nx]> (nodes w)))
                (<[this := size_t_wrap (s + 1)]> (sizes w))).
Proof using new_fresh.
  intros Hthis Hs Hnew. destruct (new_fresh _ _ Hnew) as [Ha _].
  assert (a ≠ this) as Hne by (intros ->; congruence).
  destruct w as [m sz]. simpl in *.
  unfold_ops. mred. rewrite Hthis. mred. rewrite Hnew. mred.
  rewrite lookup_insert_ne by done. rewrite Hthis. mred.
  rewrite Hs. mred. by rewrite Hs.
Qed.

Lemma PushFront_throw w this val n :
  nodes w !! this = Some n →
  new_ (nodes w) = None →
  PushFront this val w = BadAlloc w.
Proof.
  intros Hthis Hnew. unfold_ops. mred. rewrite Hthis. mred. by rewrite Hnew.
Qed.

Lemma PopFront_empty w this :
  sizes w !! this = Some 0 → PopFront this w = Ok () w.
Proof. intros Hs. unfold_ops. mred. by rewrite Hs. Qed.

Lemma PopFront_run w this hv ea ev nxe s :
  sizes w !! this = Some s → s ≠ 0 →
  nodes w !! this = Some (mkNode hv (Some ea)) →
  nodes w !! ea = Some (mkNode ev nxe) →
  this ≠ ea →
  PopFront this w =
    Ok ()
       (mkWorld (delete ea (<[this := mkNode hv nxe]> (nodes w)))
                (<[this := size_t_wrap (s - 1)]> (sizes w))).
Proof.
  intros Hs Hs0 Hthis Hea Hne.
  destruct w as [m sz]. simpl in *.
  unfold_ops. mred. rewrite Hs. mred.
  rewrite bool_decide_eq_false_2 by done. mred.
  rewrite Hthis. mred. rewrite Hea. mred. rewrite Hthis. mred. rewrite Hea. mred.
  rewrite lookup_delete_ne by done. rewrite Hthis. mred.
  rewrite Hs. mred. rewrite Hs. mred.
  by rewrite delete_insert_ne by done.
Qed.

(** ** Keeping the invariant *)

Lemma chained_sentinel w this cells :
  chained w this cells → this ∉ addrs cells.
Proof.
  intros [hv H]. apply lseg_NoDup in H. unfold addrs in *. simpl in H.
  by apply NoDup_cons in H as [? _].
Qed.

Lemma chained_length_limit w this cells :
  (∀ a, is_Some (nodes w !! a) → Z.pos a < addr_limit) →
  chained w this cells →
  Z.of_nat (length cells) + 1 < addr_limit.
Proof.
  intros Hr [hv H]. apply lseg_length_limit in H; [|done]. simpl in H. lia.
Qed.

Lemma chained_length_size w this cells :
  chained w this cells → (length cells ≤ size (nodes w))%nat.
Proof. intros [hv H]. apply lseg_length_size in H. simpl in H. lia. Qed.

Lemma chained_agree w w' this cells :
  (∀ a, a = this ∨ a ∈ addrs cells → nodes w' !! a = nodes w !! a) →
  chained w this cells → chained w' this cells.
Proof.
  intros Hag [hv H]. exists hv. eapply lseg_agree; [|done].
  intros a Ha. apply Hag. unfold addrs in *. simpl in Ha.
  apply elem_of_cons in Ha as [->|Ha]; [by left|by right].
Qed.

Lemma chained_live w this cells a :
  chained w this cells → a = this ∨ a ∈ addrs cells → is_Some (nodes w !! a).
Proof.
  intros [hv H] Ha. eapply lseg_live; [done|]. unfold addrs in *. simpl.
  destruct Ha as [->|Ha]; [left|by right].
Qed.

Lemma inv_raw_mono raw raw' reps w :
  inv raw reps w →
  (∀ t, t ∈ dom reps → t ∉ raw' → t ∉ raw) →
  inv raw' reps w.
Proof.
  intros [] Hsub. split; try done.
  intros t c Ht Hraw. apply inv_counted0; [done|].
  apply Hsub; [|done]. apply elem_of_dom. by eexists.
Qed.

(** One list changes: its old cells may go and fresh ones may come, the
    rest of the store stays. *)
Lemma inv_update raw reps w w' this old cells' :
  inv raw reps w →
  reps !! this = Some old →
  dom (sizes w') = dom (sizes w) →
  (∀ t, t ≠ this → sizes w' !! t = sizes w !! t) →
  chained w' this cells' →
  (this ∉ raw → counted w' this cells') →
  (∀ a, a ∈ addrs cells' → a ∈ addrs old ∨ nodes w !! a = None) →
  (∀ a, a ≠ this → a ∉ addrs old → is_Some (nodes w !! a) →
        nodes w' !! a = nodes w !! a) →
  (∀ a, is_Some (nodes w' !! a) → Z.pos a < addr_limit) →
  inv raw (<[this := cells']> reps) w'.
Proof.
  intros [] Hthis Hdom Hsz Hch Hcnt Hnew Hframe Hrange.
  assert (∀ t c, t ≠ this → reps !! t = Some c → chained w' t c) as Hother.
  { intros t c Hne Ht. eapply chained_agree; [|by eapply inv_chained0].
    intros a Ha. apply Hframe.
    - destruct Ha as [->|Ha]; [done|]. intros ->.
      by eapply (inv_sentinel0 this t).
    - destruct Ha as [->|Ha]; [by eapply (inv_sentinel0 t this)|].
      intros Ha'. by eapply (inv_disjoint0 t this).
    - eapply chained_live; [by eapply inv_chained0|done]. }
  assert (∀ t c a, t ≠ this → reps !! t = Some c → a ∈ addrs cells' →
                   a ≠ t ∧ a ∉ addrs c) as Hsep.
  { intros t c a Hne Ht Ha. destruct (Hnew a Ha) as [Hold|Hfresh].
    - split; [intros ->; by eapply (inv_sentinel0 t this)|].
      intros Ha'. by eapply (inv_disjoint0 t this).
    - split.
      + intros ->. destruct (chained_live w t c t) as [? Hl]; [by eapply inv_chained0|by left|].
        congruence.
      + intros Ha'. destruct (chained_live w t c a) as [? Hl]; [by eapply inv_chained0|by right|].
        congruence. }
  split.
  - rewrite dom_insert_lookup_L by (by eexists). congruence.
  - intros t c. destruct (decide (t = this)) as [->|Hne].
    + rewrite lookup_insert_eq. by intros [= <-].
    + rewrite lookup_insert_ne by done. by apply Hother.
  - intros t c. destruct (decide (t = this)) as [->|Hne].
    + rewrite lookup_insert_eq. intros [= <-]. done.
    + rewrite lookup_insert_ne by done. intros Ht Hraw.
      unfold counted. rewrite Hsz by done. by apply inv_counted0.
  - intros t1 t2 c1 c2.
    destruct (decide (t1 = this)) as [->|Hne1]; destruct (decide (t2 = this)) as [->|Hne2];
      rewrite ?lookup_insert_eq, ?lookup_insert_ne by done.
    + intros _ [= <-]. by apply chained_sentinel in Hch.
    + intros _ Ht2. by eapply inv_sentinel0.
    + intros Ht1 [= <-] Hin. by destruct (Hsep t1 c1 t1 Hne1 Ht1 Hin).
    + apply inv_sentinel0.
  - intros t1 t2 c1 c2 a.
    destruct (decide (t1 = this)) as [->|Hne1]; destruct (decide (t2 = this)) as [->|Hne2];
      rewrite ?lookup_insert_eq, ?lookup_insert_ne by done.
    + done.
    + intros [= <-] Ht2 _ Ha1 Ha2. by destruct (Hsep t2 c2 a Hne2 Ht2 Ha1).
    + intros Ht1 [= <-] _ Ha1 Ha2. by destruct (Hsep t1 c1 a Hne1 Ht1 Ha2).
    + apply inv_disjoint0.
  - done.
Qed.

(** ** Positions *)

Lemma full_splice {A : Type} (x0 : A) cells f1 x c2 k :
  x0 :: cells = f1 ++ x :: c2 → length f1 = k →
  c2 = drop k cells ∧ ∀ tl, f1 ++ x :: tl = x0 :: (take k cells ++ tl).
Proof.
  intros Heq <-. destruct f1 as [|y f1]; simpl in *.
  - injection Heq as <- <-. by rewrite drop_0.
  - injection Heq as <- ->.
    assert (length (f1 ++ [x]) = S (length f1)) as Hl
      by (rewrite length_app; simpl; lia).
    rewrite (cons_middle x f1 c2), app_assoc. split.
    + by rewrite drop_app_length'.
    + intros tl. rewrite take_app_length' by done.
      by rewrite <- app_assoc.
Qed.

Lemma position_cell w this cells (pos : ConstIterator) k :
  chained w this cells → is_position w this pos k →
  ∃ hv f1 pa pv nxp,
    (this, hv) :: cells = f1 ++ (pa, pv) :: drop k cells ∧ length f1 = k ∧
    node_ pos = Some pa ∧ nodes w !! pa = Some (mkNode pv nxp) ∧
    lseg (nodes w) (Some this) (f1 ++ (pa, pv) :: drop k cells) None ∧
    lseg (nodes w) nxp (drop k cells) None.
Proof.
  intros [hv H] [Hadv Hpos].
  destruct (advance_inv _ _ _ _ _ _ H Hadv Hpos) as (f1 & pa & pv & c2 & Heq & Hlen & Hpa).
  destruct (full_splice _ _ _ _ _ _ Heq Hlen) as [-> _].
  rewrite Heq in H. pose proof H as H'.
  apply lseg_app in H' as (r & _ & H2). simpl in H2.
  destruct H2 as [-> (nxp & Hn & H2)].
  by exists hv, f1, pa, pv, nxp.
Qed.

Lemma position_intro w this f1 pa pv c2 :
  lseg (nodes w) (Some this) (f1 ++ (pa, pv) :: c2) None →
  is_position w this (mkIter (Some pa)) (length f1).
Proof.
  intros H. split; [|done]. unfold cbefore_begin, before_begin.
  by eapply advance_lseg.
Qed.

Lemma size_t_wrap_small z :
  0 ≤ z < addr_limit → size_t_wrap z = z.
Proof. unfold size_t_wrap, addr_limit. intros. by apply Z.mod_small. Qed.

Lemma inv_size raw reps w this cells :
  inv raw reps w → reps !! this = Some cells → is_Some (sizes w !! this).
Proof.
  intros [] Hthis. apply elem_of_dom. rewrite <- inv_dom0.
  apply elem_of_dom. by eexists.
Qed.

(** ** InsertAfter and PushFront keep the invariant *)

Lemma InsertAfter_inv raw reps w this cells (pos : ConstIterator) k val a :
  inv raw reps w → reps !! this = Some cells →
  is_position w this pos k →
  new_ (nodes w) = Some a →
  ∃ w', InsertAfter this pos val w = Ok (mkIter (Some a)) w' ∧
        inv raw (<[this := take k cells ++ (a, val) :: drop k cells]> reps) w' ∧
        is_position w' this (mkIter (Some a)) (S k) ∧
        nodes w' !! a = Some (mkNode val (fst <$> head (drop k cells))) ∧
        pre_incr pos w' = Ok (mkIter (Some a)) w' ∧
        pre_incr pos w = Ok (mkIter (fst <$> head (drop k cells))) w.
Proof using new_fresh.
  intros Hinv Hthis Hpos Hnew.
  destruct (inv_size _ _ _ _ _ Hinv Hthis) as [s Hs].
  pose proof (inv_chained _ _ _ Hinv _ _ Hthis) as Hch.
  destruct (position_cell _ _ _ _ _ Hch Hpos)
    as (hv & f1 & pa & pv & nxp & Heq & Hlen & Hpa & Hn & Hfull & Htail).
  destruct (new_fresh _ _ Hnew) as [Hfresh Hlim].
  destruct (full_splice _ _ _ _ _ _ Heq Hlen) as [_ Hsplice].
  pose proof (insert_after_lseg _ _ _ _ _ _ _ a val Hfull Hn Hfresh) as Hnewseg.
  rewrite Hsplice in Hnewseg.
  eexists. split; [by eapply InsertAfter_run|].
  set (w' := mkWorld _ _).
  assert (a ≠ pa) as Hne by (intros ->; congruence).
  assert (chained w' this (take k cells ++ (a, val) :: drop k cells)) as Hch'.
  { by exists hv. }
  assert (∀ b, is_Some (nodes w' !! b) → Z.pos b < addr_limit) as Hrange'.
  { intros b. subst w'. simpl.
    destruct (decide (b = pa)) as [->|?].
    - intros _. apply (inv_range _ _ _ Hinv). by eexists.
    - rewrite lookup_insert_ne by done. destruct (decide (b = a)) as [->|?]; [done|].
      rewrite lookup_insert_ne by done. apply (inv_range _ _ _ Hinv). }
  split; [|split].
  - eapply inv_update; try done.
    + subst w'. simpl. rewrite dom_insert_lookup_L; [done|by eexists].
    + intros t Ht. subst w'. simpl. by rewrite lookup_insert_ne.
    + intros Hraw. pose proof (inv_counted _ _ _ Hinv _ _ Hthis Hraw) as Hc.
      unfold counted in *. subst w'. simpl. rewrite lookup_insert_eq.
      rewrite Hs in Hc. injection Hc as ->.
      pose proof (chained_length_limit _ _ _ Hrange' Hch') as Hl.
      rewrite length_app in *. simpl in *.
      pose proof (f_equal length (take_drop k cells)) as Htd.
      rewrite length_app in Htd.
      rewrite size_t_wrap_small; [f_equal; lia|lia].
    + intros b Hb. unfold addrs in *. rewrite fmap_app in Hb. simpl in Hb.
      apply elem_of_app in Hb as [Hb|Hb].
      * left. rewrite <- (take_drop k cells), fmap_app. apply elem_of_app. by left.
      * apply elem_of_cons in Hb as [->|Hb]; [by right|].
        left. rewrite <- (take_drop k cells), fmap_app. apply elem_of_app. by right.
    + intros b Hb1 Hb2 Hb3. subst w'. simpl.
      assert (b ≠ a) by (intros ->; destruct Hb3; congruence).
      assert (b ≠ pa).
      { intros ->. assert (pa ∈ addrs ((this, hv) :: cells)) as Hin.
        { rewrite Heq. unfold addrs. rewrite fmap_app. apply elem_of_app. right. simpl. left. }
        unfold addrs in Hin. simpl in Hin. apply elem_of_cons in Hin as [?|?]; done. }
      by rewrite !lookup_insert_ne.
  - replace (S k) with (length (f1 ++ [(pa, pv)])) by (rewrite length_app; simpl; lia).
    eapply (position_intro w' this (f1 ++ [(pa, pv)]) a val (drop k cells)).
    rewrite <- app_assoc. simpl. by rewrite Hsplice.
  - assert (nxp = fst <$> head (drop k cells)) as Hnxp.
    { destruct (drop k cells) as [|[b u] rest]; simpl in *; [done|].
      by destruct Htail as [-> _]. }
    destruct pos as [p]. simpl in Hpa. subst p. split; [|split].
    + subst w'. simpl. rewrite lookup_insert_ne by done. rewrite lookup_insert_eq.
      by rewrite Hnxp.
    + apply (pre_incr_Some w' pa (mkNode pv (Some a))). subst w'. simpl.
      by rewrite lookup_insert_eq.
    + rewrite <- Hnxp. by apply (pre_incr_Some w pa (mkNode pv nxp)).
Qed.

Lemma InsertAfter_fails w this (pos : ConstIterator) k val :
  is_position w this pos k →
  new_ (nodes w) = None →
  InsertAfter this pos val w = BadAlloc w.
Proof.
  intros [_ Hpos] Hnew. destruct (node_ pos) as [pa|] eqn:Hpa; [|done].
  by eapply InsertAfter_throw.
Qed.

(** ** EraseAfter keeps the invariant *)

Lemma successor_cell w this cells (pos : ConstIterator) k :
  chained w this cells → is_position w this pos k → has_successor w pos →
  ∃ ea ev, drop k cells = (ea, ev) :: drop (S k) cells.
Proof.
  intros Hch Hpos (nxt & Hinc & Hnxt).
  destruct (position_cell _ _ _ _ _ Hch Hpos)
    as (hv & f1 & pa & pv & nxp & Heq & Hlen & Hpa & Hn & Hfull & Htail).
  destruct pos as [p]. simpl in Hpa. subst p.
  rewrite (pre_incr_Some _ _ _ Hn) in Hinc. injection Hinc as <-. simpl in *.
  replace (S k) with (k + 1)%nat by lia.
  rewrite <- (drop_drop cells 1 k).
  destruct (drop k cells) as [|[ea ev] rest]; simpl in *; [done|].
  rewrite drop_0. by exists ea, ev.
Qed.

Lemma EraseAfter_inv raw reps w this cells (pos : ConstIterator) k ea ev :
  inv raw reps w → reps !! this = Some cells →
  is_position w this pos k →
  drop k cells = (ea, ev) :: drop (S k) cells →
  ∃ w', EraseAfter this pos w = Ok (mkIter (fst <$> head (drop (S k) cells))) w' ∧
        inv raw (<[this := take k cells ++ drop (S k) cells]> reps) w' ∧
        nodes w' !! ea = None ∧
        (∀ pa pv nxe s,
           node_ pos = Some pa → nodes w !! pa = Some (mkNode pv (Some ea)) →
           nodes w !! ea = Some (mkNode ev nxe) → sizes w !! this = Some s →
           w' = mkWorld (delete ea (<[pa := mkNode pv nxe]> (nodes w)))
                        (<[this := size_t_wrap (s - 1)]> (sizes w))).
Proof.
  intros Hinv Hthis Hpos Hdrop.
  destruct (inv_size _ _ _ _ _ Hinv Hthis) as [s Hs].
  pose proof (inv_chained _ _ _ Hinv _ _ Hthis) as Hch.
  destruct (position_cell _ _ _ _ _ Hch Hpos)
    as (hv & f1 & pa & pv & nxp & Heq & Hlen & Hpa & Hn & Hfull & Htail).
  destruct (full_splice _ _ _ _ _ _ Heq Hlen) as [_ Hsplice].
  rewrite Hdrop in Hfull, Htail, Heq. simpl in Htail.
  destruct Htail as [-> (nxe & Hea & Hrest)].
  pose proof (erase_after_lseg _ _ _ _ _ _ _ _ _ Hfull Hea) as Hnewseg.
  rewrite Hsplice in Hnewseg.
  assert (pa ≠ ea) as Hne.
  { intros ->. apply lseg_NoDup in Hfull. unfold addrs in Hfull.
    rewrite fmap_app in Hfull. simpl in Hfull.
    apply NoDup_app in Hfull as (_ & _ & Hnd). apply NoDup_cons in Hnd as [Hnd _].
    apply Hnd. left. }
  assert (nxe = fst <$> head (drop (S k) cells)) as Hnxe.
  { destruct (drop (S k) cells) as [|[b u] rest]; simpl in *; [done|].
    by destruct Hrest as [-> _]. }
  eexists. split; [rewrite <- Hnxe; by eapply EraseAfter_run|].
  set (w' := mkWorld _ _).
  assert (chained w' this (take k cells ++ drop (S k) cells)) as Hch' by (by exists hv).
  assert (∀ b, is_Some (nodes w' !! b) → Z.pos b < addr_limit) as Hrange'.
  { intros b. subst w'. simpl. intros [n Hb].
    apply lookup_delete_Some in Hb as [Hbe Hb].
    destruct (decide (b = pa)) as [->|?].
    - apply (inv_range _ _ _ Hinv). by eexists.
    - rewrite lookup_insert_ne in Hb by done. apply (inv_range _ _ _ Hinv). by eexists. }
  assert (ea ∈ addrs cells) as Hea_in.
  { unfold addrs. rewrite <- (take_drop k cells), Hdrop, fmap_app.
    apply elem_of_app. right. simpl. left. }
  split; [|split; [|intros pa' pv' nxe' s' ? ? ? ?; subst w'; repeat f_equal; congruence]].
  - eapply inv_update; try done.
    + subst w'. simpl. rewrite dom_insert_lookup_L; [done|by eexists].
    + intros t Ht. subst w'. simpl. by rewrite lookup_insert_ne.
    + intros Hraw. pose proof (inv_counted _ _ _ Hinv _ _ Hthis Hraw) as Hc.
      unfold counted in *. subst w'. simpl. rewrite lookup_insert_eq.
      rewrite Hs in Hc. injection Hc as ->.
      pose proof (chained_length_limit _ _ _ (inv_range _ _ _ Hinv) Hch) as Hl.
      pose proof (f_equal length (take_drop k cells)) as Htd.
      rewrite Hdrop, length_app in Htd. simpl in Htd.
      rewrite length_app.
      rewrite size_t_wrap_small; [f_equal; lia|lia].
    + intros b Hb. left. unfold addrs in *. rewrite fmap_app in Hb.
      rewrite <- (take_drop k cells), fmap_app, Hdrop. simpl.
      apply elem_of_app in Hb as [Hb|Hb]; apply elem_of_app; [by left|right; by right].
    + intros b Hb1 Hb2 Hb3. subst w'. simpl.
      assert (b ≠ ea) by (intros ->; done).
      assert (b ≠ pa).
      { intros ->. assert (pa ∈ addrs ((this, hv) :: cells)) as Hin.
        { rewrite Heq. unfold addrs. rewrite fmap_app. apply elem_of_app. right. simpl. left. }
        unfold addrs in Hin. simpl in Hin. apply elem_of_cons in Hin as [?|?]; done. }
      by rewrite lookup_delete_ne, lookup_insert_ne.
  - subst w'. simpl. by rewrite lookup_delete_eq.
Qed.

(** ** The front operations are the splices at [before_begin()] *)

Lemma PushFront_as_InsertAfter w this val :
  is_Some (nodes w !! this) → is_Some (sizes w !! this) →
  PushFront this val w = (InsertAfter this (cbefore_begin this) val;; mret ()) w.
Proof using new_fresh.
  intros [[hv nx] Hthis] [s Hs]. unfold mbind at 1, M_bind at 1.
  destruct (new_ (nodes w)) as [a|] eqn:Hnew.
  - rewrite (PushFront_run _ _ _ _ _ _ _ Hthis Hs Hnew).
    by rewrite (InsertAfter_run _ _ (cbefore_begin this) _ _ _ _ _ _ eq_refl Hthis Hs Hnew).
  - rewrite (PushFront_throw _ _ _ _ Hthis Hnew).
    by rewrite (InsertAfter_throw _ _ (cbefore_begin this) _ _ eq_refl Hnew).
Qed.

Lemma PopFront_as_EraseAfter w this hv ea ev nxe s :
  sizes w !! this = Some s → s ≠ 0 →
  nodes w !! this = Some (mkNode hv (Some ea)) →
  nodes w !! ea = Some (mkNode ev nxe) →
  this ≠ ea →
  PopFront this w = (EraseAfter this (cbefore_begin this);; mret ()) w.
Proof.
  intros Hs Hs0 Hthis Hea Hne. unfold mbind at 1, M_bind at 1.
  rewrite (PopFront_run _ _ _ _ _ _ _ Hs Hs0 Hthis Hea Hne).
  by rewrite (EraseAfter_run _ _ (cbefore_begin this) _ _ _ _ _ _ eq_refl Hthis Hea Hne Hs).
Qed.

(** What the invariant says about a list whose chain is known. *)
Lemma inv_front raw reps w this cells :
  inv raw reps w → reps !! this = Some cells →
  ∃ hv, nodes w !! this = Some (mkNode hv (fst <$> head cells)) ∧
        is_position w this (cbefore_begin this) 0 ∧
        match cells with
        | [] => True
        | (ea, ev) :: rest =>
            this ≠ ea ∧ nodes w !! ea = Some (mkNode ev (fst <$> head rest))
        end.
Proof.
  intros Hinv Hthis.
  pose proof (inv_chained _ _ _ Hinv _ _ Hthis) as Hch.
  pose proof (chained_sentinel _ _ _ Hch) as Hs.
  destruct Hch as [hv [_ (nx & Hn & H)]].
  destruct cells as [|[ea ev] rest]; simpl in *.
  - subst nx. by exists hv.
  - destruct H as [-> (nx' & Hea & H)]. exists hv. split; [done|]. split; [done|].
    split.
    + intros ->. apply Hs. unfold addrs. simpl. left.
    + rewrite Hea. do 2 f_equal. destruct rest as [|[b u] rest]; simpl in *; [done|].
      by destruct H as [-> _].
Qed.

Lemma unit_bind_Ok {A : Type} (c : M A) w r w' :
  c w = Ok r w' → (c;; mret ()) w = Ok () w'.
Proof. intros H. unfold mbind, M_bind. by rewrite H. Qed.

Lemma unit_bind_BadAlloc {A : Type} (c : M A) w w' :
  c w = BadAlloc w' → (c;; mret ()) w = BadAlloc w'.
Proof. intros H. unfold mbind, M_bind. by rewrite H. Qed.

Lemma PushFront_inv raw reps w this cells val :
  inv raw reps w → reps !! this = Some cells →
  match new_ (nodes w) with
  | Some a => ∃ w', PushFront this val w = Ok () w' ∧
                    inv raw (<[this := (a, val) :: cells]> reps) w'
  | None => PushFront this val w = BadAlloc w
  end.
Proof using new_fresh.
  intros Hinv Hthis.
  destruct (inv_front _ _ _ _ _ Hinv Hthis) as (hv & Hn & Hpos & _).
  rewrite PushFront_as_InsertAfter; [|by eexists|by eapply inv_size].
  destruct (new_ (nodes w)) as [a|] eqn:Hnew.
  - destruct (InsertAfter_inv _ _ _ _ _ _ _ val _ Hinv Hthis Hpos Hnew)
      as (w' & Hrun & Hinv' & _).
    exists w'. split; [by eapply unit_bind_Ok|]. by rewrite drop_0 in Hinv'.
  - eapply unit_bind_BadAlloc. by eapply InsertAfter_fails.
Qed.

Lemma PopFront_inv raw reps w this cells :
  inv raw reps w → reps !! this = Some cells → this ∉ raw →
  ∃ w', PopFront this w = Ok () w' ∧ inv raw (<[this := tail cells]> reps) w' ∧
        match cells with
        | [] => w' = w
        | (ea, _) :: _ => nodes w' !! ea = None
        end.
Proof.
  intros Hinv Hthis Hraw.
  destruct (inv_front _ _ _ _ _ Hinv Hthis) as (hv & Hn & Hpos & Hfront).
  pose proof (inv_counted _ _ _ Hinv _ _ Hthis Hraw) as Hc. unfold counted in Hc.
  destruct cells as [|[ea ev] rest]; simpl in *.
  - exists w. split; [by apply PopFront_empty|]. split; [|done].
    by rewrite insert_id.
  - destruct Hfront as [Hne Hea].
    rewrite (PopFront_as_EraseAfter _ _ _ _ _ _ _ Hc ltac:(lia) Hn Hea Hne).
    destruct (EraseAfter_inv _ _ _ _ ((ea, ev) :: rest) _ 0 ea ev Hinv Hthis Hpos)
      as (w' & Hrun & Hinv' & Hgone & _); [done|].
    exists w'. split; [by eapply unit_bind_Ok|]. by split.
Qed.

(** ** Clear *)

Lemma Clear_loop_done fuel w this hv :
  nodes w !! this = Some (mkNode hv None) →
  Clear_loop fuel this w = Ok () w.
Proof.
  intros Hn. destruct fuel; simpl;
    unfold mbind at 1, M_bind at 1; by rewrite (get_head_next_Some _ _ _ Hn).
Qed.

(** One round of the loop does what [EraseAfter(before_begin())] does. *)
Lemma Clear_loop_step fuel w this hv ea ev nxe s :
  nodes w !! this = Some (mkNode hv (Some ea)) →
  nodes w !! ea = Some (mkNode ev nxe) →
  this ≠ ea →
  sizes w !! this = Some s →
  Clear_loop (S fuel) this w =
    Clear_loop fuel this
      (mkWorld (delete ea (<[this := mkNode hv nxe]> (nodes w)))
               (<[this := size_t_wrap (s - 1)]> (sizes w))).
Proof.
  intros Hn Hea Hne Hs. simpl.
  unfold mbind at 1, M_bind at 1. rewrite (get_head_next_Some _ _ _ Hn). simpl.
  destruct w as [m sz]. simpl in *.
  unfold_ops. mred. rewrite Hea. mred. rewrite Hn. mred.
  rewrite lookup_insert_ne by done. rewrite Hea. mred.
  rewrite Hs. mred. by rewrite Hs.
Qed.

Lemma Clear_loop_inv raw reps w this cells fuel :
  inv raw reps w → reps !! this = Some cells → (length cells ≤ fuel)%nat →
  ∃ w', Clear_loop fuel this w = Ok () w' ∧ inv raw (<[this := []]> reps) w'.
Proof.
  revert reps w fuel. induction cells as [|[ea ev] rest IH]; intros reps w fuel Hinv Hthis Hle.
  - destruct (inv_front _ _ _ _ _ Hinv Hthis) as (hv & Hn & _).
    exists w. split; [by eapply Clear_loop_done|]. by rewrite insert_id.
  - destruct fuel as [|fuel]; [simpl in Hle; lia|].
    destruct (inv_front _ _ _ _ _ Hinv Hthis) as (hv & Hn & Hpos & Hne & Hea).
    destruct (inv_size _ _ _ _ _ Hinv Hthis) as [s Hs].
    simpl in Hn. rewrite (Clear_loop_step _ _ _ _ _ _ _ _ Hn Hea Hne Hs).
    destruct (EraseAfter_inv _ _ _ _ ((ea, ev) :: rest) _ 0 ea ev Hinv Hthis Hpos)
      as (w' & _ & Hinv' & _ & Hw'); [done|].
    simpl in Hinv'.
    rewrite <- (Hw' this hv _ s eq_refl Hn Hea Hs).
    destruct (IH (<[this := rest]> reps) w' fuel Hinv') as (w'' & Hrun & Hinv'').
    + by rewrite lookup_insert_eq.
    + simpl in Hle. lia.
    + exists w''. split; [done|]. by rewrite insert_insert_eq in Hinv''.
Qed.

Lemma Clear_inv raw reps w this cells :
  inv raw reps w → reps !! this = Some cells →
  ∃ w', Clear this w = Ok () w' ∧ inv raw (<[this := []]> reps) w'.
Proof.
  intros Hinv Hthis. unfold Clear, with_fuel.
  eapply Clear_loop_inv; [done|done|].
  eapply chained_length_size, inv_chained; done.
Qed.

(** ** Objects come and go *)

Lemma construct_inv raw raw' reps w this s :
  inv raw reps w → unused w this →
  (this ∉ raw' → s = 0) →
  (∀ t, t ≠ this → t ∉ raw' → t ∉ raw) →
  inv raw' (<[this := []]> reps)
      (mkWorld (<[this := mkNode Type_default None]> (nodes w)) (<[this := s]> (sizes w))).
Proof.
  intros Hinv (Hn & Hs & Hlim) Hs0 Hraw.
  assert (∀ t c a, reps !! t = Some c → a = t ∨ a ∈ addrs c → a ≠ this) as Hfresh.
  { intros t c a Ht Ha ->.
    destruct (chained_live w t c this) as [? Hl]; [by eapply inv_chained|done|congruence]. }
  split; simpl.
  - rewrite !dom_insert_L. by rewrite (inv_dom _ _ _ Hinv).
  - intros t c. destruct (decide (t = this)) as [->|Hne].
    + rewrite lookup_insert_eq. intros [= <-]. exists Type_default. simpl.
      split; [done|]. eexists. split; [by rewrite lookup_insert_eq|done].
    + rewrite lookup_insert_ne by done. intros Ht.
      eapply chained_agree; [|by eapply inv_chained]. simpl. intros a Ha.
      rewrite lookup_insert_ne; [done|]. intros <-. by eapply Hfresh.
  - intros t c. unfold counted. simpl. destruct (decide (t = this)) as [->|Hne].
    + rewrite !lookup_insert_eq. intros [= <-] Hr. simpl. by rewrite Hs0.
    + rewrite !lookup_insert_ne by done. intros Ht Hr.
      eapply (inv_counted _ _ _ Hinv); [done|]. by apply Hraw.
  - intros t1 t2 c1 c2.
    destruct (decide (t2 = this)) as [->|Hne2].
    { rewrite lookup_insert_eq. intros _ [= <-]. apply not_elem_of_nil. }
    rewrite (lookup_insert_ne _ this t2) by done.
    destruct (decide (t1 = this)) as [->|Hne1].
    + intros _ Ht2 Hin. eapply Hfresh; [done|by right|done].
    + rewrite lookup_insert_ne by done. apply (inv_sentinel _ _ _ Hinv).
  - intros t1 t2 c1 c2 a.
    destruct (decide (t1 = this)) as [->|Hne1].
    { rewrite lookup_insert_eq. intros [= <-] _ _ Hin. by apply elem_of_nil in Hin. }
    rewrite (lookup_insert_ne _ this t1) by done.
    destruct (decide (t2 = this)) as [->|Hne2].
    + rewrite lookup_insert_eq. intros _ [= <-] _ _ Hin. by apply elem_of_nil in Hin.
    + rewrite lookup_insert_ne by done. apply (inv_disjoint _ _ _ Hinv).
  - intros a. destruct (decide (a = this)) as [->|Hne]; [done|].
    rewrite lookup_insert_ne by done. apply (inv_range _ _ _ Hinv).
Qed.

Lemma destroy_inv raw raw' reps w this cells :
  inv raw reps w → reps !! this = Some cells →
  (∀ t, t ≠ this → t ∉ raw' → t ∉ raw) →
  inv raw' (delete this reps)
      (mkWorld (delete this (nodes w)) (delete this (sizes w))).
Proof.
  intros Hinv Hthis Hraw. split; simpl.
  - rewrite !dom_delete_L. by rewrite (inv_dom _ _ _ Hinv).
  - intros t c [Hne Ht]%lookup_delete_Some.
    eapply chained_agree; [|by eapply inv_chained]. simpl. intros a Ha.
    rewrite lookup_delete_ne; [done|]. intros <-. destruct Ha as [->|Ha]; [done|].
    by eapply (inv_sentinel _ _ _ Hinv this t).
  - intros t c [Hne Ht]%lookup_delete_Some Hr. unfold counted. simpl.
    rewrite lookup_delete_ne by done.
    eapply (inv_counted _ _ _ Hinv); [done|]. by apply Hraw.
  - intros t1 t2 c1 c2 [_ Ht1]%lookup_delete_Some [_ Ht2]%lookup_delete_Some.
    by eapply (inv_sentinel _ _ _ Hinv).
  - intros t1 t2 c1 c2 a [_ Ht1]%lookup_delete_Some [_ Ht2]%lookup_delete_Some.
    by eapply (inv_disjoint _ _ _ Hinv).
  - intros a [n [_ Ha]%lookup_delete_Some]. apply (inv_range _ _ _ Hinv). by eexists.
Qed.

Lemma dtor_inv raw raw' reps w this cells :
  inv raw reps w → reps !! this = Some cells →
  (∀ t, t ≠ this → t ∉ raw' → t ∉ raw) →
  ∃ w', dtor this w = Ok () w' ∧ inv raw' (delete this reps) w'.
Proof.
  intros Hinv Hthis Hraw.
  destruct (Clear_inv _ _ _ _ _ Hinv Hthis) as (w1 & Hclear & Hinv1).
  eexists. split.
  - unfold dtor. unfold mbind, M_bind. rewrite Hclear. reflexivity.
  - rewrite <- (delete_insert_eq reps this []).
    eapply destroy_inv; [done| |done]. by rewrite lookup_insert_eq.
Qed.

(** ** swap *)

Lemma swap_run w this other hvt a hvo b s t :
  nodes w !! this = Some (mkNode hvt a) →
  nodes w !! other = Some (mkNode hvo b) →
  sizes w !! this = Some s →
  sizes w !! other = Some t →
  swap this other w =
    Ok () (mkWorld (<[other := mkNode hvo a]> (<[this := mkNode hvt b]> (nodes w)))
                   (<[other := s]> (<[this := t]> (sizes w)))).
Proof.
  intros Hthis Hother Hs Ht. destruct w as [m sz]. simpl in *.
  unfold_ops. mred. rewrite Hthis. mred. rewrite Hother. mred. rewrite Hthis. mred.
  destruct (decide (this = other)) as [->|Hne].
  - rewrite lookup_insert_eq. mred. rewrite Hs. mred. rewrite Hs. mred.
    rewrite Hs. mred. rewrite lookup_insert_eq. mred.
    rewrite Hthis in Hother. injection Hother as <- <-.
    rewrite Hs in Ht. by injection Ht as <-.
  - rewrite lookup_insert_ne by done. rewrite Hother. mred.
    rewrite Hs. mred. rewrite Ht. mred. rewrite Hs. mred.
    rewrite lookup_insert_ne by done. by rewrite Ht.
Qed.

Lemma swapped_lookup {A : Type} (reps : gmap positive A) this other x y t :
  reps !! this = Some x → reps !! other = Some y →
  <[this := y]> (<[other := x]> reps) !! t = reps !! swapped this other t.
Proof.
  intros Hx Hy. unfold swapped.
  destruct (decide (t = this)) as [->|?]; [by rewrite lookup_insert_eq|].
  rewrite lookup_insert_ne by done.
  destruct (decide (t = other)) as [->|?]; [by rewrite lookup_insert_eq|].
  by rewrite lookup_insert_ne.
Qed.

Lemma swapped_inj this other t1 t2 :
  swapped this other t1 = swapped this other t2 → t1 = t2.
Proof. unfold swapped. repeat case_decide; congruence. Qed.

Lemma swap_inv raw raw' reps w this other ct co :
  inv raw reps w → reps !! this = Some ct → reps !! other = Some co →
  (∀ t, t ∈ dom reps → t ∉ raw' → swapped this other t ∉ raw) →
  ∃ w', swap this other w = Ok () w' ∧
        inv raw' (<[this := co]> (<[other := ct]> reps)) w'.
Proof.
  intros Hinv Hthis Hother Hraw.
  destruct (inv_front _ _ _ _ _ Hinv Hthis) as (hvt & Hnt & _).
  destruct (inv_front _ _ _ _ _ Hinv Hother) as (hvo & Hno & _).
  destruct (inv_size _ _ _ _ _ Hinv Hthis) as [s Hs].
  destruct (inv_size _ _ _ _ _ Hinv Hother) as [t Ht].
  eexists. split; [by eapply swap_run|].
  set (w' := mkWorld _ _).
  assert (∀ u c, reps !! u = Some c → ∀ a, a ∈ addrs c → nodes w' !! a = nodes w !! a)
    as Hag.
  { intros u c Hu a Ha. subst w'. simpl.
    rewrite !lookup_insert_ne; [done| |]; intros <-.
    - by eapply (inv_sentinel _ _ _ Hinv this u).
    - by eapply (inv_sentinel _ _ _ Hinv other u). }
  assert (∀ u, is_Some (reps !! swapped this other u) → is_Some (reps !! u)) as Hdom.
  { intros u. unfold swapped. repeat case_decide; subst; by eauto. }
  split.
  - subst w'. simpl. rewrite !dom_insert_lookup_L; first apply (inv_dom _ _ _ Hinv).
    all: try (by eexists).
    + destruct (decide (other = this)) as [->|?];
        [rewrite lookup_insert_eq|rewrite lookup_insert_ne by done]; by eexists.
    + destruct (decide (other = this)) as [->|?];
        [rewrite lookup_insert_eq|rewrite lookup_insert_ne by done]; by eexists.
  - intros u c. rewrite (swapped_lookup _ _ _ _ _ _ Hthis Hother). intros Hu.
    destruct (inv_chained _ _ _ Hinv _ _ Hu) as [hv [_ (nx & Hn & Hseg)]].
    assert (lseg (nodes w') nx c None) as Hseg'.
    { eapply lseg_agree; [|done]. intros a Ha. by eapply Hag. }
    unfold swapped in Hu, Hn. subst w'. unfold chained. simpl in *.
    destruct (decide (u = this)) as [->|?]; [|destruct (decide (u = other)) as [->|?]].
    + destruct (decide (other = this)) as [->|?].
      * exists hvo. split; [done|]. exists nx. split; [|done].
        rewrite lookup_insert_eq. congruence.
      * exists hvt. split; [done|]. exists nx. split; [|done].
        rewrite lookup_insert_ne, lookup_insert_eq by done. congruence.
    + exists hvo. split; [done|]. exists nx. split; [|done].
      rewrite lookup_insert_eq. congruence.
    + exists hv. split; [done|]. exists nx. split; [|done].
      by rewrite !lookup_insert_ne.
  - intros u c. rewrite (swapped_lookup _ _ _ _ _ _ Hthis Hother). intros Hu Hr.
    assert (swapped this other u ∉ raw) as Hr'.
    { apply Hraw; [|done]. apply elem_of_dom, Hdom. by eexists. }
    pose proof (inv_counted _ _ _ Hinv _ _ Hu Hr') as Hc.
    unfold counted, swapped in *. subst w'. simpl.
    destruct (decide (u = this)) as [->|?]; [|destruct (decide (u = other)) as [->|?]].
    + destruct (decide (other = this)) as [->|?].
      * rewrite lookup_insert_eq. congruence.
      * rewrite lookup_insert_ne, lookup_insert_eq by done. congruence.
    + rewrite lookup_insert_eq. congruence.
    + by rewrite !lookup_insert_ne.
  - intros t1 t2 c1 c2. rewrite !(swapped_lookup _ _ _ _ _ _ Hthis Hother).
    intros Ht1 Ht2. destruct (Hdom t1) as [c1' Ht1']; [by eexists|].
    by eapply (inv_sentinel _ _ _ Hinv).
  - intros t1 t2 c1 c2 a. rewrite !(swapped_lookup _ _ _ _ _ _ Hthis Hother).
    intros Ht1 Ht2 Hne. eapply (inv_disjoint _ _ _ Hinv); [done|done|].
    intros Heq. by apply Hne, (swapped_inj this other).
  - intros a [n Ha]. apply (inv_range _ _ _ Hinv). subst w'. simpl in Ha.
    destruct (decide (a = other)) as [->|?]; [by eexists|].
    rewrite lookup_insert_ne in Ha by done.
    destruct (decide (a = this)) as [->|?]; [by eexists|].
    rewrite lookup_insert_ne in Ha by done. by eexists.
Qed.

(** ** The constructors that build a local list and swap it in *)

Lemma inv_lookup raw reps w this :
  inv raw reps w → is_list w this → ∃ cells, reps !! this = Some cells.
Proof.
  intros Hinv His. apply elem_of_dom in His. rewrite <- (inv_dom _ _ _ Hinv) in His.
  by apply elem_of_dom in His.
Qed.

Lemma inv_unused raw reps w a :
  inv raw reps w → unused w a → reps !! a = None.
Proof.
  intros Hinv (_ & Hs & _). apply not_elem_of_dom.
  rewrite (inv_dom _ _ _ Hinv). by apply not_elem_of_dom.
Qed.

Lemma append_inv raw reps w temp cells (current : Iterator) val :
  inv raw reps w → reps !! temp = Some cells →
  is_position w temp (from_iterator current) (length cells) →
  match new_ (nodes w) with
  | Some a =>
      ∃ w', InsertAfter temp (from_iterator current) val w = Ok (mkIter (Some a)) w' ∧
            inv raw (<[temp := cells ++ [(a, val)]]> reps) w' ∧
            is_position w' temp (mkIter (Some a)) (length (cells ++ [(a, val)]))
  | None => InsertAfter temp (from_iterator current) val w = BadAlloc w
  end.
Proof using new_fresh.
  intros Hinv Htemp Hpos. destruct (new_ (nodes w)) as [a|] eqn:Hnew.
  - destruct (InsertAfter_inv _ _ _ _ _ _ _ val _ Hinv Htemp Hpos Hnew)
      as (w' & Hrun & Hinv' & Hpos' & _).
    rewrite take_ge, drop_ge in Hinv' by lia.
    exists w'. split; [done|]. split; [done|].
    rewrite length_app. simpl. by replace (length cells + 1)%nat with (S (length cells)) by lia.
  - by eapply InsertAfter_fails.
Qed.

Lemma insert_each_inv raw reps w temp cells (current : Iterator) vals :
  inv raw reps w → reps !! temp = Some cells →
  is_position w temp (from_iterator current) (length cells) →
  lands raw reps temp (insert_each temp current vals w).
Proof using new_fresh.
  revert reps w cells current.
  induction vals as [|val vals IH]; intros reps w cells current Hinv Htemp Hpos; simpl.
  - exists cells. by rewrite insert_id.
  - pose proof (append_inv _ _ _ _ _ _ val Hinv Htemp Hpos) as Happ.
    unfold mbind, M_bind.
    destruct (new_ (nodes w)) as [a|].
    + destruct Happ as (w' & -> & Hinv' & Hpos').
      specialize (IH _ _ _ (mkIter (Some a)) Hinv' ltac:(by rewrite lookup_insert_eq) Hpos').
      unfold lands in *.
      destruct (insert_each temp _ vals w') as [? w''|w''| | |]; try done;
        destruct IH as [cells' IH]; exists cells'; by rewrite insert_insert_eq in IH.
    + rewrite Happ. exists cells. by rewrite insert_id.
Qed.

Lemma chained_suffix w this pre suf :
  chained w this (pre ++ suf) →
  lseg (nodes w) (fst <$> head suf) suf None.
Proof.
  intros [hv H]. rewrite app_comm_cons in H.
  apply lseg_app in H as (r & _ & H).
  destruct suf as [|[a v] rest]; simpl in *; [by subst|].
  by destruct H as [-> H].
Qed.

Lemma copy_loop_step fuel temp (current : Iterator) a w n :
  nodes w !! a = Some n →
  copy_loop (S fuel) temp current (mkIter (Some a)) (mkIter None) w =
    (current' ← InsertAfter temp (from_iterator current) (value n);
     it' ← pre_incr (mkIter (vt := Const) (Some a));
     copy_loop fuel temp current' it' (mkIter None)) w.
Proof.
  intros Ha. simpl.
  unfold mbind at 1, M_bind at 1. by rewrite (deref_Some _ _ _ Ha).
Qed.

Lemma copy_loop_inv raw reps w temp other cells (current : Iterator) oc pre suf fuel :
  inv raw reps w → reps !! temp = Some cells → reps !! other = Some oc →
  other ≠ temp → oc = pre ++ suf →
  is_position w temp (from_iterator current) (length cells) →
  (length suf ≤ fuel)%nat →
  lands raw reps temp
    (copy_loop fuel temp current (mkIter (fst <$> head suf)) (mkIter None) w).
Proof using new_fresh.
  revert reps w cells current pre fuel.
  induction suf as [|[a v] rest IH];
    intros reps w cells current pre fuel Hinv Htemp Hother Hne Hoc Hpos Hfuel.
  - simpl. destruct fuel; simpl; exists cells; by rewrite insert_id.
  - destruct fuel as [|fuel]; [simpl in Hfuel; lia|]. simpl in Hfuel.
    pose proof (inv_chained _ _ _ Hinv _ _ Hother) as Hch. rewrite Hoc in Hch.
    pose proof (chained_suffix _ _ _ _ Hch) as [_ (nx & Ha & _)].
    simpl in Ha. change (fst <$> head ((a, v) :: rest)) with (Some a).
    rewrite (copy_loop_step _ _ _ _ _ _ Ha). cbn [value].
    pose proof (append_inv _ _ _ _ _ _ v Hinv Htemp Hpos) as Happ.
    unfold mbind at 1, M_bind at 1.
    destruct (new_ (nodes w)) as [b|].
    + destruct Happ as (w' & -> & Hinv' & Hpos').
      assert (<[temp := cells ++ [(b, v)]]> reps !! other = Some oc) as Hother'
        by (by rewrite lookup_insert_ne).
      pose proof (inv_chained _ _ _ Hinv' _ _ Hother') as Hch'. rewrite Hoc in Hch'.
      pose proof (chained_suffix _ _ _ _ Hch') as [_ (nx' & Ha' & Hrest)].
      simpl in Ha'.
      unfold mbind at 1, M_bind at 1. rewrite (pre_incr_Some _ _ _ Ha'). simpl.
      assert (nx' = fst <$> head rest) as ->.
      { destruct rest as [|[c u] rest]; simpl in *; [done|]. by destruct Hrest as [-> _]. }
      specialize (IH _ _ _ (mkIter (Some b)) (pre ++ [(a, v)]) fuel Hinv'
                    ltac:(by rewrite lookup_insert_eq) Hother' Hne
                    ltac:(by rewrite <- app_assoc) Hpos' ltac:(lia)).
      unfold lands in *.
      destruct (copy_loop fuel temp _ _ _ w') as [? w''|w''| | |]; try done;
        destruct IH as [cells' IH]; exists cells'; by rewrite insert_insert_eq in IH.
    + rewrite Happ. exists cells. by rewrite insert_id.
Qed.

(** The end of both constructors: swap the finished local list in and
    destroy it, or, when the loop threw, destroy it and give up the object
    under construction. *)
Lemma swap_in_inv reps this temp (body : M Iterator) w2 :
  reps !! this = None → reps !! temp = None → this ≠ temp →
  lands {[this]} (<[temp := []]> (<[this := []]> reps)) temp (body w2) →
  match on_throw (finally (body;; swap this temp) (dtor temp))
                 (destroy_members this) w2 with
  | Ok _ w' => ∃ cells, inv ∅ (<[this := cells]> reps) w'
  | BadAlloc w' => inv ∅ reps w'
  | _ => False
  end.
Proof.
  intros Hthis Htemp Hne Hlands. unfold on_throw, finally.
  unfold mbind, M_bind.
  destruct (body w2) as [cur w3|w3| | |]; simpl in Hlands; try done;
    destruct Hlands as [cells' Hinv3].
  - destruct (swap_inv {[this]} {[temp]} _ _ this temp [] cells' Hinv3)
      as (w4 & -> & Hinv4).
    { rewrite lookup_insert_ne by done. rewrite lookup_insert_ne by done.
      by rewrite lookup_insert_eq. }
    { by rewrite lookup_insert_eq. }
    { intros t _ Ht Hs%elem_of_singleton. apply Ht, elem_of_singleton.
      unfold swapped in Hs. repeat case_decide; congruence. }
    destruct (dtor_inv {[temp]} ∅ _ _ temp [] Hinv4) as (w5 & Hd & Hinv5).
    { rewrite lookup_insert_ne by done. by rewrite lookup_insert_eq. }
    { by intros t Hn _ Ht%elem_of_singleton. }
    rewrite Hd. simpl. exists cells'.
    replace (<[this:=cells']> reps) with
      (delete temp (<[this:=cells']> (<[temp:=[]]>
         (<[temp:=cells']> (<[temp:=[]]> (<[this:=[]]> reps)))))); [done|].
    apply map_eq. intros i. destruct (decide (i = temp)) as [->|?].
    + rewrite lookup_delete_eq, lookup_insert_ne by done. by rewrite Htemp.
    + rewrite lookup_delete_ne by done.
      destruct (decide (i = this)) as [->|?]; [by rewrite !lookup_insert_eq|].
      by rewrite !lookup_insert_ne.
  - destruct (dtor_inv {[this]} {[this]} _ _ temp cells' Hinv3) as (w4 & Hd & Hinv4).
    { by rewrite lookup_insert_eq. }
    { done. }
    rewrite Hd. simpl.
    replace reps with
      (delete this (delete temp (<[temp:=cells']> (<[temp:=[]]> (<[this:=[]]> reps))))).
    + eapply (destroy_inv {[this]} ∅ _ w4 this []);
        [done| |by intros t Hn _ Ht%elem_of_singleton].
      rewrite lookup_delete_ne by done. rewrite !lookup_insert_ne by done.
      by rewrite lookup_insert_eq.
    + apply map_eq. intros i. destruct (decide (i = this)) as [->|?].
      * by rewrite lookup_delete_eq, Hthis.
      * rewrite lookup_delete_ne by done. destruct (decide (i = temp)) as [->|?].
        -- by rewrite lookup_delete_eq, Htemp.
        -- rewrite lookup_delete_ne by done. by rewrite !lookup_insert_ne.
Qed.

(** The store once the object under construction and the local list exist. *)
Lemma locals_inv reps w this temp junk :
  inv ∅ reps w → unused w this → unused w temp → this ≠ temp →
  inv {[this]} (<[temp := []]> (<[this := []]> reps))
    (mkWorld (<[temp := mkNode Type_default None]>
                (<[this := mkNode Type_default None]> (nodes w)))
             (<[temp := 0]> (<[this := junk]> (sizes w)))).
Proof.
  intros Hinv Hthis Htemp Hne.
  assert (inv {[this]} (<[this := []]> reps)
            (mkWorld (<[this := mkNode Type_default None]> (nodes w))
                     (<[this := junk]> (sizes w)))) as H1.
  { apply (construct_inv ∅ {[this]} _ _ this junk Hinv Hthis).
    - intros Hn. exfalso. by apply Hn, elem_of_singleton.
    - intros t _ _. apply not_elem_of_empty. }
  apply (construct_inv {[this]} {[this]} _ _ temp 0 H1); [|done|done].
  destruct Htemp as (Hn & Hs & Hl). split; [|split]; simpl; [| |done];
    by rewrite lookup_insert_ne.
Qed.

Lemma ctor_init_inv reps w this temp junk vals :
  inv ∅ reps w → unused w this → unused w temp → this ≠ temp →
  match ctor_init this temp junk vals w with
  | Ok _ w' => ∃ cells, inv ∅ (<[this := cells]> reps) w'
  | BadAlloc w' => inv ∅ reps w'
  | _ => False
  end.
Proof using new_fresh.
  intros Hinv Hthis Htemp Hne.
  pose proof (locals_inv _ _ _ _ junk Hinv Hthis Htemp Hne) as Hinv2.
  set (w2 := mkWorld _ _) in Hinv2.
  pose proof (swap_in_inv reps this temp
                (insert_each temp (before_begin temp) vals) w2
                (inv_unused _ _ _ _ Hinv Hthis) (inv_unused _ _ _ _ Hinv Htemp) Hne) as Hfin.
  change (ctor_init this temp junk vals w) with
    (on_throw (finally (insert_each temp (before_begin temp) vals;; swap this temp)
                       (dtor temp)) (destroy_members this) w2).
  apply Hfin. eapply (insert_each_inv _ _ _ _ []); [done|by rewrite lookup_insert_eq|].
  split; [done|done].
Qed.

Lemma ctor_copy_inv reps w this temp junk other oc :
  inv ∅ reps w → unused w this → unused w temp → this ≠ temp →
  reps !! other = Some oc →
  match ctor_copy this temp junk other w with
  | Ok _ w' => ∃ cells, inv ∅ (<[this := cells]> reps) w'
  | BadAlloc w' => inv ∅ reps w'
  | _ => False
  end.
Proof using new_fresh.
  intros Hinv Hthis Htemp Hne Hother.
  pose proof (locals_inv _ _ _ _ junk Hinv Hthis Htemp Hne) as Hinv2.
  set (w2 := mkWorld _ _) in Hinv2.
  assert (other ≠ this) as Hne1.
  { intros ->. rewrite (inv_unused _ _ _ _ Hinv Hthis) in Hother. done. }
  assert (other ≠ temp) as Hne2.
  { intros ->. rewrite (inv_unused _ _ _ _ Hinv Htemp) in Hother. done. }
  assert (<[temp:=[]]> (<[this:=[]]> reps) !! other = Some oc) as Hother2.
  { by rewrite !lookup_insert_ne. }
  destruct (inv_front _ _ _ _ _ Hinv2 Hother2) as (hv & Hn & _).
  pose proof (swap_in_inv reps this temp
      (with_fuel (λ fuel, copy_loop fuel temp (before_begin temp)
                            (mkIter (fst <$> head oc)) (mkIter None))) w2
      (inv_unused _ _ _ _ Hinv Hthis) (inv_unused _ _ _ _ Hinv Htemp) Hne) as Hfin.
  assert (ctor_copy this temp junk other w =
          on_throw (finally
            (with_fuel (λ fuel, copy_loop fuel temp (before_begin temp)
                                  (mkIter (fst <$> head oc)) (mkIter None));;
             swap this temp) (dtor temp)) (destroy_members this) w2) as ->.
  { unfold ctor_copy, on_throw, finally, construct_members, ctor_default, cbegin,
      cend, begin_, end_.
    unfold mbind at 1 2 3 4 5 6, M_bind at 1 2 3 4 5 6. simpl. fold w2.
    unfold mbind at 3 4, M_bind at 3 4.
    rewrite (get_head_next_Some _ _ _ Hn). reflexivity. }
  apply Hfin. unfold with_fuel.
  eapply (copy_loop_inv _ _ _ _ other [] _ oc [] oc); try done.
  - by rewrite lookup_insert_eq.
  - eapply chained_length_size, inv_chained; done.
Qed.

Lemma assign_inv reps w this temp temp' junk rhs ct cr :
  inv ∅ reps w → reps !! this = Some ct → reps !! rhs = Some cr →
  unused w temp → unused w temp' → temp ≠ temp' →
  match assign this temp temp' junk rhs w with
  | Ok _ w' => ∃ cells, inv ∅ (<[this := cells]> reps) w'
  | BadAlloc w' => inv ∅ reps w'
  | _ => False
  end.
Proof using new_fresh.
  intros Hinv Hthis Hrhs Htemp Htemp' Hne.
  pose proof (ctor_copy_inv _ _ _ _ junk _ _ Hinv Htemp Htemp' Hne Hrhs) as Hcopy.
  pose proof (inv_unused _ _ _ _ Hinv Htemp) as Hfree.
  assert (this ≠ temp) as Hne' by (intros ->; congruence).
  unfold assign, finally. unfold mbind at 1, M_bind at 1.
  destruct (ctor_copy temp temp' junk rhs w) as [? w1|w1| | |]; try done.
  destruct Hcopy as [cells Hinv1].
  destruct (swap_inv ∅ ∅ _ _ this temp ct cells Hinv1) as (w2 & -> & Hinv2).
  { by rewrite lookup_insert_ne. }
  { by rewrite lookup_insert_eq. }
  { set_solver. }
  destruct (dtor_inv ∅ ∅ _ _ temp ct Hinv2) as (w3 & Hd & Hinv3).
  { rewrite lookup_insert_ne by done. by rewrite lookup_insert_eq. }
  { done. }
  unfold mbind, M_bind. rewrite Hd. simpl. exists cells.
  replace (<[this:=cells]> reps) with
    (delete temp (<[this:=cells]> (<[temp:=ct]> (<[temp:=cells]> reps)))); [done|].
  apply map_eq. intros i. destruct (decide (i = temp)) as [->|?].
  - rewrite lookup_delete_eq, lookup_insert_ne by done. by rewrite Hfree.
  - rewrite lookup_delete_ne by done.
    destruct (decide (i = this)) as [->|?]; [by rewrite !lookup_insert_eq|].
    by rewrite !lookup_insert_ne.
Qed.

(** ** Every call keeps the store well formed *)

Lemma exec_wf w c :
  wf w → precondition w c →
  match exec c w with
  | Ok _ w' | BadAlloc w' => wf w'
  | _ => False
  end.
Proof using new_fresh.
  intros [reps Hinv] Hpre. unfold wf, wf_raw.
  destruct c as [this|this temp junk vals|this temp junk other
                |this temp temp' junk rhs|this|this val|this|this pos val
                |this pos|this|this other]; simpl in *.
  - eexists. by eapply (construct_inv ∅ ∅ _ _ this 0).
  - destruct Hpre as (Hthis & Htemp & Hne).
    pose proof (ctor_init_inv _ _ _ _ junk vals Hinv Hthis Htemp Hne) as H.
    destruct (ctor_init this temp junk vals w); try done; [destruct H|]; by eexists.
  - destruct Hpre as (Hthis & Htemp & Hne & Hother).
    destruct (inv_lookup _ _ _ _ Hinv Hother) as [oc Hoc].
    pose proof (ctor_copy_inv _ _ _ _ junk _ _ Hinv Hthis Htemp Hne Hoc) as H.
    destruct (ctor_copy this temp junk other w); try done; [destruct H|]; by eexists.
  - destruct Hpre as (Hthis & Hrhs & Htemp & Htemp' & Hne).
    destruct (inv_lookup _ _ _ _ Hinv Hthis) as [ct Hct].
    destruct (inv_lookup _ _ _ _ Hinv Hrhs) as [cr Hcr].
    pose proof (assign_inv _ _ _ _ _ junk _ _ _ Hinv Hct Hcr Htemp Htemp' Hne) as H.
    destruct (assign this temp temp' junk rhs w); try done; [destruct H|]; by eexists.
  - destruct (inv_lookup _ _ _ _ Hinv Hpre) as [ct Hct].
    destruct (dtor_inv ∅ ∅ _ _ _ _ Hinv Hct) as (w' & -> & Hinv'); [done|]. by eexists.
  - destruct (inv_lookup _ _ _ _ Hinv Hpre) as [ct Hct].
    pose proof (PushFront_inv _ _ _ _ _ val Hinv Hct) as H.
    destruct (new_ (nodes w)).
    + destruct H as (w' & -> & Hinv'). by eexists.
    + rewrite H. by eexists.
  - destruct (inv_lookup _ _ _ _ Hinv Hpre) as [ct Hct].
    destruct (PopFront_inv _ _ _ _ _ Hinv Hct) as (w' & -> & Hinv' & _); [set_solver|].
    by eexists.
  - destruct Hpre as (Hthis & k & Hpos).
    destruct (inv_lookup _ _ _ _ Hinv Hthis) as [ct Hct].
    unfold mbind, M_bind.
    destruct (new_ (nodes w)) as [a|] eqn:Hnew.
    + destruct (InsertAfter_inv _ _ _ _ _ _ _ val _ Hinv Hct Hpos Hnew)
        as (w' & -> & Hinv' & _). by eexists.
    + rewrite (InsertAfter_fails _ _ _ _ _ Hpos Hnew). by eexists.
  - destruct Hpre as (Hthis & (k & Hpos) & Hsucc).
    destruct (inv_lookup _ _ _ _ Hinv Hthis) as [ct Hct].
    destruct (successor_cell _ _ _ _ _ (inv_chained _ _ _ Hinv _ _ Hct) Hpos Hsucc)
      as (ea & ev & Hdrop).
    destruct (EraseAfter_inv _ _ _ _ _ _ _ _ _ Hinv Hct Hpos Hdrop)
      as (w' & Hrun & Hinv' & _).
    unfold mbind, M_bind. rewrite Hrun. by eexists.
  - destruct (inv_lookup _ _ _ _ Hinv Hpre) as [ct Hct].
    destruct (Clear_inv _ _ _ _ _ Hinv Hct) as (w' & -> & Hinv'). by eexists.
  - destruct Hpre as (Hthis & Hother).
    destruct (inv_lookup _ _ _ _ Hinv Hthis) as [ct Hct].
    destruct (inv_lookup _ _ _ _ Hinv Hother) as [co Hco].
    destruct (swap_inv ∅ ∅ _ _ _ _ _ _ Hinv Hct Hco) as (w' & -> & Hinv'); [set_solver|].
    by eexists.
Qed.

(** A call made within its precondition returns or throws
    [std::bad_alloc]: no [assert] fails, nothing undefined happens, and
    the loops have fuel enough. *)
Lemma exec_defined w c :
  wf w → precondition w c →
  ∃ w', wf w' ∧ (exec c w = Ok () w' ∨ exec c w = BadAlloc w').
Proof using new_fresh.
  intros Hwf Hpre. pose proof (exec_wf _ _ Hwf Hpre) as H.
  destruct (exec c w) as [[] w'|w'| | |]; try done; exists w'; auto.
Qed.

Lemma empty_world_wf : wf empty_world.
Proof.
  exists ∅. split; simpl; try done.
  intros a [n Ha]. by rewrite lookup_empty in Ha.
Qed.

Lemma reachable_wf w : reachable w → wf w.
Proof using new_fresh.
  induction 1 as [|w c w' _ IH Hpre Hrun|w c w' _ IH Hpre Hrun].
  - apply empty_world_wf.
  - pose proof (exec_wf _ _ IH Hpre) as H. by rewrite Hrun in H.
  - pose proof (exec_wf _ _ IH Hpre) as H. by rewrite Hrun in H.
Qed.

(** ** What the observers return on a well-formed list *)

Lemma cbegin_chained w this cells :
  chained w this cells → cbegin this w = Ok (mkIter (fst <$> head cells)) w.
Proof.
  intros [hv [_ (nx & Hn & H)]]. unfold cbegin, begin_.
  unfold mbind, M_bind. rewrite (get_head_next_Some _ _ _ Hn). simpl.
  destruct cells as [|[a v] rest]; simpl in *; [by subst|]. by destruct H as [-> _].
Qed.

Lemma to_list_chained w this cells :
  chained w this cells → to_list this w = Ok (values cells) w.
Proof.
  intros Hch. unfold to_list. unfold mbind at 1, M_bind at 1.
  rewrite (cbegin_chained _ _ _ Hch). simpl. unfold with_fuel.
  apply collect_lseg; [|by eapply chained_length_size].
  by apply (chained_suffix w this []).
Qed.

Lemma count_steps_chained w this cells :
  chained w this cells → count_steps this w = Ok (Z.of_nat (length cells)) w.
Proof.
  intros Hch. unfold count_steps. unfold mbind at 1, M_bind at 1.
  rewrite (cbegin_chained _ _ _ Hch). simpl. unfold with_fuel.
  apply distance_lseg; [|by eapply chained_length_size].
  by apply (chained_suffix w this []).
Qed.

Lemma GetSize_counted w this cells :
  counted w this cells → GetSize this w = Ok (Z.of_nat (length cells)) w.
Proof. intros Hc. unfold GetSize, get_size. by rewrite Hc. Qed.

Lemma observe_inv reps w this cells :
  inv ∅ reps w → reps !! this = Some cells →
  to_list this w = Ok (values cells) w ∧
  GetSize this w = Ok (Z.of_nat (length cells)) w ∧
  count_steps this w = Ok (Z.of_nat (length cells)) w.
Proof.
  intros Hinv Hthis. pose proof (inv_chained _ _ _ Hinv _ _ Hthis) as Hch.
  split; [by apply to_list_chained|]. split; [|by apply count_steps_chained].
  apply GetSize_counted. eapply inv_counted; [done|done|apply not_elem_of_empty].
Qed.

Lemma Ok_inj {A : Type} (a b : A) (w w' : World Type_) :
  Ok a w = Ok b w' → a = b.
Proof. by intros [= -> _]. Qed.

Lemma values_length cells : length (values cells) = length cells.
Proof. unfold values. by rewrite length_fmap. Qed.

(** A null position is what the [assert]s of the splices catch. *)
Lemma InsertAfter_null_asserts w this val :
  InsertAfter this (mkIter None) val w = AssertFail.
Proof. reflexivity. Qed.

Lemma EraseAfter_null_asserts w this :
  EraseAfter this (mkIter None) w = AssertFail.
Proof. reflexivity. Qed.

(** The successor that [EraseAfter] reads is not checked: on a node
    whose [next_node] is null no [assert] fails, the null pointer is
    dereferenced. *)
Lemma EraseAfter_no_successor w this (pos : ConstIterator) pa n :
  node_ pos = Some pa → nodes w !! pa = Some n → next_node n = None →
  EraseAfter this pos w = Undefined.
Proof.
  intros Hpos Hpa Hnx. destruct pos as [p]. simpl in Hpos. subst p.
  unfold_ops. mred. rewrite Hpa. mred. by rewrite Hnx.
Qed.

(** ** Comparing two chains *)

Lemma pairwise_equal_Forall2 xs ys :
  length xs = length ys →
  pairwise_equal xs ys = true ↔ Forall2 (λ x y, Type_eq x y = true) xs ys.
Proof.
  revert ys. induction xs as [|x xs IH]; intros [|y ys] Hlen; simpl in *; try done.
  injection Hlen as Hlen. destruct (Type_eq x y) eqn:Hxy; simpl.
  - rewrite (IH ys Hlen). split; [by constructor|]. by intros [_ ?]%Forall2_cons.
  - split; [done|]. intros [? _]%Forall2_cons. congruence.
Qed.

Lemma std_equal_lseg w p1 c1 p2 c2 fuel :
  lseg (nodes w) p1 c1 None → lseg (nodes w) p2 c2 None →
  length c1 = length c2 → (length c1 ≤ fuel)%nat →
  std_equal fuel (mkIter p1) (mkIter None) (mkIter p2) w =
    Ok (pairwise_equal (values c1) (values c2)) w.
Proof.
  revert p1 p2 c2 fuel.
  induction c1 as [|[a x] r1 IH]; intros p1 p2 [|[b y] r2] fuel; simpl; try done.
  - intros -> _ _ _. by destruct fuel.
  - intros [-> (nx1 & Ha & H1)] [-> (nx2 & Hb & H2)] [= Hlen] Hle.
    destruct fuel as [|fuel]; [lia|]. simpl.
    unfold mbind at 1, M_bind at 1. rewrite (deref_Some _ _ _ Ha).
    unfold mbind at 1, M_bind at 1. rewrite (deref_Some _ _ _ Hb). simpl.
    destruct (Type_eq x y); [|done].
    unfold mbind at 1, M_bind at 1. rewrite (pre_incr_Some _ _ _ Ha).
    unfold mbind at 1, M_bind at 1. rewrite (pre_incr_Some _ _ _ Hb). simpl.
    apply IH; [done|done|done|lia].
Qed.

Lemma std_lexicographical_compare_lseg w p1 c1 p2 c2 fuel :
  lseg (nodes w) p1 c1 None → lseg (nodes w) p2 c2 None →
  (length c1 ≤ fuel)%nat →
  std_lexicographical_compare fuel (mkIter p1) (mkIter None) (mkIter p2) (mkIter None) w =
    Ok (lexicographic_less (values c1) (values c2)) w.
Proof.
  revert p1 p2 c2 fuel.
  induction c1 as [|[a x] r1 IH]; intros p1 p2 [|[b y] r2] fuel; simpl.
  - intros -> -> _. by destruct fuel.
  - intros -> [-> _] _. by destruct fuel.
  - intros [-> _] -> _. by destruct fuel.
  - intros [-> (nx1 & Ha & H1)] [-> (nx2 & Hb & H2)] Hle.
    destruct fuel as [|fuel]; [lia|]. simpl.
    unfold mbind at 1, M_bind at 1. rewrite (deref_Some _ _ _ Ha).
    unfold mbind at 1, M_bind at 1. rewrite (deref_Some _ _ _ Hb). simpl.
    destruct (Type_lt x y); [done|]. destruct (Type_lt y x); [done|].
    unfold mbind at 1, M_bind at 1. rewrite (pre_incr_Some _ _ _ Ha).
    unfold mbind at 1, M_bind at 1. rewrite (pre_incr_Some _ _ _ Hb). simpl.
    apply IH; [done|done|lia].
Qed.

Lemma operator_eq_inv reps w lhs rhs c1 c2 :
  inv ∅ reps w → reps !! lhs = Some c1 → reps !! rhs = Some c2 →
  operator_eq lhs rhs w =
    Ok (bool_decide (length c1 = length c2) && pairwise_equal (values c1) (values c2)) w.
Proof.
  intros Hinv H1 H2.
  pose proof (inv_chained _ _ _ Hinv _ _ H1) as Hch1.
  pose proof (inv_chained _ _ _ Hinv _ _ H2) as Hch2.
  destruct (observe_inv _ _ _ _ Hinv H1) as (_ & Hs1 & _).
  destruct (observe_inv _ _ _ _ Hinv H2) as (_ & Hs2 & _).
  unfold operator_eq.
  unfold mbind at 1, M_bind at 1. rewrite Hs1.
  unfold mbind at 1, M_bind at 1. rewrite Hs2.
  destruct (decide (length c1 = length c2)) as [Hlen|Hlen].
  - rewrite !bool_decide_eq_true_2 by (done || by rewrite Hlen). simpl.
    unfold mbind at 1, M_bind at 1. rewrite (cbegin_chained _ _ _ Hch1).
    unfold mbind at 1, M_bind at 1. simpl.
    unfold mbind at 1, M_bind at 1. rewrite (cbegin_chained _ _ _ Hch2).
    unfold with_fuel. apply std_equal_lseg; [| |done|by eapply chained_length_size].
    + by apply (chained_suffix w lhs []).
    + by apply (chained_suffix w rhs []).
  - rewrite !bool_decide_eq_false_2; [done|done|]. intros Heq. apply Hlen. lia.
Qed.

Lemma operator_lt_inv reps w lhs rhs c1 c2 :
  inv ∅ reps w → reps !! lhs = Some c1 → reps !! rhs = Some c2 →
  operator_lt lhs rhs w = Ok (lexicographic_less (values c1) (values c2)) w.
Proof.
  intros Hinv H1 H2.
  pose proof (inv_chained _ _ _ Hinv _ _ H1) as Hch1.
  pose proof (inv_chained _ _ _ Hinv _ _ H2) as Hch2.
  unfold operator_lt.
  unfold mbind at 1, M_bind at 1. rewrite (cbegin_chained _ _ _ Hch1).
  unfold mbind at 1, M_bind at 1. simpl.
  unfold mbind at 1, M_bind at 1. rewrite (cbegin_chained _ _ _ Hch2).
  unfold mbind at 1, M_bind at 1. simpl.
  unfold with_fuel. apply std_lexicographical_compare_lseg;
    [| |by eapply chained_length_size].
  - by apply (chained_suffix w lhs []).
  - by apply (chained_suffix w rhs []).
Qed.

Lemma lexicographic_less_prefix xs ext :
  ext ≠ [] → lexicographic_less xs (xs ++ ext) = true.
Proof.
  intros Hext. induction xs as [|x xs IH]; simpl.
  - by destruct ext.
  - by destruct (Type_lt x x).
Qed.

Lemma lists_trichotomy xs ys :
  (∀ x y, exactly_one (Type_lt x y) (Type_lt y x) (Type_eq x y)) →
  exactly_one (lexicographic_less xs ys) (lexicographic_less ys xs)
              (bool_decide (length xs = length ys) && pairwise_equal xs ys).
Proof.
  intros Htri. revert ys. induction xs as [|x xs IH]; intros [|y ys]; simpl.
  - right. right. done.
  - left. done.
  - right. left. done.
  - specialize (IH ys).
    assert (bool_decide (S (length xs) = S (length ys)) = bool_decide (length xs = length ys))
      as -> by (apply bool_decide_ext; lia).
    destruct (Htri x y) as [(-> & -> & ->)|[(-> & -> & ->)|(-> & -> & ->)]]; simpl.
    + left. by rewrite andb_false_r.
    + right. left. by rewrite andb_false_r.
    + done.
Qed.

(** * The claims *)

(** C1.  In every store a program can reach by the public operations,
    called within their preconditions, the [size_] that [GetSize()] returns
    for a list is the number of [++] steps from its [cbegin()] to its
    [cend()], that is the number of nodes on its chain. *)
Theorem GetSize_counts_chain w this :
  reachable w → is_list w this →
  ∃ n, GetSize this w = Ok n w ∧ count_steps this w = Ok n w.
Proof using new_fresh.
  intros [reps Hinv]%reachable_wf His.
  destruct (inv_lookup _ _ _ _ Hinv His) as [cells Hthis].
  destruct (observe_inv _ _ _ _ Hinv Hthis) as (_ & Hsize & Hsteps).
  by exists (Z.of_nat (length cells)).
Qed.

(** C2.  On a well-formed store, [InsertAfter(pos, value)] at position [k]
    of a list (0 is the sentinel) returns an iterator to a new node that
    holds [value]: the node is the successor of [pos], its successor is
    the former successor of [pos], the elements before and after keep
    their order, and the count grows by one.  When [new] throws, the
    store is the one before the call. *)
Theorem InsertAfter_splices w this (pos : ConstIterator) k val vs n :
  wf w → is_list w this → is_position w this pos k →
  to_list this w = Ok vs w → GetSize this w = Ok n w →
  match new_ (nodes w) with
  | Some a =>
      ∃ w' (it : Iterator),
        InsertAfter this pos val w = Ok it w' ∧ node_ it = Some a ∧
        wf w' ∧
        to_list this w' = Ok (take k vs ++ val :: drop k vs) w' ∧
        GetSize this w' = Ok (n + 1) w' ∧
        deref it w' = Ok val w' ∧
        pre_incr pos w' = Ok (from_iterator it) w' ∧
        (∀ nxt, pre_incr pos w = Ok nxt w → pre_incr (from_iterator it) w' = Ok nxt w')
  | None => InsertAfter this pos val w = BadAlloc w
  end.
Proof using new_fresh.
  intros [reps Hinv] His Hpos Hvs Hn.
  destruct (inv_lookup _ _ _ _ Hinv His) as [cells Hthis].
  destruct (observe_inv _ _ _ _ Hinv Hthis) as (Hlist & Hsize & _).
  rewrite Hlist in Hvs. apply Ok_inj in Hvs. subst vs.
  rewrite Hsize in Hn. apply Ok_inj in Hn. subst n.
  destruct (new_ (nodes w)) as [a|] eqn:Hnew; [|by eapply InsertAfter_fails].
  destruct (InsertAfter_inv _ _ _ _ _ _ _ val _ Hinv Hthis Hpos Hnew)
    as (w' & Hrun & Hinv' & Hpos' & Ha & Hnext & Hold).
  exists w', (mkIter (Some a)). split; [done|]. split; [done|].
  split; [by exists (<[this:=take k cells ++ (a, val) :: drop k cells]> reps)|].
  destruct (observe_inv _ _ this _ Hinv' ltac:(by rewrite lookup_insert_eq))
    as (Hlist' & Hsize' & _).
  split; [|split; [|split; [|split]]].
  - rewrite Hlist'. unfold values. by rewrite fmap_app, fmap_cons, fmap_take, fmap_drop.
  - rewrite Hsize'. f_equal. rewrite length_app. simpl.
    pose proof (f_equal length (take_drop k cells)) as Htd.
    rewrite length_app in Htd. lia.
  - by rewrite (deref_Some _ _ _ Ha).
  - done.
  - intros nxt Hnxt. rewrite Hold in Hnxt. injection Hnxt as <-.
    unfold from_iterator. simpl. by rewrite (pre_incr_Some _ _ _ Ha).
Qed.

(** C3.  [EraseAfter(before_begin())] on a list that has just been
    default-constructed, which has no element to erase, does not stop at
    an [assert]: the only [assert] of [EraseAfter] passes and the call goes
    on to read through the null successor. *)
Theorem EraseAfter_past_the_end_is_not_asserted this w0 :
  (ctor_default this;; EraseAfter this (cbefore_begin this)) w0 = Undefined.
Proof.
  unfold mbind, M_bind, ctor_default, construct_members.
  simpl.
  apply (EraseAfter_no_successor _ this _ this (mkNode Type_default None));
    [done| |done].
  simpl. by rewrite lookup_insert_eq.
Qed.

(** C4.  On a well-formed store, [A == B] returns [true] exactly when
    the two counts are equal and the elements, taken in order, are
    pairwise accepted by the element type's [==]; [A != B] returns the
    negation. *)
Theorem operator_eq_iff_same_count_and_elements w lhs rhs xs ys m n :
  wf w → is_list w lhs → is_list w rhs →
  to_list lhs w = Ok xs w → to_list rhs w = Ok ys w →
  GetSize lhs w = Ok m w → GetSize rhs w = Ok n w →
  ∃ b, operator_eq lhs rhs w = Ok b w ∧
       (b = true ↔ m = n ∧ Forall2 (λ x y, Type_eq x y = true) xs ys) ∧
       operator_ne lhs rhs w = Ok (negb b) w.
Proof.
  intros [reps Hinv] Hl Hr Hxs Hys Hm Hn.
  destruct (inv_lookup _ _ _ _ Hinv Hl) as [c1 H1].
  destruct (inv_lookup _ _ _ _ Hinv Hr) as [c2 H2].
  destruct (observe_inv _ _ _ _ Hinv H1) as (Hl1 & Hs1 & _).
  destruct (observe_inv _ _ _ _ Hinv H2) as (Hl2 & Hs2 & _).
  rewrite Hl1 in Hxs. apply Ok_inj in Hxs. subst xs.
  rewrite Hl2 in Hys. apply Ok_inj in Hys. subst ys.
  rewrite Hs1 in Hm. apply Ok_inj in Hm. subst m.
  rewrite Hs2 in Hn. apply Ok_inj in Hn. subst n.
  pose proof (operator_eq_inv _ _ _ _ _ _ Hinv H1 H2) as Heq.
  eexists. split; [done|]. split.
  - rewrite andb_true_iff, bool_decide_eq_true. split.
    + intros [Hlen Hall]. split; [by rewrite Hlen|].
      apply pairwise_equal_Forall2; [by rewrite !values_length|done].
    + intros [Hlen Hall]. assert (length c1 = length c2) as Hlen' by lia.
      split; [done|]. apply pairwise_equal_Forall2; [by rewrite !values_length|done].
  - unfold operator_ne, mbind, M_bind. by rewrite Heq.
Qed.

(** C5.  When for any two elements exactly one of [x < y], [y < x] and
    [x == y] holds, then on a well-formed store exactly one of [A < B],
    [B < A] and [A == B] returns [true], for any two lists. *)
Theorem list_comparison_trichotomy w lhs rhs :
  (∀ x y, exactly_one (Type_lt x y) (Type_lt y x) (Type_eq x y)) →
  wf w → is_list w lhs → is_list w rhs →
  ∃ lt gt eq,
    operator_lt lhs rhs w = Ok lt w ∧
    operator_lt rhs lhs w = Ok gt w ∧
    operator_eq lhs rhs w = Ok eq w ∧
    exactly_one lt gt eq.
Proof.
  intros Htri [reps Hinv] Hl Hr.
  destruct (inv_lookup _ _ _ _ Hinv Hl) as [c1 H1].
  destruct (inv_lookup _ _ _ _ Hinv Hr) as [c2 H2].
  eexists _, _, _. split; [by eapply operator_lt_inv|].
  split; [by eapply operator_lt_inv|]. split; [by eapply operator_eq_inv|].
  rewrite <- (values_length c1), <- (values_length c2). by apply lists_trichotomy.
Qed.

(** C6.  On a well-formed store [A < B] returns what lexicographic
    comparison of the two element sequences gives; so it returns [true]
    when [A] is empty and [B] is not, and when [B] is [A] followed by at
    least one more element. *)
Theorem operator_lt_is_lexicographic w lhs rhs xs ys :
  wf w → is_list w lhs → is_list w rhs →
  to_list lhs w = Ok xs w → to_list rhs w = Ok ys w →
  operator_lt lhs rhs w = Ok (lexicographic_less xs ys) w ∧
  (xs = [] → ys ≠ [] → operator_lt lhs rhs w = Ok true w) ∧
  (∀ ext, ext ≠ [] → ys = xs ++ ext → operator_lt lhs rhs w = Ok true w).
Proof.
  intros [reps Hinv] Hl Hr Hxs Hys.
  destruct (inv_lookup _ _ _ _ Hinv Hl) as [c1 H1].
  destruct (inv_lookup _ _ _ _ Hinv Hr) as [c2 H2].
  destruct (observe_inv _ _ _ _ Hinv H1) as (Hl1 & _ & _).
  destruct (observe_inv _ _ _ _ Hinv H2) as (Hl2 & _ & _).
  rewrite Hl1 in Hxs. apply Ok_inj in Hxs.
  rewrite Hl2 in Hys. apply Ok_inj in Hys.
  rewrite (operator_lt_inv _ _ _ _ _ _ Hinv H1 H2), Hxs, Hys.
  split; [done|]. split.
  - intros -> Hne. by destruct ys.
  - intros ext Hext ->. by rewrite lexicographic_less_prefix.
Qed.

(** C7.  On a well-formed store, [InsertAfter(p, x)] followed by
    [EraseAfter(p)] at a position [p] of the list ends in the store it
    started from: every node, link and count is as before, hence so are
    the elements, their order and the size.  [EraseAfter] returns the
    successor [p] had at the start. *)
Theorem EraseAfter_undoes_InsertAfter w this (pos : ConstIterator) k val a :
  wf w → is_list w this → is_position w this pos k →
  new_ (nodes w) = Some a →
  ∃ w1 (it nxt : Iterator),
    InsertAfter this pos val w = Ok it w1 ∧
    EraseAfter this pos w1 = Ok nxt w ∧
    pre_incr pos w = Ok (from_iterator nxt) w.
Proof using new_fresh.
  intros [reps Hinv] His Hpos Hnew.
  destruct (inv_lookup _ _ _ _ Hinv His) as [cells Hthis].
  pose proof (inv_chained _ _ _ Hinv _ _ Hthis) as Hch.
  pose proof (inv_counted _ _ _ Hinv _ _ Hthis ltac:(set_solver)) as Hs.
  pose proof (chained_length_limit _ _ _ (inv_range _ _ _ Hinv) Hch) as Hlim.
  destruct (position_cell _ _ _ _ _ Hch Hpos)
    as (hv & f1 & pa & pv & nxp & _ & _ & Hpa & Hn & _ & _).
  destruct (new_fresh _ _ Hnew) as [Hfresh _].
  assert (pa ≠ a) as Hne by (intros ->; congruence).
  unfold counted in Hs.
  eexists _, _, (mkIter nxp). split; [by eapply InsertAfter_run|]. split.
  - rewrite (EraseAfter_run _ this pos pa pv a val nxp
               (size_t_wrap (Z.of_nat (length cells) + 1))); try done; simpl.
    + f_equal. destruct w as [m sz]. simpl in *. f_equal.
      * rewrite insert_insert_eq, delete_insert_ne by done.
        rewrite delete_insert_id by done. by apply insert_id.
      * rewrite insert_insert_eq. apply insert_id. rewrite Hs. f_equal.
        rewrite (size_t_wrap_small (_ + 1)) by lia.
        rewrite size_t_wrap_small; lia.
    + by rewrite lookup_insert_eq.
    + by rewrite lookup_insert_ne, lookup_insert_eq.
    + by rewrite lookup_insert_eq.
  - destruct pos as [p]. simpl in Hpa. subst p.
    by rewrite (pre_incr_Some _ _ _ Hn).
Qed.

(** C8.  On a well-formed store, [PopFront()] on a list with a first
    element returns with that node deleted, the remaining elements in
    their order and the count one less; on an empty list it returns with
    the store untouched, the list still empty and its count 0. *)
Theorem PopFront_pops_or_does_nothing w this vs n :
  wf w → is_list w this →
  to_list this w = Ok vs w → GetSize this w = Ok n w →
  match vs with
  | [] => PopFront this w = Ok () w ∧ n = 0
  | _ :: rest =>
      ∃ w' front,
        cbegin this w = Ok (mkIter (Some front)) w ∧
        PopFront this w = Ok () w' ∧
        nodes w' !! front = None ∧
        wf w' ∧
        to_list this w' = Ok rest w' ∧
        GetSize this w' = Ok (n - 1) w'
  end.
Proof.
  intros [reps Hinv] His Hvs Hn.
  destruct (inv_lookup _ _ _ _ Hinv His) as [cells Hthis].
  destruct (observe_inv _ _ _ _ Hinv Hthis) as (Hlist & Hsize & _).
  rewrite Hlist in Hvs. apply Ok_inj in Hvs. subst vs.
  rewrite Hsize in Hn. apply Ok_inj in Hn. subst n.
  destruct (PopFront_inv _ _ _ _ _ Hinv Hthis (not_elem_of_empty this))
    as (w' & Hrun & Hinv' & Hrest).
  destruct cells as [|[ea ev] rest]; simpl in *.
  - by subst w'.
  - exists w', ea. split.
    { by rewrite (cbegin_chained _ _ _ (inv_chained _ _ _ Hinv _ _ Hthis)). }
    split; [done|]. split; [done|]. split; [by eexists|].
    destruct (observe_inv _ _ this _ Hinv' ltac:(by rewrite lookup_insert_eq))
      as (Hlist' & Hsize' & _).
    split; [done|]. rewrite Hsize'. f_equal. lia.
Qed.

(** C9.  On a well-formed store and a list with a first element,
    [PopFront()] and [EraseAfter(before_begin())] with its result dropped
    are the same call: both return, in the same store. *)
Theorem PopFront_is_EraseAfter_before_begin w this v rest :
  wf w → is_list w this → to_list this w = Ok (v :: rest) w →
  PopFront this w = (EraseAfter this (cbefore_begin this);; mret ()) w ∧
  ∃ w', PopFront this w = Ok () w'.
Proof.
  intros [reps Hinv] His Hvs.
  destruct (inv_lookup _ _ _ _ Hinv His) as [cells Hthis].
  destruct (observe_inv _ _ _ _ Hinv Hthis) as (Hlist & _ & _).
  rewrite Hlist in Hvs. apply Ok_inj in Hvs.
  destruct cells as [|[ea ev] crest]; [done|].
  destruct (inv_front _ _ _ _ _ Hinv Hthis) as (hv & Hn & _ & Hne & Hea).
  pose proof (inv_counted _ _ _ Hinv _ _ Hthis (not_elem_of_empty this)) as Hs.
  unfold counted in Hs. simpl in *.
  split.
  - eapply PopFront_as_EraseAfter; done.
  - destruct (PopFront_inv _ _ _ _ _ Hinv Hthis (not_elem_of_empty this))
      as (w' & Hrun & _).
    by exists w'.
Qed.

(** C10.  A default-constructed iterator of either mutability compares
    equal, by [==] and by [!=], to what [end()] returns for any list in
    any store, and so do any two such end iterators. *)
Theorem default_iterator_equals_end (vt vt1 vt2 : mutability) this other w w' :
  ∃ (e1 : BasicIterator vt1) (e2 : BasicIterator vt2),
    end_ this w = Ok e1 w ∧ end_ other w' = Ok e2 w' ∧
    iter_eq (default_iterator vt) e1 = true ∧
    iter_ne (default_iterator vt) e1 = false ∧
    iter_eq e1 (default_iterator vt) = true ∧
    iter_eq e1 e2 = true ∧
    iter_ne e1 e2 = false.
Proof. by exists (mkIter None), (mkIter None). Qed.

(** * More of the container *)

(** ** Lists that a call leaves alone *)

Lemma same_contents_inv reps reps' w w' t c :
  inv ∅ reps w → inv ∅ reps' w' →
  reps !! t = Some c → reps' !! t = Some c →
  same_contents w w' t.
Proof.
  intros Hinv Hinv' Ht Ht'.
  destruct (observe_inv _ _ _ _ Hinv Ht) as (Hl & Hs & _).
  destruct (observe_inv _ _ _ _ Hinv' Ht') as (Hl' & Hs' & _).
  by exists (values c), (Z.of_nat (length c)).
Qed.

Lemma others_same_contents reps w w' this c' :
  inv ∅ reps w → inv ∅ (<[this := c']> reps) w' →
  ∀ t, is_list w t → t ≠ this → same_contents w w' t.
Proof.
  intros Hinv Hinv' t Ht Hne.
  destruct (inv_lookup _ _ _ _ Hinv Ht) as [c Hc].
  eapply same_contents_inv; [done|done|done|]. by rewrite lookup_insert_ne.
Qed.

Lemma inv_is_list raw reps w t c :
  inv raw reps w → reps !! t = Some c → is_list w t.
Proof. intros Hinv Ht. by eapply inv_size. Qed.

(** ** PushFront *)

(** X1.  On a well-formed store [PushFront(value)] returns with [value]
    in front of the former elements, the count one more and [begin()] on
    the node that [new] made; when [new] throws, it throws with the store
    as it was.  Other lists read as before. *)
Theorem PushFront_prepends w this val vs n :
  wf w → is_list w this →
  to_list this w = Ok vs w → GetSize this w = Ok n w →
  match new_ (nodes w) with
  | Some a =>
      ∃ w', PushFront this val w = Ok () w' ∧ wf w' ∧
            to_list this w' = Ok (val :: vs) w' ∧
            GetSize this w' = Ok (n + 1) w' ∧
            cbegin this w' = Ok (mkIter (Some a)) w' ∧
            ∀ t, is_list w t → t ≠ this → same_contents w w' t
  | None => PushFront this val w = BadAlloc w
  end.
Proof using new_fresh.
  intros [reps Hinv] His Hvs Hn.
  destruct (inv_lookup _ _ _ _ Hinv His) as [cells Hthis].
  destruct (observe_inv _ _ _ _ Hinv Hthis) as (Hlist & Hsize & _).
  rewrite Hlist in Hvs. apply Ok_inj in Hvs. subst vs.
  rewrite Hsize in Hn. apply Ok_inj in Hn. subst n.
  pose proof (PushFront_inv _ _ _ _ _ val Hinv Hthis) as H.
  destruct (new_ (nodes w)) as [a|]; [|done].
  destruct H as (w' & Hrun & Hinv'). exists w'. split; [done|].
  split; [by eexists|].
  destruct (observe_inv _ _ this _ Hinv' ltac:(by rewrite lookup_insert_eq))
    as (Hlist' & Hsize' & _).
  split; [done|]. split; [rewrite Hsize'; f_equal; simpl; lia|]. split.
  - apply (cbegin_chained w' this ((a, val) :: cells)).
    eapply inv_chained; [done|]. by rewrite lookup_insert_eq.
  - by eapply others_same_contents.
Qed.

(** X2.  On a well-formed store, when the allocation succeeds,
    [PushFront(value)] followed by [PopFront()] ends in the store it
    started from. *)
Theorem PopFront_undoes_PushFront w this val a :
  wf w → is_list w this → new_ (nodes w) = Some a →
  ∃ w1, PushFront this val w = Ok () w1 ∧ PopFront this w1 = Ok () w.
Proof using new_fresh.
  intros [reps Hinv] His Hnew.
  destruct (inv_lookup _ _ _ _ Hinv His) as [cells Hthis].
  pose proof (inv_chained _ _ _ Hinv _ _ Hthis) as Hch.
  pose proof (inv_counted _ _ _ Hinv _ _ Hthis (not_elem_of_empty this)) as Hs.
  pose proof (chained_length_limit _ _ _ (inv_range _ _ _ Hinv) Hch) as Hlim.
  destruct (inv_front _ _ _ _ _ Hinv Hthis) as (hv & Hn & _).
  destruct (new_fresh _ _ Hnew) as [Hfresh _].
  assert (this ≠ a) as Hne by (intros ->; congruence).
  unfold counted in Hs.
  eexists. split; [by eapply PushFront_run|].
  rewrite (PopFront_run _ this hv a val (fst <$> head cells)
             (size_t_wrap (Z.of_nat (length cells) + 1))); simpl.
  - f_equal. destruct w as [m sz]. simpl in *. f_equal.
    + rewrite insert_insert_eq, delete_insert_ne by done.
      rewrite delete_insert_id by done. by apply insert_id.
    + rewrite insert_insert_eq. apply insert_id. rewrite Hs. f_equal.
      rewrite (size_t_wrap_small (_ + 1)) by lia.
      rewrite size_t_wrap_small; lia.
  - by rewrite lookup_insert_eq.
  - rewrite size_t_wrap_small; lia.
  - by rewrite lookup_insert_eq.
  - by rewrite lookup_insert_ne, lookup_insert_eq.
  - done.
Qed.

(** ** Iterators across the splices *)

Lemma deref_Ok_inv {vt : mutability} (it : BasicIterator vt) w x w0 :
  deref it w = Ok x w0 →
  ∃ a n, node_ it = Some a ∧ nodes w !! a = Some n ∧ value n = x.
Proof.
  destruct it as [[a|]]; [|done]. unfold deref, load. mred.
  destruct (nodes w !! a) as [n|] eqn:Ha; [|done]. intros [= <- _]. by exists a, n.
Qed.

Lemma pre_incr_Ok_inv {vt : mutability} (it nxt : BasicIterator vt) w w0 :
  pre_incr it w = Ok nxt w0 →
  ∃ a n, node_ it = Some a ∧ nodes w !! a = Some n ∧ node_ nxt = next_node n.
Proof.
  destruct it as [[a|]]; [|done]. unfold pre_incr, load. mred.
  destruct (nodes w !! a) as [n|] eqn:Ha; [|done]. intros [= <- _]. by exists a, n.
Qed.

(** X3.  On a well-formed store [InsertAfter] invalidates no iterator:
    whatever could be dereferenced before the call reads the same value
    after it. *)
Theorem InsertAfter_keeps_iterators w this (pos : ConstIterator) k val
    (it : Iterator) w' :
  wf w → is_list w this → is_position w this pos k →
  InsertAfter this pos val w = Ok it w' →
  iterators_keep w w' [].
Proof using new_fresh.
  intros [reps Hinv] His Hpos Hrun.
  destruct (inv_lookup _ _ _ _ Hinv His) as [cells Hthis].
  pose proof (inv_chained _ _ _ Hinv _ _ Hthis) as Hch.
  destruct (inv_size _ _ _ _ _ Hinv Hthis) as [s Hs].
  destruct (position_cell _ _ _ _ _ Hch Hpos)
    as (hv & f1 & pa & pv & nxp & _ & _ & Hpa & Hn & _ & _).
  destruct (new_ (nodes w)) as [a|] eqn:Hnew;
    [|by rewrite (InsertAfter_throw _ _ _ _ _ Hpa Hnew) in Hrun].
  destruct (new_fresh _ _ Hnew) as [Hfresh _].
  rewrite (InsertAfter_run _ _ _ _ _ _ _ _ _ Hpa Hn Hs Hnew) in Hrun.
  injection Hrun as _ <-.
  intros it0 x _ (b & n & Hb & Hlook & Hval)%deref_Ok_inv.
  destruct it0 as [p]. simpl in Hb. subst p.
  destruct (decide (b = pa)) as [->|Hne].
  - rewrite Hn in Hlook. injection Hlook as <-. simpl in Hval. subst x.
    apply (deref_Some _ pa (mkNode pv (Some a))). simpl. by rewrite lookup_insert_eq.
  - rewrite <- Hval. apply deref_Some. simpl.
    rewrite lookup_insert_ne by done. rewrite lookup_insert_ne; [done|].
    intros <-. congruence.
Qed.

(** ** EraseAfter *)

(** X4.  On a well-formed store [EraseAfter(pos)], at a position [k]
    that has a successor, returns with that successor deleted from the
    store and taken out of the sequence, the other elements in their
    order and the count one less.  The iterator it returns is on what
    followed the erased node, which now follows [pos].  Only iterators on
    the erased node are invalidated, and other lists read as before. *)
Theorem EraseAfter_removes w this (pos : ConstIterator) k vs n :
  wf w → is_list w this → is_position w this pos k → has_successor w pos →
  to_list this w = Ok vs w → GetSize this w = Ok n w →
  ∃ w' (nxt : Iterator) erased,
    pre_incr pos w = Ok (mkIter (Some erased)) w ∧
    pre_incr (mkIter (vt := Const) (Some erased)) w = Ok (from_iterator nxt) w ∧
    EraseAfter this pos w = Ok nxt w' ∧
    wf w' ∧
    to_list this w' = Ok (take k vs ++ drop (S k) vs) w' ∧
    GetSize this w' = Ok (n - 1) w' ∧
    nodes w' !! erased = None ∧
    pre_incr pos w' = Ok (from_iterator nxt) w' ∧
    iterators_keep w w' [erased] ∧
    ∀ t, is_list w t → t ≠ this → same_contents w w' t.
Proof.
  intros [reps Hinv] His Hpos Hsucc Hvs Hn.
  destruct (inv_lookup _ _ _ _ Hinv His) as [cells Hthis].
  destruct (observe_inv _ _ _ _ Hinv Hthis) as (Hlist & Hsize & _).
  rewrite Hlist in Hvs. apply Ok_inj in Hvs. subst vs.
  rewrite Hsize in Hn. apply Ok_inj in Hn. subst n.
  pose proof (inv_chained _ _ _ Hinv _ _ Hthis) as Hch.
  destruct (inv_size _ _ _ _ _ Hinv Hthis) as [s Hs].
  destruct (successor_cell _ _ _ _ _ Hch Hpos Hsucc) as (ea & ev & Hdrop).
  destruct (position_cell _ _ _ _ _ Hch Hpos)
    as (hv & f1 & pa & pv & nxp & _ & _ & Hpa & Hpn & Hfull & Htail).
  rewrite Hdrop in Htail, Hfull. simpl in Htail.
  destruct Htail as [-> (nxe & Hea & Hrest)].
  assert (nxe = fst <$> head (drop (S k) cells)) as Hnxe.
  { destruct (drop (S k) cells) as [|[b u] rest]; simpl in *; [done|].
    by destruct Hrest as [-> _]. }
  assert (pa ≠ ea) as Hne.
  { intros ->. apply lseg_NoDup in Hfull. unfold addrs in Hfull.
    rewrite fmap_app in Hfull. simpl in Hfull.
    apply NoDup_app in Hfull as (_ & _ & Hnd). apply NoDup_cons in Hnd as [Hnd _].
    apply Hnd. left. }
  destruct (EraseAfter_inv _ _ _ _ _ _ _ _ _ Hinv Hthis Hpos Hdrop)
    as (w' & Hrun & Hinv' & Hgone & Hw').
  specialize (Hw' pa pv nxe s Hpa Hpn Hea Hs).
  destruct pos as [p]. simpl in Hpa. subst p.
  exists w', (mkIter nxe), ea.
  split; [by rewrite (pre_incr_Some _ _ _ Hpn)|].
  split; [by rewrite (pre_incr_Some _ _ _ Hea)|].
  split; [by rewrite Hnxe|]. split; [by eexists|].
  destruct (observe_inv _ _ this _ Hinv' ltac:(by rewrite lookup_insert_eq))
    as (Hlist' & Hsize' & _).
  split; [|split; [|split; [done|split; [|split]]]].
  - rewrite Hlist'. unfold values. by rewrite fmap_app, fmap_take, fmap_drop.
  - rewrite Hsize'. f_equal. rewrite length_app.
    pose proof (f_equal length (take_drop k cells)) as Htd.
    rewrite Hdrop, length_app in Htd. simpl in Htd. lia.
  - apply (pre_incr_Some w' pa (mkNode pv nxe)). subst w'. simpl.
    by rewrite lookup_delete_ne, lookup_insert_eq.
  - intros it0 x Hlive (b & nb & Hb & Hlook & Hval)%deref_Ok_inv.
    destruct it0 as [p]. simpl in Hb. subst p.
    assert (b ≠ ea) as Hbe.
    { intros ->. apply (Hlive ea eq_refl). left. }
    destruct (decide (b = pa)) as [->|Hbp].
    + rewrite Hpn in Hlook. injection Hlook as <-. simpl in Hval. subst x.
      apply (deref_Some _ pa (mkNode pv nxe)). subst w'. simpl.
      by rewrite lookup_delete_ne, lookup_insert_eq.
    + rewrite <- Hval. apply deref_Some. subst w'. simpl.
      by rewrite lookup_delete_ne, lookup_insert_ne.
  - by eapply others_same_contents.
Qed.

(** ** Clear, the destructor and the default constructor *)

Lemma position_node w this cells (pos : ConstIterator) k :
  chained w this cells → is_position w this pos (S k) →
  ∃ a, node_ pos = Some a ∧ a ∈ addrs cells.
Proof.
  intros Hch Hpos.
  destruct (position_cell _ _ _ _ _ Hch Hpos)
    as (hv & f1 & pa & pv & nxp & Heq & Hlen & Hpa & _).
  exists pa. split; [done|]. destruct f1 as [|c f1]; [done|].
  simpl in Heq. injection Heq as _ ->. unfold addrs. rewrite fmap_app.
  apply elem_of_app. right. simpl. left.
Qed.

Lemma node_position w this cells a :
  chained w this cells → a ∈ addrs cells →
  ∃ (pos : ConstIterator) k, is_position w this pos (S k) ∧ node_ pos = Some a.
Proof.
  intros [hv H] Ha. unfold addrs in Ha.
  apply list_elem_of_fmap in Ha as ([a' v] & Heq & Hin). simpl in Heq. subst a'.
  apply list_elem_of_split in Hin as (c1 & c2 & ->).
  exists (mkIter (Some a)), (length c1). split; [|done].
  apply (position_intro w this ((this, hv) :: c1) a v c2). by rewrite <- app_comm_cons.
Qed.

Lemma Clear_loop_deletes raw reps w this cells fuel :
  inv raw reps w → reps !! this = Some cells → (length cells ≤ fuel)%nat →
  ∃ w', Clear_loop fuel this w = Ok () w' ∧ inv raw (<[this := []]> reps) w' ∧
        (∀ a, a ∈ addrs cells → nodes w' !! a = None) ∧
        (∀ a, nodes w !! a = None → nodes w' !! a = None) ∧
        (∀ a n, a ∉ addrs cells → nodes w !! a = Some n →
                ∃ n', nodes w' !! a = Some n' ∧ value n' = value n).
Proof.
  revert reps w fuel.
  induction cells as [|[ea ev] rest IH]; intros reps w fuel Hinv Hthis Hle.
  - destruct (inv_front _ _ _ _ _ Hinv Hthis) as (hv & Hn & _).
    exists w. split; [by eapply Clear_loop_done|]. split; [by rewrite insert_id|].
    split; [by intros a ?%elem_of_nil|]. split; [done|]. intros a n _ Ha. by exists n.
  - destruct fuel as [|fuel]; [simpl in Hle; lia|].
    destruct (inv_front _ _ _ _ _ Hinv Hthis) as (hv & Hn & Hpos & Hne & Hea).
    destruct (inv_size _ _ _ _ _ Hinv Hthis) as [s Hs].
    simpl in Hn. rewrite (Clear_loop_step _ _ _ _ _ _ _ _ Hn Hea Hne Hs).
    destruct (EraseAfter_inv _ _ _ _ ((ea, ev) :: rest) _ 0 ea ev Hinv Hthis Hpos)
      as (w1 & _ & Hinv1 & _ & Hw1); [done|].
    simpl in Hinv1. specialize (Hw1 this hv _ s eq_refl Hn Hea Hs).
    rewrite <- Hw1.
    destruct (IH (<[this := rest]> reps) w1 fuel Hinv1) as
      (w' & Hrun & Hinv' & Hdel & Hmono & Hframe).
    { by rewrite lookup_insert_eq. }
    { simpl in Hle. lia. }
    exists w'. split; [done|]. split; [by rewrite insert_insert_eq in Hinv'|].
    assert (nodes w1 !! ea = None) as Hgone by (subst w1; simpl; by rewrite lookup_delete_eq).
    split; [|split].
    + intros a Ha. unfold addrs in Ha. simpl in Ha.
      apply elem_of_cons in Ha as [->|Ha]; [by apply Hmono|by apply Hdel].
    + intros a Ha. apply Hmono. subst w1. simpl.
      destruct (decide (a = ea)) as [->|?]; [by rewrite lookup_delete_eq|].
      rewrite lookup_delete_ne by done. rewrite lookup_insert_ne; [done|].
      intros <-. congruence.
    + intros a n Ha Hlook. unfold addrs in Ha. simpl in Ha.
      apply not_elem_of_cons in Ha as [Hae Ha].
      destruct (decide (a = this)) as [->|Hat].
      * rewrite Hn in Hlook. injection Hlook as <-.
        apply (Hframe this (mkNode hv (fst <$> head rest))); [done|].
        subst w1. simpl. by rewrite lookup_delete_ne, lookup_insert_eq.
      * apply Hframe; [done|]. subst w1. simpl.
        by rewrite lookup_delete_ne, lookup_insert_ne.
Qed.

Lemma keep_from_frame w w' gone :
  (∀ a n, a ∉ gone → nodes w !! a = Some n →
          ∃ n', nodes w' !! a = Some n' ∧ value n' = value n) →
  iterators_keep w w' gone.
Proof.
  intros Hframe it x Hlive (a & n & Ha & Hlook & Hval)%deref_Ok_inv.
  destruct (Hframe a n (Hlive a Ha) Hlook) as (n' & Hlook' & Hval').
  destruct it as [p]. simpl in Ha. subst p.
  rewrite (deref_Some _ _ _ Hlook'). congruence.
Qed.

(** X5.  On a well-formed store [Clear()] returns with every node of the
    list deleted, the list empty ([begin()] is [end()], [IsEmpty()] holds)
    and its count 0; only iterators on nodes of this list are invalidated,
    other lists read as before, and a second [Clear()] changes nothing. *)
Theorem Clear_empties w this :
  wf w → is_list w this →
  ∃ w', Clear this w = Ok () w' ∧ wf w' ∧
        to_list this w' = Ok [] w' ∧
        GetSize this w' = Ok 0 w' ∧
        IsEmpty this w' = Ok true w' ∧
        cbegin this w' = cend this w' ∧
        (∀ (pos : ConstIterator) k, is_position w this pos (S k) →
           ∃ a, node_ pos = Some a ∧ nodes w' !! a = None) ∧
        (∃ gone,
           (∀ a, a ∈ gone →
              ∃ (pos : ConstIterator) k,
                is_position w this pos (S k) ∧ node_ pos = Some a) ∧
           iterators_keep w w' gone) ∧
        (∀ t, is_list w t → t ≠ this → same_contents w w' t) ∧
        Clear this w' = Ok () w'.
Proof.
  intros [reps Hinv] His.
  destruct (inv_lookup _ _ _ _ Hinv His) as [cells Hthis].
  pose proof (inv_chained _ _ _ Hinv _ _ Hthis) as Hch.
  destruct (Clear_loop_deletes _ _ _ _ _ (size (nodes w)) Hinv Hthis)
    as (w' & Hrun & Hinv' & Hdel & _ & Hframe); [by eapply chained_length_size|].
  exists w'. split; [done|]. split; [by eexists|].
  assert (<[this:=[]]> reps !! this = Some []) as Hthis' by (by rewrite lookup_insert_eq).
  destruct (observe_inv _ _ this _ Hinv' Hthis') as (Hlist' & Hsize' & _).
  destruct (inv_front _ _ _ _ _ Hinv' Hthis') as (hv & Hn & _).
  split; [done|]. split; [done|]. split.
  { unfold IsEmpty, mbind, M_bind. unfold GetSize in Hsize'. by rewrite Hsize'. }
  split.
  { by rewrite (cbegin_chained _ _ _ (inv_chained _ _ _ Hinv' _ _ Hthis')). }
  split.
  { intros pos k Hpos. destruct (position_node _ _ _ _ _ Hch Hpos) as (a & Ha & Hin).
    exists a. split; [done|]. by apply Hdel. }
  split.
  { exists (addrs cells). split; [|by apply keep_from_frame].
    intros a Ha. by eapply node_position. }
  split; [by eapply others_same_contents|].
  unfold Clear, with_fuel. by eapply Clear_loop_done.
Qed.

(** X6.  On a well-formed store the destructor returns with the list
    object and every node of its chain gone from the store; the other
    lists are still there and read as before. *)
Theorem dtor_releases_everything w this :
  wf w → is_list w this →
  ∃ w', dtor this w = Ok () w' ∧ wf w' ∧
        ¬ is_list w' this ∧ nodes w' !! this = None ∧
        (∀ (pos : ConstIterator) k, is_position w this pos (S k) →
           ∃ a, node_ pos = Some a ∧ nodes w' !! a = None) ∧
        (∀ t, is_list w t → t ≠ this → is_list w' t ∧ same_contents w w' t).
Proof.
  intros [reps Hinv] His.
  destruct (inv_lookup _ _ _ _ Hinv His) as [cells Hthis].
  pose proof (inv_chained _ _ _ Hinv _ _ Hthis) as Hch.
  destruct (Clear_loop_deletes _ _ _ _ _ (size (nodes w)) Hinv Hthis)
    as (w1 & Hrun & Hinv1 & Hdel & _ & _); [by eapply chained_length_size|].
  assert (<[this:=[]]> reps !! this = Some []) as Hthis1 by (by rewrite lookup_insert_eq).
  pose proof (destroy_inv ∅ ∅ _ _ this [] Hinv1 Hthis1 ltac:(done)) as Hinv2.
  rewrite delete_insert_eq in Hinv2.
  eexists. split.
  { unfold dtor, mbind, M_bind, Clear, with_fuel. rewrite Hrun. reflexivity. }
  split; [by eexists|]. split.
  { unfold is_list. simpl. rewrite lookup_delete_eq. by intros [? ?]. }
  split; [simpl; by rewrite lookup_delete_eq|]. split.
  - intros pos k Hpos. destruct (position_node _ _ _ _ _ Hch Hpos) as (a & Ha & Hin).
    exists a. split; [done|]. simpl.
    destruct (decide (a = this)) as [->|?]; [by rewrite lookup_delete_eq|].
    rewrite lookup_delete_ne by done. by apply Hdel.
  - intros t Ht Hne. destruct (inv_lookup _ _ _ _ Hinv Ht) as [c Hc]. split.
    + eapply inv_is_list; [exact Hinv2|]. by rewrite lookup_delete_ne.
    + eapply same_contents_inv; [done|exact Hinv2|done|]. by rewrite lookup_delete_ne.
Qed.

(** X7.  On a well-formed store the default constructor, given unused
    storage, makes an empty list with count 0 and leaves the other lists
    as they were. *)
Theorem ctor_default_makes_empty_list w this :
  wf w → unused w this →
  ∃ w', ctor_default this w = Ok () w' ∧ wf w' ∧ is_list w' this ∧
        to_list this w' = Ok [] w' ∧
        GetSize this w' = Ok 0 w' ∧
        cbegin this w' = cend this w' ∧
        ∀ t, is_list w t → same_contents w w' t.
Proof.
  intros [reps Hinv] Hun.
  pose proof (construct_inv ∅ ∅ _ _ this 0 Hinv Hun ltac:(done) ltac:(done)) as Hinv'.
  eexists. split; [reflexivity|]. split; [by eexists|].
  assert (<[this:=[]]> reps !! this = Some []) as Hthis' by (by rewrite lookup_insert_eq).
  destruct (observe_inv _ _ this _ Hinv' Hthis') as (Hlist' & Hsize' & _).
  split; [by eapply inv_is_list|]. split; [done|]. split; [done|]. split.
  { by rewrite (cbegin_chained _ _ _ (inv_chained _ _ _ Hinv' _ _ Hthis')). }
  intros t Ht. eapply others_same_contents; [done|exact Hinv'|done|].
  intros ->. destruct Hun as (_ & Hs & _). destruct Ht as [? Ht]. congruence.
Qed.

(** ** IsEmpty and iteration *)

(** X8.  On a well-formed store [IsEmpty()], which tests the count,
    agrees with [begin() == end()], which tests the chain, and both say
    whether the list has no element. *)
Theorem IsEmpty_agrees_with_begin_end w this vs :
  wf w → is_list w this → to_list this w = Ok vs w →
  ∃ (first last : ConstIterator) b,
    cbegin this w = Ok first w ∧ cend this w = Ok last w ∧
    IsEmpty this w = Ok b w ∧
    iter_eq first last = b ∧
    (b = true ↔ vs = []).
Proof.
  intros [reps Hinv] His Hvs.
  destruct (inv_lookup _ _ _ _ Hinv His) as [cells Hthis].
  destruct (observe_inv _ _ _ _ Hinv Hthis) as (Hlist & Hsize & _).
  rewrite Hlist in Hvs. apply Ok_inj in Hvs. subst vs.
  pose proof (inv_chained _ _ _ Hinv _ _ Hthis) as Hch.
  exists (mkIter (fst <$> head cells)), (mkIter None),
         (bool_decide (Z.of_nat (length cells) = 0)).
  split; [by apply cbegin_chained|]. split; [done|]. split.
  { unfold IsEmpty, mbind, M_bind. unfold GetSize in Hsize. by rewrite Hsize. }
  destruct cells as [|[a v] rest]; simpl; split; done.
Qed.

Lemma advance_lseg_end {vt : mutability} w p cells :
  lseg (nodes w) p cells None →
  advance (vt := vt) (length cells) (mkIter p) w = Ok (mkIter None) w.
Proof.
  revert p. induction cells as [|[a v] rest IH]; intros p; simpl.
  - by intros ->.
  - intros [-> (nx & Ha & H)].
    unfold mbind at 1, M_bind at 1. rewrite (pre_incr_Some _ _ _ Ha). simpl.
    by apply IH.
Qed.

Lemma advance_lseg_past {vt : mutability} w p cells :
  lseg (nodes w) p cells None →
  advance (vt := vt) (S (length cells)) (mkIter p) w = AssertFail.
Proof.
  revert p. induction cells as [|[a v] rest IH]; intros p.
  - simpl. by intros ->.
  - intros [-> (nx & Ha & H)].
    change (advance (S (length ((a, v) :: rest))) (mkIter (vt := vt) (Some a)) w)
      with ((it' ← pre_incr (mkIter (vt := vt) (Some a));
             advance (S (length rest)) it') w).
    unfold mbind at 1, M_bind at 1. rewrite (pre_incr_Some _ _ _ Ha).
    by apply IH.
Qed.

(** X9.  On a well-formed store, [before_begin()] incremented once is
    [begin()]; [k] increments from [begin()] reach an iterator that
    dereferences to element [k]; as many increments as there are elements
    reach [end()]; and one more increment fails its [assert]. *)
Theorem iteration_visits_the_elements w this vs :
  wf w → is_list w this → to_list this w = Ok vs w →
  pre_incr (cbefore_begin this) w = cbegin this w ∧
  (∀ k x, vs !! k = Some x →
     ∃ it : ConstIterator,
       (first ← cbegin this; advance k first) w = Ok it w ∧
       deref it w = Ok x w) ∧
  (first ← cbegin this; advance (length vs) first) w = cend this w ∧
  (first ← cbegin this; advance (S (length vs)) first) w = AssertFail.
Proof.
  intros [reps Hinv] His Hvs.
  destruct (inv_lookup _ _ _ _ Hinv His) as [cells Hthis].
  destruct (observe_inv _ _ _ _ Hinv Hthis) as (Hlist & _ & _).
  rewrite Hlist in Hvs. apply Ok_inj in Hvs. subst vs.
  pose proof (inv_chained _ _ _ Hinv _ _ Hthis) as Hch.
  destruct (inv_front _ _ _ _ _ Hinv Hthis) as (hv & Hn & _).
  pose proof (chained_suffix w this [] cells Hch) as Hseg.
  pose proof (cbegin_chained _ _ _ Hch) as Hbegin.
  split.
  { rewrite Hbegin. unfold cbefore_begin, before_begin.
    by rewrite (pre_incr_Some _ _ _ Hn). }
  unfold mbind, M_bind. rewrite Hbegin. split; [|split].
  - intros k x Hk. unfold values in Hk.
    apply list_lookup_fmap_Some in Hk as ([a x'] & Hx & Hk). simpl in Hx. subst x'.
    pose proof (take_drop_middle _ _ _ Hk) as Hsplit.
    remember (fst <$> head cells) as p eqn:Hp. clear Hp Hbegin.
    rewrite <- Hsplit in Hseg.
    assert (length (take k cells) = k) as Hlen.
    { apply length_take_le. apply lookup_lt_Some in Hk. lia. }
    exists (mkIter (Some a)). split.
    + rewrite <- Hlen at 1. by eapply advance_lseg.
    + apply lseg_app in Hseg as (r & _ & [_ (nx & Ha & _)]).
      by rewrite (deref_Some _ _ _ Ha).
  - rewrite values_length. by apply advance_lseg_end.
  - rewrite values_length. by apply advance_lseg_past.
Qed.

(** ** swap *)

(** X10.  On a well-formed store [swap(other)] returns with the two
    lists' element sequences and counts exchanged, each sequence still on
    the nodes it had (what was [other.begin()] is now [begin()]), no
    iterator invalidated and every third list as before. *)
Theorem swap_exchanges_lists w this other xs ys m n :
  wf w → is_list w this → is_list w other →
  to_list this w = Ok xs w → to_list other w = Ok ys w →
  GetSize this w = Ok m w → GetSize other w = Ok n w →
  ∃ w', swap this other w = Ok () w' ∧ wf w' ∧
        to_list this w' = Ok ys w' ∧ to_list other w' = Ok xs w' ∧
        GetSize this w' = Ok n w' ∧ GetSize other w' = Ok m w' ∧
        (∀ it : ConstIterator, cbegin other w = Ok it w → cbegin this w' = Ok it w') ∧
        (∀ it : ConstIterator, cbegin this w = Ok it w → cbegin other w' = Ok it w') ∧
        iterators_keep w w' [] ∧
        ∀ t, is_list w t → t ≠ this → t ≠ other → same_contents w w' t.
Proof.
  intros [reps Hinv] Hl Hr Hxs Hys Hm Hn.
  destruct (inv_lookup _ _ _ _ Hinv Hl) as [ct Hct].
  destruct (inv_lookup _ _ _ _ Hinv Hr) as [co Hco].
  destruct (observe_inv _ _ _ _ Hinv Hct) as (Hl1 & Hs1 & _).
  destruct (observe_inv _ _ _ _ Hinv Hco) as (Hl2 & Hs2 & _).
  rewrite Hl1 in Hxs. apply Ok_inj in Hxs. subst xs.
  rewrite Hl2 in Hys. apply Ok_inj in Hys. subst ys.
  rewrite Hs1 in Hm. apply Ok_inj in Hm. subst m.
  rewrite Hs2 in Hn. apply Ok_inj in Hn. subst n.
  destruct (swap_inv ∅ ∅ _ _ _ _ _ _ Hinv Hct Hco) as (w' & Hrun & Hinv').
  { intros t _ _. apply not_elem_of_empty. }
  exists w'. split; [done|]. split; [by eexists|].
  assert (<[this:=co]> (<[other:=ct]> reps) !! this = Some co) as Hct'
    by (by rewrite lookup_insert_eq).
  assert (<[this:=co]> (<[other:=ct]> reps) !! other = Some ct) as Hco'.
  { destruct (decide (other = this)) as [->|?].
    - rewrite lookup_insert_eq. congruence.
    - by rewrite lookup_insert_ne, lookup_insert_eq. }
  destruct (observe_inv _ _ _ _ Hinv' Hct') as (Hl1' & Hs1' & _).
  destruct (observe_inv _ _ _ _ Hinv' Hco') as (Hl2' & Hs2' & _).
  do 4 (split; [done|]). split; [|split; [|split]].
  - intros it. rewrite (cbegin_chained _ _ _ (inv_chained _ _ _ Hinv _ _ Hco)).
    intros [= <-]. by rewrite (cbegin_chained _ _ _ (inv_chained _ _ _ Hinv' _ _ Hct')).
  - intros it. rewrite (cbegin_chained _ _ _ (inv_chained _ _ _ Hinv _ _ Hct)).
    intros [= <-]. by rewrite (cbegin_chained _ _ _ (inv_chained _ _ _ Hinv' _ _ Hco')).
  - destruct (inv_front _ _ _ _ _ Hinv Hct) as (hvt & Hnt & _).
    destruct (inv_front _ _ _ _ _ Hinv Hco) as (hvo & Hno & _).
    destruct (inv_size _ _ _ _ _ Hinv Hct) as [s Hs].
    destruct (inv_size _ _ _ _ _ Hinv Hco) as [t Ht].
    rewrite (swap_run _ _ _ _ _ _ _ _ _ Hnt Hno Hs Ht) in Hrun.
    injection Hrun as <-. apply keep_from_frame. simpl. intros a na _ Ha.
    destruct (decide (a = other)) as [->|?].
    { rewrite lookup_insert_eq. eexists. split; [done|].
      rewrite Hno in Ha. by injection Ha as <-. }
    rewrite lookup_insert_ne by done.
    destruct (decide (a = this)) as [->|?].
    { rewrite lookup_insert_eq. eexists. split; [done|].
      rewrite Hnt in Ha. by injection Ha as <-. }
    rewrite lookup_insert_ne by done. by exists na.
  - intros t Ht Hne1 Hne2. destruct (inv_lookup _ _ _ _ Hinv Ht) as [c Hc].
    eapply same_contents_inv; [done|done|done|]. by rewrite !lookup_insert_ne.
Qed.

(** X11.  On a well-formed store [swap(a, b)] done twice, by the free
    function that calls the member, ends in the store it started from. *)
Theorem swap_twice_restores w this other :
  wf w → is_list w this → is_list w other →
  ∃ w1, swap_lists this other w = Ok () w1 ∧ swap_lists this other w1 = Ok () w.
Proof.
  intros [reps Hinv] Hl Hr. unfold swap_lists.
  destruct (inv_lookup _ _ _ _ Hinv Hl) as [ct Hct].
  destruct (inv_lookup _ _ _ _ Hinv Hr) as [co Hco].
  destruct (inv_front _ _ _ _ _ Hinv Hct) as (hvt & Hnt & _).
  destruct (inv_front _ _ _ _ _ Hinv Hco) as (hvo & Hno & _).
  destruct (inv_size _ _ _ _ _ Hinv Hct) as [s Hs].
  destruct (inv_size _ _ _ _ _ Hinv Hco) as [t Ht].
  eexists. split; [by eapply swap_run|].
  destruct w as [m sz]. simpl in *.
  destruct (decide (this = other)) as [->|Hne].
  - rewrite Hnt in Hno. injection Hno as -> Heq. rewrite Hs in Ht. injection Ht as ->.
    rewrite (swap_run _ other other hvo (fst <$> head ct) hvo (fst <$> head ct) t t);
      simpl; rewrite ?lookup_insert_eq; try done.
    f_equal. f_equal.
    + rewrite !insert_insert_eq. apply insert_id. by rewrite Hnt, Heq.
    + rewrite !insert_insert_eq. by apply insert_id.
  - rewrite (swap_run _ this other hvt (fst <$> head co) hvo (fst <$> head ct) t s);
      simpl.
    + f_equal. f_equal.
      * apply map_eq. intros i. destruct (decide (i = other)) as [->|?].
        { by rewrite lookup_insert_eq. }
        rewrite lookup_insert_ne by done.
        destruct (decide (i = this)) as [->|?]; [by rewrite lookup_insert_eq|].
        by rewrite !lookup_insert_ne.
      * apply map_eq. intros i. destruct (decide (i = other)) as [->|?].
        { by rewrite lookup_insert_eq. }
        rewrite lookup_insert_ne by done.
        destruct (decide (i = this)) as [->|?]; [by rewrite lookup_insert_eq|].
        by rewrite !lookup_insert_ne.
    + by rewrite lookup_insert_ne, lookup_insert_eq.
    + by rewrite lookup_insert_eq.
    + by rewrite lookup_insert_ne, lookup_insert_eq.
    + by rewrite lookup_insert_eq.
Qed.

(** ** What the constructors and the assignment build *)


Lemma copy_loop_values raw reps w temp other cells (current : Iterator) oc pre suf fuel :
  inv raw reps w → reps !! temp = Some cells → reps !! other = Some oc →
  other ≠ temp → oc = pre ++ suf →
  is_position w temp (from_iterator current) (length cells) →
  (length suf ≤ fuel)%nat →
  match copy_loop fuel temp current (mkIter (fst <$> head suf)) (mkIter None) w with
  | Ok _ w' => ∃ cells', inv raw (<[temp := cells']> reps) w' ∧
                         values cells' = values cells ++ values suf
  | BadAlloc w' => ∃ cells', inv raw (<[temp := cells']> reps) w'
  | _ => False
  end.
Proof using new_fresh.
  revert reps w cells current pre fuel.
  induction suf as [|[a v] rest IH];
    intros reps w cells current pre fuel Hinv Htemp Hother Hne Hoc Hpos Hfuel.
  - simpl. destruct fuel; simpl; exists cells;
      (split; [by rewrite insert_id|by rewrite app_nil_r]).
  - destruct fuel as [|fuel]; [simpl in Hfuel; lia|]. simpl in Hfuel.
    pose proof (inv_chained _ _ _ Hinv _ _ Hother) as Hch. rewrite Hoc in Hch.
    pose proof (chained_suffix _ _ _ _ Hch) as [_ (nx & Ha & _)].
    simpl in Ha. change (fst <$> head ((a, v) :: rest)) with (Some a).
    rewrite (copy_loop_step _ _ _ _ _ _ Ha). cbn [value].
    pose proof (append_inv _ _ _ _ _ _ v Hinv Htemp Hpos) as Happ.
    unfold mbind at 1, M_bind at 1.
    destruct (new_ (nodes w)) as [b|].
    + destruct Happ as (w' & -> & Hinv' & Hpos').
      assert (<[temp := cells ++ [(b, v)]]> reps !! other = Some oc) as Hother'
        by (by rewrite lookup_insert_ne).
      pose proof (inv_chained _ _ _ Hinv' _ _ Hother') as Hch'. rewrite Hoc in Hch'.
      pose proof (chained_suffix _ _ _ _ Hch') as [_ (nx' & Ha' & Hrest)].
      simpl in Ha'.
      unfold mbind at 1, M_bind at 1. rewrite (pre_incr_Some _ _ _ Ha'). simpl.
      assert (nx' = fst <$> head rest) as ->.
      { destruct rest as [|[c u] rest]; simpl in *; [done|]. by destruct Hrest as [-> _]. }
      specialize (IH _ _ _ (mkIter (Some b)) (pre ++ [(a, v)]) fuel Hinv'
                    ltac:(by rewrite lookup_insert_eq) Hother' Hne
                    ltac:(by rewrite <- app_assoc) Hpos' ltac:(lia)).
      destruct (copy_loop fuel temp _ _ _ w') as [? w''|w''| | |]; try done.
      * destruct IH as (cells' & IH & Hv). exists cells'.
        split; [by rewrite insert_insert_eq in IH|].
        rewrite Hv. unfold values. rewrite fmap_app. simpl. by rewrite <- app_assoc.
      * destruct IH as [cells' IH]. exists cells'. by rewrite insert_insert_eq in IH.
    + rewrite Happ. exists cells. by rewrite insert_id.
Qed.

Lemma swap_in_values reps this temp (body : M Iterator) w2
    (P : list (positive * Type_) → Prop) :
  reps !! this = None → reps !! temp = None → this ≠ temp →
  match body w2 with
  | Ok _ w3 => ∃ cells', inv {[this]} (<[temp := cells']>
                           (<[temp := []]> (<[this := []]> reps))) w3 ∧ P cells'
  | BadAlloc w3 => ∃ cells', inv {[this]} (<[temp := cells']>
                               (<[temp := []]> (<[this := []]> reps))) w3
  | _ => False
  end →
  match on_throw (finally (body;; swap this temp) (dtor temp))
                 (destroy_members this) w2 with
  | Ok _ w' => ∃ cells, inv ∅ (<[this := cells]> reps) w' ∧ P cells
  | BadAlloc w' => inv ∅ reps w'
  | _ => False
  end.
Proof.
  intros Hthis Htemp Hne Hlands.
  unfold on_throw, finally. unfold mbind, M_bind.
  destruct (body w2) as [cur w3|w3| | |]; try done.
  - destruct Hlands as (cells' & Hinv3 & HP).
    destruct (swap_inv {[this]} {[temp]} _ _ this temp [] cells' Hinv3)
      as (w4 & Hsw & Hinv4).
    { rewrite lookup_insert_ne by done. rewrite lookup_insert_ne by done.
      by rewrite lookup_insert_eq. }
    { by rewrite lookup_insert_eq. }
    { intros t _ Ht Hs%elem_of_singleton. apply Ht, elem_of_singleton.
      unfold swapped in Hs. repeat case_decide; congruence. }
    rewrite Hsw.
    destruct (dtor_inv {[temp]} ∅ _ _ temp [] Hinv4) as (w5 & Hd & Hinv5).
    { rewrite lookup_insert_ne by done. by rewrite lookup_insert_eq. }
    { by intros t Hn _ Ht%elem_of_singleton. }
    rewrite Hd. simpl. exists cells'. split; [|done].
    replace (<[this:=cells']> reps) with
      (delete temp (<[this:=cells']> (<[temp:=[]]>
         (<[temp:=cells']> (<[temp:=[]]> (<[this:=[]]> reps)))))); [done|].
    apply map_eq. intros i. destruct (decide (i = temp)) as [->|?].
    + rewrite lookup_delete_eq, lookup_insert_ne by done. by rewrite Htemp.
    + rewrite lookup_delete_ne by done.
      destruct (decide (i = this)) as [->|?]; [by rewrite !lookup_insert_eq|].
      by rewrite !lookup_insert_ne.
  - destruct Hlands as [cells' Hinv3].
    destruct (dtor_inv {[this]} {[this]} _ _ temp cells' Hinv3) as (w4 & Hd & Hinv4).
    { by rewrite lookup_insert_eq. }
    { done. }
    rewrite Hd. simpl.
    replace reps with
      (delete this (delete temp (<[temp:=cells']> (<[temp:=[]]> (<[this:=[]]> reps))))).
    + eapply (destroy_inv {[this]} ∅ _ w4 this []);
        [done| |by intros t Hn _ Ht%elem_of_singleton].
      rewrite lookup_delete_ne by done. rewrite !lookup_insert_ne by done.
      by rewrite lookup_insert_eq.
    + apply map_eq. intros i. destruct (decide (i = this)) as [->|?].
      * by rewrite lookup_delete_eq, Hthis.
      * rewrite lookup_delete_ne by done. destruct (decide (i = temp)) as [->|?].
        -- by rewrite lookup_delete_eq, Htemp.
        -- rewrite lookup_delete_ne by done. by rewrite !lookup_insert_ne.
Qed.


Lemma ctor_copy_values reps w this temp junk other oc :
  inv ∅ reps w → unused w this → unused w temp → this ≠ temp →
  reps !! other = Some oc →
  match ctor_copy this temp junk other w with
  | Ok _ w' => ∃ cells, inv ∅ (<[this := cells]> reps) w' ∧ values cells = values oc
  | BadAlloc w' => inv ∅ reps w'
  | _ => False
  end.
Proof using new_fresh.
  intros Hinv Hthis Htemp Hne Hother.
  pose proof (locals_inv _ _ _ _ junk Hinv Hthis Htemp Hne) as Hinv2.
  set (w2 := mkWorld _ _) in Hinv2.
  assert (other ≠ this) as Hne1.
  { intros ->. rewrite (inv_unused _ _ _ _ Hinv Hthis) in Hother. done. }
  assert (other ≠ temp) as Hne2.
  { intros ->. rewrite (inv_unused _ _ _ _ Hinv Htemp) in Hother. done. }
  assert (<[temp:=[]]> (<[this:=[]]> reps) !! other = Some oc) as Hother2.
  { by rewrite !lookup_insert_ne. }
  destruct (inv_front _ _ _ _ _ Hinv2 Hother2) as (hv & Hn & _).
  assert (ctor_copy this temp junk other w =
          on_throw (finally
            (with_fuel (λ fuel, copy_loop fuel temp (before_begin temp)
                                  (mkIter (fst <$> head oc)) (mkIter None));;
             swap this temp) (dtor temp)) (destroy_members this) w2) as ->.
  { unfold ctor_copy, on_throw, finally, construct_members, ctor_default, cbegin,
      cend, begin_, end_.
    unfold mbind at 1 2 3 4 5 6, M_bind at 1 2 3 4 5 6. simpl. fold w2.
    unfold mbind at 3 4, M_bind at 3 4.
    rewrite (get_head_next_Some _ _ _ Hn). reflexivity. }
  apply (swap_in_values reps this temp _ w2 (λ cells, values cells = values oc)
           (inv_unused _ _ _ _ Hinv Hthis) (inv_unused _ _ _ _ Hinv Htemp) Hne).
  unfold with_fuel.
  apply (copy_loop_values _ _ _ _ other [] (before_begin temp) oc [] oc _ Hinv2);
    try done.
  - by rewrite lookup_insert_eq.
  - eapply chained_length_size, inv_chained; done.
Qed.

Lemma assign_values reps w this temp temp' junk rhs ct cr :
  inv ∅ reps w → reps !! this = Some ct → reps !! rhs = Some cr →
  unused w temp → unused w temp' → temp ≠ temp' →
  match assign this temp temp' junk rhs w with
  | Ok _ w' => ∃ cells, inv ∅ (<[this := cells]> reps) w' ∧ values cells = values cr
  | BadAlloc w' => inv ∅ reps w'
  | _ => False
  end.
Proof using new_fresh.
  intros Hinv Hthis Hrhs Htemp Htemp' Hne.
  pose proof (ctor_copy_values _ _ _ _ junk _ _ Hinv Htemp Htemp' Hne Hrhs) as Hcopy.
  pose proof (inv_unused _ _ _ _ Hinv Htemp) as Hfree.
  assert (this ≠ temp) as Hne' by (intros ->; congruence).
  unfold assign, finally. unfold mbind at 1, M_bind at 1.
  destruct (ctor_copy temp temp' junk rhs w) as [? w1|w1| | |]; try done.
  destruct Hcopy as (cells & Hinv1 & Hv).
  destruct (swap_inv ∅ ∅ _ _ this temp ct cells Hinv1) as (w2 & -> & Hinv2).
  { by rewrite lookup_insert_ne. }
  { by rewrite lookup_insert_eq. }
  { intros t _ _. apply not_elem_of_empty. }
  destruct (dtor_inv ∅ ∅ _ _ temp ct Hinv2) as (w3 & Hd & Hinv3).
  { rewrite lookup_insert_ne by done. by rewrite lookup_insert_eq. }
  { done. }
  unfold mbind, M_bind. rewrite Hd. simpl. exists cells. split; [|done].
  replace (<[this:=cells]> reps) with
    (delete temp (<[this:=cells]> (<[temp:=ct]> (<[temp:=cells]> reps)))); [done|].
  apply map_eq. intros i. destruct (decide (i = temp)) as [->|?].
  - rewrite lookup_delete_eq, lookup_insert_ne by done. by rewrite Hfree.
  - rewrite lookup_delete_ne by done.
    destruct (decide (i = this)) as [->|?]; [by rewrite !lookup_insert_eq|].
    by rewrite !lookup_insert_ne.
Qed.

Lemma same_lists_inv reps w w' :
  inv ∅ reps w → inv ∅ reps w' →
  (∀ t, is_list w' t ↔ is_list w t) ∧ ∀ t, is_list w t → same_contents w w' t.
Proof.
  intros Hinv Hinv'. split.
  - intros t. unfold is_list. rewrite <- !elem_of_dom.
    by rewrite <- (inv_dom _ _ _ Hinv), <- (inv_dom _ _ _ Hinv').
  - intros t Ht. destruct (inv_lookup _ _ _ _ Hinv Ht) as [c Hc].
    by eapply same_contents_inv.
Qed.

Lemma new_list_inv reps w w' this cells :
  inv ∅ reps w → inv ∅ (<[this := cells]> reps) w' →
  wf w' ∧ is_list w' this ∧
  to_list this w' = Ok (values cells) w' ∧
  GetSize this w' = Ok (Z.of_nat (length cells)) w' ∧
  (∀ t, is_list w' t ↔ is_list w t ∨ t = this) ∧
  ∀ t, is_list w t → t ≠ this → same_contents w w' t.
Proof.
  intros Hinv Hinv'.
  assert (<[this:=cells]> reps !! this = Some cells) as Hthis
    by (by rewrite lookup_insert_eq).
  destruct (observe_inv _ _ _ _ Hinv' Hthis) as (Hl & Hs & _).
  split; [by eexists|]. split; [by eapply inv_is_list|].
  split; [done|]. split; [done|]. split.
  - intros t. unfold is_list. rewrite <- !elem_of_dom.
    rewrite <- (inv_dom _ _ _ Hinv), <- (inv_dom _ _ _ Hinv'), dom_insert_L.
    rewrite elem_of_union, elem_of_singleton. apply or_comm.
  - by eapply others_same_contents.
Qed.


(** X13.  On a well-formed store the copy constructor, given unused
    storage, either returns with a list that holds the elements of
    [other] in their order, with the same count, or throws
    [std::bad_alloc] with no object constructed.  Either way [other] and
    every other list read as before. *)
Theorem ctor_copy_copies w this temp junk other vs n :
  wf w → unused w this → unused w temp → this ≠ temp → is_list w other →
  to_list other w = Ok vs w → GetSize other w = Ok n w →
  match ctor_copy this temp junk other w with
  | Ok _ w' =>
      wf w' ∧ is_list w' this ∧
      to_list this w' = Ok vs w' ∧ GetSize this w' = Ok n w' ∧
      to_list other w' = Ok vs w' ∧ GetSize other w' = Ok n w' ∧
      (∀ t, is_list w' t ↔ is_list w t ∨ t = this) ∧
      ∀ t, is_list w t → same_contents w w' t
  | BadAlloc w' =>
      wf w' ∧ (∀ t, is_list w' t ↔ is_list w t) ∧
      ∀ t, is_list w t → same_contents w w' t
  | _ => False
  end.
Proof using new_fresh.
  intros [reps Hinv] Hthis Htemp Hne Hother Hvs Hn.
  destruct (inv_lookup _ _ _ _ Hinv Hother) as [oc Hoc].
  destruct (observe_inv _ _ _ _ Hinv Hoc) as (Hl0 & Hs0 & _).
  rewrite Hl0 in Hvs. apply Ok_inj in Hvs. subst vs.
  rewrite Hs0 in Hn. apply Ok_inj in Hn. subst n.
  assert (other ≠ this) as Hne1.
  { intros ->. rewrite (inv_unused _ _ _ _ Hinv Hthis) in Hoc. done. }
  pose proof (ctor_copy_values _ _ _ _ junk _ _ Hinv Hthis Htemp Hne Hoc) as H.
  destruct (ctor_copy this temp junk other w) as [? w'|w'| | |]; try done.
  - destruct H as (cells & Hinv' & Hv).
    destruct (new_list_inv _ _ _ _ _ Hinv Hinv') as (Hwf & His & Hl & Hs & Hdom & Hsame).
    destruct (observe_inv _ _ other oc Hinv' ltac:(by rewrite lookup_insert_ne))
      as (Hl1 & Hs1 & _).
    rewrite Hv in Hl. rewrite <- (values_length cells), Hv, values_length in Hs.
    do 7 (split; [done|]). intros t Ht. apply Hsame; [done|].
    intros ->. destruct Hthis as (_ & Hs' & _). destruct Ht as [? Ht]. congruence.
  - split; [by eexists|]. by apply (same_lists_inv reps).
Qed.

(** X14.  On a well-formed store the copy assignment [*this = rhs],
    given unused storage for its two local lists, either returns with
    [*this] holding the elements of [rhs] in their order, with the same
    count, or throws [std::bad_alloc] with every list, [*this] included,
    reading as before.  In both cases no list object is added or lost,
    and every list other than [*this] reads as before; [rhs] may be
    [*this] itself. *)
Theorem assign_copies w this temp temp' junk rhs vs n :
  wf w → is_list w this → is_list w rhs →
  unused w temp → unused w temp' → temp ≠ temp' →
  to_list rhs w = Ok vs w → GetSize rhs w = Ok n w →
  match assign this temp temp' junk rhs w with
  | Ok _ w' =>
      wf w' ∧
      to_list this w' = Ok vs w' ∧ GetSize this w' = Ok n w' ∧
      (∀ t, is_list w' t ↔ is_list w t) ∧
      ∀ t, is_list w t → t ≠ this → same_contents w w' t
  | BadAlloc w' =>
      wf w' ∧ (∀ t, is_list w' t ↔ is_list w t) ∧
      ∀ t, is_list w t → same_contents w w' t
  | _ => False
  end.
Proof using new_fresh.
  intros [reps Hinv] Hthis Hrhs Htemp Htemp' Hne Hvs Hn.
  destruct (inv_lookup _ _ _ _ Hinv Hthis) as [ct Hct].
  destruct (inv_lookup _ _ _ _ Hinv Hrhs) as [cr Hcr].
  destruct (observe_inv _ _ _ _ Hinv Hcr) as (Hl0 & Hs0 & _).
  rewrite Hl0 in Hvs. apply Ok_inj in Hvs. subst vs.
  rewrite Hs0 in Hn. apply Ok_inj in Hn. subst n.
  pose proof (assign_values _ _ _ _ _ junk _ _ _ Hinv Hct Hcr Htemp Htemp' Hne) as H.
  destruct (assign this temp temp' junk rhs w) as [? w'|w'| | |]; try done.
  - destruct H as (cells & Hinv' & Hv).
    destruct (new_list_inv _ _ _ _ _ Hinv Hinv') as (Hwf & His & Hl & Hs & Hdom & Hsame).
    rewrite Hv in Hl. rewrite <- (values_length cells), Hv, values_length in Hs.
    do 3 (split; [done|]). split; [|done].
    intros t. rewrite Hdom. split; [intros [?| ->]; done|by left].
  - split; [by eexists|]. by apply (same_lists_inv reps).
Qed.

(** ** A position of another list *)

(** X15.  [InsertAfter] does not check that [pos] is on the list it is
    called on.  On a well-formed store, [a.InsertAfter(pos, value)] with
    [pos] a position of a different list [b] returns normally: the new
    node is spliced into [b], whose count stays, while the count of [a]
    grows and its elements stay.  Afterwards neither count is the number
    of steps from [begin()] to [end()]. *)
Theorem InsertAfter_at_a_foreign_position w this other (pos : ConstIterator) k val
    xs ys m n a :
  wf w → is_list w this → is_list w other → this ≠ other →
  is_position w other pos k →
  to_list this w = Ok xs w → to_list other w = Ok ys w →
  GetSize this w = Ok m w → GetSize other w = Ok n w →
  new_ (nodes w) = Some a →
  ∃ w' (it : Iterator),
    InsertAfter this pos val w = Ok it w' ∧
    to_list this w' = Ok xs w' ∧
    GetSize this w' = Ok (m + 1) w' ∧
    count_steps this w' = Ok m w' ∧
    to_list other w' = Ok (take k ys ++ val :: drop k ys) w' ∧
    GetSize other w' = Ok n w' ∧
    count_steps other w' = Ok (n + 1) w'.
Proof using new_fresh.
  intros [reps Hinv] Hl Hr Hne Hpos Hxs Hys Hm Hn Hnew.
  destruct (inv_lookup _ _ _ _ Hinv Hl) as [ct Hct].
  destruct (inv_lookup _ _ _ _ Hinv Hr) as [co Hco].
  destruct (observe_inv _ _ _ _ Hinv Hct) as (Hl1 & Hs1 & _).
  destruct (observe_inv _ _ _ _ Hinv Hco) as (Hl2 & Hs2 & _).
  rewrite Hl1 in Hxs. apply Ok_inj in Hxs. subst xs.
  rewrite Hl2 in Hys. apply Ok_inj in Hys. subst ys.
  rewrite Hs1 in Hm. apply Ok_inj in Hm. subst m.
  rewrite Hs2 in Hn. apply Ok_inj in Hn. subst n.
  pose proof (inv_chained _ _ _ Hinv _ _ Hct) as Hcht.
  pose proof (inv_chained _ _ _ Hinv _ _ Hco) as Hcho.
  pose proof (inv_counted _ _ _ Hinv _ _ Hct (not_elem_of_empty this)) as Hst.
  pose proof (inv_counted _ _ _ Hinv _ _ Hco (not_elem_of_empty other)) as Hso.
  pose proof (chained_length_limit _ _ _ (inv_range _ _ _ Hinv) Hcht) as Hlim.
  unfold counted in Hst, Hso.
  destruct (position_cell _ _ _ _ _ Hcho Hpos)
    as (hv & f1 & pa & pv & nxp & Heq & Hlen & Hpa & Hpn & Hfull & Htail).
  destruct (new_fresh _ _ Hnew) as [Hfresh _].
  destruct (full_splice _ _ _ _ _ _ Heq Hlen) as [_ Hsplice].
  pose proof (insert_after_lseg _ _ _ _ _ _ _ a val Hfull Hpn Hfresh) as Hnewseg.
  rewrite Hsplice in Hnewseg.
  eexists _, _. split; [by eapply InsertAfter_run|].
  set (w' := mkWorld _ _).
  assert (chained w' other (take k co ++ (a, val) :: drop k co)) as Hcho'
    by (by exists hv).
  assert (pa = other ∨ pa ∈ addrs co) as Hpa_in.
  { assert (pa ∈ addrs ((other, hv) :: co)) as Hin.
    { rewrite Heq. unfold addrs. rewrite fmap_app. apply elem_of_app. right. simpl. left. }
    unfold addrs in Hin. simpl in Hin. by apply elem_of_cons in Hin. }
  assert (chained w' this ct) as Hcht'.
  { eapply chained_agree; [|done]. intros b Hb. subst w'. simpl.
    rewrite !lookup_insert_ne; [done| |].
    - intros <-. destruct (chained_live _ _ _ _ Hcht Hb) as [? Hlive]. congruence.
    - intros <-. destruct Hb as [->|Hb], Hpa_in as [->|Hin]; try done.
      + by eapply (inv_sentinel _ _ _ Hinv this other).
      + by eapply (inv_sentinel _ _ _ Hinv other this).
      + by eapply (inv_disjoint _ _ _ Hinv this other). }
  split; [by apply to_list_chained|]. split.
  { unfold GetSize, get_size. subst w'. simpl. rewrite lookup_insert_eq.
    rewrite size_t_wrap_small; [done|lia]. }
  split; [by apply count_steps_chained|]. split.
  { rewrite (to_list_chained _ _ _ Hcho'). unfold values.
    by rewrite fmap_app, fmap_cons, fmap_take, fmap_drop. }
  split.
  { unfold GetSize, get_size. subst w'. simpl.
    rewrite lookup_insert_ne by done. by rewrite Hso. }
  rewrite (count_steps_chained _ _ _ Hcho'). f_equal.
  rewrite length_app. simpl.
  pose proof (f_equal length (take_drop k co)) as Htd.
  rewrite length_app in Htd. lia.
Qed.

(** ** PushFront as a splice *)

(** X16.  On a well-formed store [PushFront(value)] and
    [InsertAfter(before_begin(), value)] with its result dropped are the
    same call: the same store when they return, the same throw when [new]
    fails. *)
Theorem PushFront_is_InsertAfter_before_begin w this val :
  wf w → is_list w this →
  PushFront this val w = (InsertAfter this (cbefore_begin this) val;; mret ()) w.
Proof using new_fresh.
  intros [reps Hinv] His.
  destruct (inv_lookup _ _ _ _ Hinv His) as [cells Hthis].
  destruct (inv_front _ _ _ _ _ Hinv Hthis) as (hv & Hn & _).
  apply PushFront_as_InsertAfter; [by eexists|done].
Qed.

(** ** The other comparison operators *)

Lemma derived_operators_inv reps w lhs rhs c1 c2 :
  inv ∅ reps w → reps !! lhs = Some c1 → reps !! rhs = Some c2 →
  let lt := lexicographic_less (values c1) (values c2) in
  let gt := lexicographic_less (values c2) (values c1) in
  let eq := bool_decide (length c1 = length c2) &&
            pairwise_equal (values c1) (values c2) in
  operator_lt lhs rhs w = Ok lt w ∧
  operator_gt lhs rhs w = Ok gt w ∧
  operator_eq lhs rhs w = Ok eq w ∧
  operator_ne lhs rhs w = Ok (negb eq) w ∧
  operator_le lhs rhs w = Ok (lt || eq) w ∧
  operator_ge lhs rhs w = Ok (negb lt) w.
Proof.
  intros Hinv H1 H2. simpl.
  pose proof (operator_lt_inv _ _ _ _ _ _ Hinv H1 H2) as Hlt.
  pose proof (operator_lt_inv _ _ _ _ _ _ Hinv H2 H1) as Hgt.
  pose proof (operator_eq_inv _ _ _ _ _ _ Hinv H1 H2) as Heq.
  split; [done|]. split; [done|]. split; [done|].
  unfold operator_ne, operator_le, operator_ge, mbind, M_bind.
  rewrite Heq, Hlt. split; [done|]. split; [|done].
  destruct (lexicographic_less (values c1) (values c2)); [done|]. by rewrite Heq.
Qed.

(** X17.  When for any two elements exactly one of [x < y], [y < x] and
    [x == y] holds, the six operators agree on a well-formed store:
    [A <= B] is the negation of [A > B], [A >= B] the negation of
    [A < B], [A != B] the negation of [A == B], and [A == B] holds
    exactly when both [A <= B] and [A >= B] do. *)
Theorem comparison_operators_agree w lhs rhs :
  (∀ x y, exactly_one (Type_lt x y) (Type_lt y x) (Type_eq x y)) →
  wf w → is_list w lhs → is_list w rhs →
  ∃ lt gt le ge eq ne,
    operator_lt lhs rhs w = Ok lt w ∧ operator_gt lhs rhs w = Ok gt w ∧
    operator_le lhs rhs w = Ok le w ∧ operator_ge lhs rhs w = Ok ge w ∧
    operator_eq lhs rhs w = Ok eq w ∧ operator_ne lhs rhs w = Ok ne w ∧
    le = negb gt ∧ ge = negb lt ∧ ne = negb eq ∧ eq = le && ge.
Proof.
  intros Htri [reps Hinv] Hl Hr.
  destruct (inv_lookup _ _ _ _ Hinv Hl) as [c1 H1].
  destruct (inv_lookup _ _ _ _ Hinv Hr) as [c2 H2].
  destruct (derived_operators_inv _ _ _ _ _ _ Hinv H1 H2)
    as (Hlt & Hgt & Heq & Hne & Hle & Hge).
  eexists _, _, _, _, _, _. do 6 (split; [done|]).
  pose proof (lists_trichotomy (values c1) (values c2) Htri) as Hex.
  rewrite !values_length in Hex.
  destruct Hex as [(-> & -> & ->)|[(-> & -> & ->)|(-> & -> & ->)]]; done.
Qed.

Lemma pairwise_equal_refl xs :
  (∀ x, Type_eq x x = true) → pairwise_equal xs xs = true.
Proof. intros Hrefl. induction xs as [|x xs IH]; simpl; [done|]. by rewrite Hrefl. Qed.

Lemma lexicographic_less_irrefl xs :
  (∀ x, Type_lt x x = false) → lexicographic_less xs xs = false.
Proof. intros Hirr. induction xs as [|x xs IH]; simpl; [done|]. by rewrite Hirr. Qed.

(** X18.  When the element type's [==] is reflexive and its [<]
    irreflexive, two lists with the same element sequence (a list and
    itself, a list and its copy) compare equal and neither is less than
    the other, on a well-formed store. *)
Theorem equal_sequences_compare_equal w lhs rhs vs :
  (∀ x, Type_eq x x = true) → (∀ x, Type_lt x x = false) →
  wf w → is_list w lhs → is_list w rhs →
  to_list lhs w = Ok vs w → to_list rhs w = Ok vs w →
  operator_eq lhs rhs w = Ok true w ∧ operator_ne lhs rhs w = Ok false w ∧
  operator_lt lhs rhs w = Ok false w ∧ operator_gt lhs rhs w = Ok false w ∧
  operator_le lhs rhs w = Ok true w ∧ operator_ge lhs rhs w = Ok true w.
Proof.
  intros Hrefl Hirr [reps Hinv] Hl Hr Hxs Hys.
  destruct (inv_lookup _ _ _ _ Hinv Hl) as [c1 H1].
  destruct (inv_lookup _ _ _ _ Hinv Hr) as [c2 H2].
  destruct (observe_inv _ _ _ _ Hinv H1) as (Hl1 & _ & _).
  destruct (observe_inv _ _ _ _ Hinv H2) as (Hl2 & _ & _).
  rewrite Hl1 in Hxs. apply Ok_inj in Hxs.
  rewrite Hl2 in Hys. apply Ok_inj in Hys.
  destruct (derived_operators_inv _ _ _ _ _ _ Hinv H1 H2)
    as (Hlt & Hgt & Heq & Hne & Hle & Hge).
  assert (length c1 = length c2) as Hlen.
  { by rewrite <- (values_length c1), <- (values_length c2), Hxs, Hys. }
  rewrite Hxs, Hys in *. rewrite (lexicographic_less_irrefl vs Hirr) in *.
  rewrite (pairwise_equal_refl vs Hrefl), bool_decide_eq_true_2 in * by done.
  done.
Qed.

Lemma lexicographic_less_trans xs ys zs :
  (∀ x y, Type_lt x y = true → Type_lt y x = false) →
  (∀ x y z, Type_lt x y = true → Type_lt x z = true ∨ Type_lt z y = true) →
  lexicographic_less xs ys = true → lexicographic_less ys zs = true →
  lexicographic_less xs zs = true.
Proof.
  intros Hasym Hco. revert ys zs.
  induction xs as [|x xs IH]; intros [|y ys] [|z zs]; simpl; try done.
  destruct (Type_lt x y) eqn:Hxy.
  - intros _. destruct (Type_lt y z) eqn:Hyz.
    + intros _. destruct (Hco x y z Hxy) as [-> | Hzy]; [done|].
      rewrite (Hasym _ _ Hyz) in Hzy. done.
    + destruct (Type_lt z y) eqn:Hzy; [done|]. intros _.
      destruct (Hco x y z Hxy) as [-> | Hzy']; [done|congruence].
  - destruct (Type_lt y x) eqn:Hyx; [done|]. intros Hxs.
    destruct (Type_lt y z) eqn:Hyz.
    + intros _. destruct (Hco y z x Hyz) as [Hyx' | ->]; [congruence|done].
    + destruct (Type_lt z y) eqn:Hzy; [done|]. intros Hys.
      destruct (Type_lt x z) eqn:Hxz; [done|].
      destruct (Type_lt z x) eqn:Hzx.
      * destruct (Hco z x y Hzx) as [?|?]; congruence.
      * by eapply IH.
Qed.

(** X19.  When the element type's [<] is a strict weak order (asymmetric,
    and [x < y] implies [x < z] or [z < y]), [operator<] on lists is
    transitive on a well-formed store. *)
Theorem operator_lt_transitive w a b c :
  (∀ x y, Type_lt x y = true → Type_lt y x = false) →
  (∀ x y z, Type_lt x y = true → Type_lt x z = true ∨ Type_lt z y = true) →
  wf w → is_list w a → is_list w b → is_list w c →
  operator_lt a b w = Ok true w → operator_lt b c w = Ok true w →
  operator_lt a c w = Ok true w.
Proof.
  intros Hasym Hco [reps Hinv] Ha Hb Hc.
  destruct (inv_lookup _ _ _ _ Hinv Ha) as [ca Hca].
  destruct (inv_lookup _ _ _ _ Hinv Hb) as [cb Hcb].
  destruct (inv_lookup _ _ _ _ Hinv Hc) as [cc Hcc].
  rewrite (operator_lt_inv _ _ _ _ _ _ Hinv Hca Hcb).
  rewrite (operator_lt_inv _ _ _ _ _ _ Hinv Hcb Hcc).
  rewrite (operator_lt_inv _ _ _ _ _ _ Hinv Hca Hcc).
  intros [= Hab] [= Hbc]. f_equal. by eapply lexicographic_less_trans.
Qed.

(** ** Calls within their preconditions *)

(** X20.  From a store a program can reach, a public call made within
    its precondition never fails an [assert] and never reads or writes
    through a null or dangling pointer, and its loops end: the call
    returns, or throws [std::bad_alloc], in a store a program can
    reach. *)
Theorem calls_within_preconditions_are_safe w c :
  reachable w → precondition w c →
  ∃ w', reachable w' ∧ (exec c w = Ok () w' ∨ exec c w = BadAlloc w').
Proof using new_fresh.
  intros Hreach Hpre.
  destruct (exec_defined _ _ (reachable_wf _ Hreach) Hpre) as (w' & _ & [Hrun|Hrun]);
    exists w'; (split; [|by auto]).
  - by eapply reachable_return.
  - by eapply reachable_throw.
Qed.

End SingleLinkedList.

(** * The model at work *)

Lemma first_fit_fresh {Type_ : Type} (m : gmap positive (Node Type_)) a :
  first_fit m = Some a → m !! a = None ∧ Z.pos a < addr_limit.
Proof.
  unfold first_fit. case_decide as Hlt; [|done]. intros [= <-].
  split; [|done]. apply not_elem_of_dom, is_fresh.
Qed.

Lemma two_lists_reachable : reachable first_fit 0 two_lists.
Proof.
  eapply (reachable_return _ _ _ (CallCtorInit 2 9 0 [10; 20])).
  - eapply (reachable_return _ _ _ (CallCtorInit 1 9 0 [10; 20; 30])).
    + apply reachable_start.
    + by vm_compute.
    + vm_compute. reflexivity.
  - by vm_compute.
  - vm_compute. reflexivity.
Qed.

Lemma two_lists_wf : wf two_lists.
Proof. exact (reachable_wf _ _ first_fit_fresh _ two_lists_reachable). Qed.

Lemma GetSize_counts_chain_witness :
  reachable first_fit 0 two_lists ∧ is_list two_lists 1 ∧
  ∃ n, GetSize 1 two_lists = Ok n two_lists ∧
       count_steps 1 two_lists = Ok n two_lists.
Proof.
  split; [exact two_lists_reachable|]. split; [by exists 3|].
  apply (GetSize_counts_chain first_fit 0 first_fit_fresh two_lists 1).
  - exact two_lists_reachable.
  - by exists 3.
Defined.

Lemma InsertAfter_splices_witness :
  wf two_lists ∧ is_list two_lists 1 ∧
  is_position two_lists 1 (mkIter (Some 10%positive)) 1 ∧
  to_list 1 two_lists = Ok [10; 20; 30] two_lists ∧
  GetSize 1 two_lists = Ok 3 two_lists ∧
  ∃ w' (it : Iterator),
    InsertAfter first_fit 1 (mkIter (Some 10%positive)) 15 two_lists = Ok it w' ∧
    to_list 1 w' = Ok [10; 15; 20; 30] w' ∧
    GetSize 1 w' = Ok 4 w'.
Proof.
  assert (is_list two_lists 1) as His by (by exists 3).
  assert (is_position two_lists 1 (mkIter (Some 10%positive)) 1) as Hpos
    by (split; [vm_compute; reflexivity|done]).
  assert (to_list 1 two_lists = Ok [10; 20; 30] two_lists) as Hlist
    by (vm_compute; reflexivity).
  assert (GetSize 1 two_lists = Ok 3 two_lists) as Hsize
    by (vm_compute; reflexivity).
  do 5 (split; [done || exact two_lists_wf|]).
  pose proof (InsertAfter_splices first_fit first_fit_fresh two_lists 1
                (mkIter (Some 10%positive)) 1 15 [10; 20; 30] 3
                two_lists_wf His Hpos Hlist Hsize) as H.
  assert (first_fit (nodes two_lists) = Some 15%positive) as E
    by (vm_compute; reflexivity).
  rewrite E in H. destruct H as (w' & it & Hrun & _ & _ & Hl & Hs & _).
  exists w', it. split; [exact Hrun|]. split; [exact Hl|exact Hs].
Defined.

Lemma EraseAfter_undoes_InsertAfter_witness :
  wf two_lists ∧ is_list two_lists 1 ∧
  is_position two_lists 1 (mkIter (Some 10%positive)) 1 ∧
  first_fit (nodes two_lists) = Some 15%positive ∧
  ∃ w1 (it nxt : Iterator),
    InsertAfter first_fit 1 (mkIter (Some 10%positive)) 15 two_lists = Ok it w1 ∧
    EraseAfter 1 (mkIter (Some 10%positive)) w1 = Ok nxt two_lists ∧
    pre_incr (mkIter (vt := Const) (Some 10%positive)) two_lists =
      Ok (from_iterator nxt) two_lists.
Proof.
  assert (is_list two_lists 1) as His by (by exists 3).
  assert (is_position two_lists 1 (mkIter (Some 10%positive)) 1) as Hpos
    by (split; [vm_compute; reflexivity|done]).
  assert (first_fit (nodes two_lists) = Some 15%positive) as E
    by (vm_compute; reflexivity).
  do 4 (split; [done || exact two_lists_wf|]).
  exact (EraseAfter_undoes_InsertAfter first_fit first_fit_fresh two_lists 1
           (mkIter (Some 10%positive)) 1 15 15%positive two_lists_wf His Hpos E).
Defined.

Lemma PopFront_pops_or_does_nothing_witness :
  wf two_lists ∧ is_list two_lists 1 ∧
  to_list 1 two_lists = Ok [10; 20; 30] two_lists ∧
  GetSize 1 two_lists = Ok 3 two_lists ∧
  ∃ w' front,
    cbegin 1 two_lists = Ok (mkIter (Some front)) two_lists ∧
    PopFront 1 two_lists = Ok () w' ∧
    nodes w' !! front = None ∧
    wf w' ∧
    to_list 1 w' = Ok [20; 30] w' ∧
    GetSize 1 w' = Ok (3 - 1) w'.
Proof.
  assert (is_list two_lists 1) as His by (by exists 3).
  assert (to_list 1 two_lists = Ok [10; 20; 30] two_lists) as Hlist
    by (vm_compute; reflexivity).
  assert (GetSize 1 two_lists = Ok 3 two_lists) as Hsize
    by (vm_compute; reflexivity).
  do 4 (split; [done || exact two_lists_wf|]).
  exact (PopFront_pops_or_does_nothing two_lists 1 [10; 20; 30] 3
           two_lists_wf His Hlist Hsize).
Defined.

Lemma PopFront_is_EraseAfter_before_begin_witness :
  wf two_lists ∧ is_list two_lists 1 ∧
  to_list 1 two_lists = Ok [10; 20; 30] two_lists ∧
  PopFront 1 two_lists = (EraseAfter 1 (cbefore_begin 1);; mret ()) two_lists ∧
  ∃ w', PopFront 1 two_lists = Ok () w'.
Proof.
  assert (is_list two_lists 1) as His by (by exists 3).
  assert (to_list 1 two_lists = Ok [10; 20; 30] two_lists) as Hlist
    by (vm_compute; reflexivity).
  do 3 (split; [done || exact two_lists_wf|]).
  exact (PopFront_is_EraseAfter_before_begin two_lists 1 10 [20; 30]
           two_lists_wf His Hlist).
Defined.

Lemma operator_eq_iff_same_count_and_elements_witness :
  wf two_lists ∧ is_list two_lists 1 ∧ is_list two_lists 2 ∧
  to_list 1 two_lists = Ok [10; 20; 30] two_lists ∧
  to_list 2 two_lists = Ok [10; 20] two_lists ∧
  GetSize 1 two_lists = Ok 3 two_lists ∧
  GetSize 2 two_lists = Ok 2 two_lists ∧
  ∃ b, operator_eq Z.eqb 1 2 two_lists = Ok b two_lists ∧
       (b = true ↔ 3 = 2 ∧ Forall2 (λ x y, Z.eqb x y = true) [10; 20; 30] [10; 20]) ∧
       operator_ne Z.eqb 1 2 two_lists = Ok (negb b) two_lists.
Proof.
  assert (is_list two_lists 1) as His1 by (by exists 3).
  assert (is_list two_lists 2) as His2 by (by exists 2).
  assert (to_list 1 two_lists = Ok [10; 20; 30] two_lists) as Hl1
    by (vm_compute; reflexivity).
  assert (to_list 2 two_lists = Ok [10; 20] two_lists) as Hl2
    by (vm_compute; reflexivity).
  assert (GetSize 1 two_lists = Ok 3 two_lists) as Hs1
    by (vm_compute; reflexivity).
  assert (GetSize 2 two_lists = Ok 2 two_lists) as Hs2
    by (vm_compute; reflexivity).
  do 7 (split; [done || exact two_lists_wf|]).
  exact (operator_eq_iff_same_count_and_elements Z.eqb two_lists 1 2
           [10; 20; 30] [10; 20] 3 2 two_lists_wf His1 His2 Hl1 Hl2 Hs1 Hs2).
Defined.

Lemma Z_trichotomy (x y : Z) :
  exactly_one (Z.ltb x y) (Z.ltb y x) (Z.eqb x y).
Proof.
  unfold exactly_one.
  destruct (Z.ltb_spec x y), (Z.ltb_spec y x), (Z.eqb_spec x y); try lia; auto.
Qed.

Lemma list_comparison_trichotomy_witness :
  (∀ x y, exactly_one (Z.ltb x y) (Z.ltb y x) (Z.eqb x y)) ∧
  wf two_lists ∧ is_list two_lists 1 ∧ is_list two_lists 2 ∧
  ∃ lt gt eq,
    operator_lt Z.ltb 1 2 two_lists = Ok lt two_lists ∧
    operator_lt Z.ltb 2 1 two_lists = Ok gt two_lists ∧
    operator_eq Z.eqb 1 2 two_lists = Ok eq two_lists ∧
    exactly_one lt gt eq.
Proof.
  assert (is_list two_lists 1) as His1 by (by exists 3).
  assert (is_list two_lists 2) as His2 by (by exists 2).
  split; [exact Z_trichotomy|].
  do 3 (split; [done || exact two_lists_wf|]).
  exact (list_comparison_trichotomy Z.eqb Z.ltb two_lists 1 2
           Z_trichotomy two_lists_wf His1 His2).
Defined.

Lemma operator_lt_is_lexicographic_witness :
  wf two_lists ∧ is_list two_lists 2 ∧ is_list two_lists 1 ∧
  to_list 2 two_lists = Ok [10; 20] two_lists ∧
  to_list 1 two_lists = Ok [10; 20; 30] two_lists ∧
  operator_lt Z.ltb 2 1 two_lists =
    Ok (lexicographic_less Z.ltb [10; 20] [10; 20; 30]) two_lists ∧
  ([10; 20] = [] → [10; 20; 30] ≠ [] →
   operator_lt Z.ltb 2 1 two_lists = Ok true two_lists) ∧
  (∀ ext, ext ≠ [] → [10; 20; 30] = [10; 20] ++ ext →
          operator_lt Z.ltb 2 1 two_lists = Ok true two_lists).
Proof.
  assert (is_list two_lists 1) as His1 by (by exists 3).
  assert (is_list two_lists 2) as His2 by (by exists 2).
  assert (to_list 1 two_lists = Ok [10; 20; 30] two_lists) as Hl1
    by (vm_compute; reflexivity).
  assert (to_list 2 two_lists = Ok [10; 20] two_lists) as Hl2
    by (vm_compute; reflexivity).
  do 5 (split; [done || exact two_lists_wf|]).
  exact (operator_lt_is_lexicographic Z.ltb two_lists 2 1 [10; 20] [10; 20; 30]
           two_lists_wf His2 His1 Hl2 Hl1).
Defined.

(** ** The scenarios of the specification, run on the model *)

Example literal_construction_keeps_order :
  returned ((ctor_init first_fit 0 1 9 0 [1; 2; 3; 4];;
             l ← to_list 1; n ← GetSize 1; mret (l, n)) empty_world)
  = Some ([1; 2; 3; 4], 4).
Proof. vm_compute. reflexivity. Qed.

Example front_is_a_stack :
  returned ((ctor_default 0 1;;
             PushFront first_fit 1 3;; PushFront first_fit 1 2;;
             PushFront first_fit 1 1;;
             to_list 1) empty_world)
  = Some [1; 2; 3].
Proof. vm_compute. reflexivity. Qed.

Example insert_at_head_via_before_begin :
  returned ((ctor_init first_fit 0 1 9 0 [2; 3];;
             it ← InsertAfter first_fit 1 (cbefore_begin 1) 1;
             x ← deref it; l ← to_list 1; mret (x, l)) empty_world)
  = Some (1, [1; 2; 3]).
Proof. vm_compute. reflexivity. Qed.

Example erase_middle :
  returned ((ctor_init first_fit 0 1 9 0 [10; 20; 30; 40];;
             it ← advance 2 (cbefore_begin 1);
             x ← deref it;
             nxt ← EraseAfter 1 it;
             y ← deref nxt; l ← to_list 1; mret (x, y, l)) empty_world)
  = Some (20, 40, [10; 20; 40]).
Proof. vm_compute. reflexivity. Qed.

Example lexicographic_order :
  returned ((ctor_init first_fit 0 1 9 0 [1; 2; 3];;
             ctor_init first_fit 0 2 9 0 [1; 2; 4];;
             ctor_init first_fit 0 3 9 0 [1; 2];;
             ctor_init first_fit 0 4 9 0 [1; 2; 0];;
             ctor_init first_fit 0 5 9 0 [];;
             ctor_init first_fit 0 6 9 0 [0];;
             a ← operator_lt Z.ltb 1 2; b ← operator_lt Z.ltb 3 4;
             c ← operator_lt Z.ltb 5 6; d ← operator_eq Z.eqb 1 1;
             e ← operator_lt Z.ltb 5 5; f ← operator_eq Z.eqb 5 5;
             mret [a; b; c; d; e; f]) empty_world)
  = Some [true; true; true; true; false; true].
Proof. vm_compute. reflexivity. Qed.

Example swap_exchanges_contents :
  returned ((ctor_init first_fit 0 1 9 0 [1; 2];;
             ctor_init first_fit 0 2 9 0 [3; 4; 5];;
             swap 1 2;;
             a ← to_list 1; m ← GetSize 1; b ← to_list 2; n ← GetSize 2;
             mret (a, m, b, n)) empty_world)
  = Some ([3; 4; 5], 3, [1; 2], 2).
Proof. vm_compute. reflexivity. Qed.

Example copy_is_equal_and_independent :
  returned ((ctor_copy first_fit 0 3 9 7 1;;
             e ← operator_eq Z.eqb 3 1;
             PopFront 3;;
             a ← to_list 3; b ← to_list 1; mret (e, a, b)) two_lists)
  = Some (true, [20; 30], [10; 20; 30]).
Proof. vm_compute. reflexivity. Qed.

(** With no memory left every allocating call throws and leaves the store
    as it was. *)
Example out_of_memory_changes_nothing :
  InsertAfter exhausted 1 (cbefore_begin 1) 5 two_lists = BadAlloc two_lists ∧
  PushFront exhausted 1 5 two_lists = BadAlloc two_lists ∧
  ctor_copy exhausted 0 3 9 7 1 two_lists = BadAlloc two_lists ∧
  assign exhausted 0 2 8 9 7 1 two_lists = BadAlloc two_lists.
Proof. repeat split; vm_compute; reflexivity. Qed.

(** ** The further properties on the store of two lists *)

Ltac by_running := vm_compute; reflexivity.

Lemma two_lists_is_list_1 : is_list two_lists 1.
Proof. by exists 3. Qed.

Lemma two_lists_is_list_2 : is_list two_lists 2.
Proof. by exists 2. Qed.

Lemma two_lists_unused (a : positive) :
  (a = 3 ∨ a = 8 ∨ a = 9)%positive → unused two_lists a.
Proof. intros [->|[->| ->]]; repeat split; by_running. Qed.

Lemma two_lists_position :
  is_position two_lists 1 (mkIter (Some 10%positive)) 1.
Proof. split; [by_running|done]. Qed.

Lemma two_lists_next : first_fit (nodes two_lists) = Some 15%positive.
Proof. by_running. Qed.

Lemma PushFront_prepends_witness :
  wf two_lists ∧ is_list two_lists 1 ∧
  to_list 1 two_lists = Ok [10; 20; 30] two_lists ∧
  GetSize 1 two_lists = Ok 3 two_lists ∧
  ∃ w', PushFront first_fit 1 5 two_lists = Ok () w' ∧
        to_list 1 w' = Ok [5; 10; 20; 30] w' ∧ GetSize 1 w' = Ok 4 w'.
Proof.
  assert (to_list 1 two_lists = Ok [10; 20; 30] two_lists) as Hl by by_running.
  assert (GetSize 1 two_lists = Ok 3 two_lists) as Hs by by_running.
  split; [exact two_lists_wf|]. split; [exact two_lists_is_list_1|].
  split; [exact Hl|]. split; [exact Hs|].
  pose proof (PushFront_prepends first_fit first_fit_fresh two_lists 1 5
                [10; 20; 30] 3 two_lists_wf two_lists_is_list_1 Hl Hs) as H.
  rewrite two_lists_next in H. destruct H as (w' & Hrun & _ & Hl' & Hs' & _).
  exists w'. split; [exact Hrun|]. split; [exact Hl'|exact Hs'].
Defined.

Lemma PopFront_undoes_PushFront_witness :
  wf two_lists ∧ is_list two_lists 1 ∧
  first_fit (nodes two_lists) = Some 15%positive ∧
  ∃ w1, PushFront first_fit 1 5 two_lists = Ok () w1 ∧
        PopFront 1 w1 = Ok () two_lists.
Proof.
  split; [exact two_lists_wf|]. split; [exact two_lists_is_list_1|].
  split; [exact two_lists_next|].
  exact (PopFront_undoes_PushFront first_fit first_fit_fresh two_lists 1 5 15%positive
           two_lists_wf two_lists_is_list_1 two_lists_next).
Defined.

Lemma InsertAfter_keeps_iterators_witness :
  wf two_lists ∧ is_list two_lists 1 ∧
  is_position two_lists 1 (mkIter (Some 10%positive)) 1 ∧
  ∃ (it : Iterator) w',
    InsertAfter first_fit 1 (mkIter (Some 10%positive)) 15 two_lists = Ok it w' ∧
    iterators_keep two_lists w' [].
Proof.
  split; [exact two_lists_wf|]. split; [exact two_lists_is_list_1|].
  split; [exact two_lists_position|].
  destruct (InsertAfter first_fit 1 (mkIter (Some 10%positive)) 15 two_lists)
    as [it w'|w'| | |] eqn:E; try (vm_compute in E; discriminate E).
  exists it, w'. split; [reflexivity|].
  exact (InsertAfter_keeps_iterators first_fit first_fit_fresh two_lists 1
           (mkIter (Some 10%positive)) 1 15 it w'
           two_lists_wf two_lists_is_list_1 two_lists_position E).
Defined.

Lemma EraseAfter_removes_witness :
  wf two_lists ∧ is_list two_lists 1 ∧
  is_position two_lists 1 (mkIter (Some 10%positive)) 1 ∧
  has_successor two_lists (mkIter (Some 10%positive)) ∧
  to_list 1 two_lists = Ok [10; 20; 30] two_lists ∧
  GetSize 1 two_lists = Ok 3 two_lists ∧
  ∃ w' (nxt : Iterator) erased,
    EraseAfter 1 (mkIter (Some 10%positive)) two_lists = Ok nxt w' ∧
    to_list 1 w' = Ok [10; 30] w' ∧
    GetSize 1 w' = Ok 2 w' ∧
    nodes w' !! erased = None.
Proof.
  assert (to_list 1 two_lists = Ok [10; 20; 30] two_lists) as Hl by by_running.
  assert (GetSize 1 two_lists = Ok 3 two_lists) as Hs by by_running.
  assert (has_successor two_lists (mkIter (Some 10%positive))) as Hsucc.
  { exists (mkIter (Some 11%positive)). split; [by_running|done]. }
  split; [exact two_lists_wf|]. split; [exact two_lists_is_list_1|].
  split; [exact two_lists_position|]. split; [exact Hsucc|].
  split; [exact Hl|]. split; [exact Hs|].
  destruct (EraseAfter_removes two_lists 1 (mkIter (Some 10%positive)) 1
              [10; 20; 30] 3 two_lists_wf two_lists_is_list_1 two_lists_position
              Hsucc Hl Hs)
    as (w' & nxt & erased & _ & _ & Hrun & _ & Hl' & Hs' & Hgone & _).
  exists w', nxt, erased. split; [exact Hrun|]. split; [exact Hl'|].
  split; [exact Hs'|exact Hgone].
Defined.

Lemma Clear_empties_witness :
  wf two_lists ∧ is_list two_lists 1 ∧
  ∃ w', Clear 1 two_lists = Ok () w' ∧ to_list 1 w' = Ok [] w' ∧
        GetSize 1 w' = Ok 0 w' ∧ Clear 1 w' = Ok () w'.
Proof.
  split; [exact two_lists_wf|]. split; [exact two_lists_is_list_1|].
  destruct (Clear_empties two_lists 1 two_lists_wf two_lists_is_list_1)
    as (w' & Hrun & _ & Hl & Hs & _ & _ & _ & _ & _ & Hagain).
  exists w'. split; [exact Hrun|]. split; [exact Hl|]. split; [exact Hs|exact Hagain].
Defined.

Lemma dtor_releases_everything_witness :
  wf two_lists ∧ is_list two_lists 1 ∧
  ∃ w', dtor 1 two_lists = Ok () w' ∧ ¬ is_list w' 1 ∧
        nodes w' !! 1%positive = None ∧
        (is_list w' 2 ∧ same_contents two_lists w' 2).
Proof.
  split; [exact two_lists_wf|]. split; [exact two_lists_is_list_1|].
  destruct (dtor_releases_everything two_lists 1 two_lists_wf two_lists_is_list_1)
    as (w' & Hrun & _ & Hnot & Hgone & _ & Hothers).
  exists w'. split; [exact Hrun|]. split; [exact Hnot|]. split; [exact Hgone|].
  apply Hothers; [exact two_lists_is_list_2|done].
Defined.

Lemma ctor_default_makes_empty_list_witness :
  wf two_lists ∧ unused two_lists 3 ∧
  ∃ w', ctor_default 0 3 two_lists = Ok () w' ∧ wf w' ∧ is_list w' 3 ∧
        to_list 3 w' = Ok [] w' ∧ GetSize 3 w' = Ok 0 w'.
Proof.
  assert (unused two_lists 3) as Hun by (apply two_lists_unused; by left).
  split; [exact two_lists_wf|]. split; [exact Hun|].
  destruct (ctor_default_makes_empty_list 0 two_lists 3 two_lists_wf Hun)
    as (w' & Hrun & Hwf & His & Hl & Hs & _).
  exists w'. split; [exact Hrun|]. split; [exact Hwf|]. split; [exact His|].
  split; [exact Hl|exact Hs].
Defined.

Lemma IsEmpty_agrees_with_begin_end_witness :
  wf two_lists ∧ is_list two_lists 1 ∧
  to_list 1 two_lists = Ok [10; 20; 30] two_lists ∧
  ∃ (first last : ConstIterator) b,
    cbegin 1 two_lists = Ok first two_lists ∧ cend 1 two_lists = Ok last two_lists ∧
    IsEmpty 1 two_lists = Ok b two_lists ∧
    iter_eq first last = b ∧
    (b = true ↔ [10; 20; 30] = []).
Proof.
  assert (to_list 1 two_lists = Ok [10; 20; 30] two_lists) as Hl by by_running.
  split; [exact two_lists_wf|]. split; [exact two_lists_is_list_1|].
  split; [exact Hl|].
  exact (IsEmpty_agrees_with_begin_end two_lists 1 [10; 20; 30]
           two_lists_wf two_lists_is_list_1 Hl).
Defined.

Lemma iteration_visits_the_elements_witness :
  wf two_lists ∧ is_list two_lists 1 ∧
  to_list 1 two_lists = Ok [10; 20; 30] two_lists ∧
  (∃ it : ConstIterator,
     (first ← cbegin 1; advance 2 first) two_lists = Ok it two_lists ∧
     deref it two_lists = Ok 30 two_lists) ∧
  (first ← cbegin 1; advance 3 first) two_lists = cend 1 two_lists ∧
  (first ← cbegin 1; advance 4 first) two_lists = AssertFail.
Proof.
  assert (to_list 1 two_lists = Ok [10; 20; 30] two_lists) as Hl by by_running.
  split; [exact two_lists_wf|]. split; [exact two_lists_is_list_1|].
  split; [exact Hl|].
  destruct (iteration_visits_the_elements two_lists 1 [10; 20; 30]
              two_lists_wf two_lists_is_list_1 Hl) as (_ & Hk & Hend & Hpast).
  split; [exact (Hk 2%nat 30 eq_refl)|]. split; [exact Hend|exact Hpast].
Defined.

Lemma swap_exchanges_lists_witness :
  wf two_lists ∧ is_list two_lists 1 ∧ is_list two_lists 2 ∧
  to_list 1 two_lists = Ok [10; 20; 30] two_lists ∧
  to_list 2 two_lists = Ok [10; 20] two_lists ∧
  GetSize 1 two_lists = Ok 3 two_lists ∧
  GetSize 2 two_lists = Ok 2 two_lists ∧
  ∃ w', swap 1 2 two_lists = Ok () w' ∧
        to_list 1 w' = Ok [10; 20] w' ∧ to_list 2 w' = Ok [10; 20; 30] w' ∧
        GetSize 1 w' = Ok 2 w' ∧ GetSize 2 w' = Ok 3 w' ∧
        iterators_keep two_lists w' [].
Proof.
  assert (to_list 1 two_lists = Ok [10; 20; 30] two_lists) as Hl1 by by_running.
  assert (to_list 2 two_lists = Ok [10; 20] two_lists) as Hl2 by by_running.
  assert (GetSize 1 two_lists = Ok 3 two_lists) as Hs1 by by_running.
  assert (GetSize 2 two_lists = Ok 2 two_lists) as Hs2 by by_running.
  split; [exact two_lists_wf|]. split; [exact two_lists_is_list_1|].
  split; [exact two_lists_is_list_2|].
  split; [exact Hl1|]. split; [exact Hl2|]. split; [exact Hs1|]. split; [exact Hs2|].
  destruct (swap_exchanges_lists two_lists 1 2 [10; 20; 30] [10; 20] 3 2
              two_lists_wf two_lists_is_list_1 two_lists_is_list_2 Hl1 Hl2 Hs1 Hs2)
    as (w' & Hrun & _ & Ha & Hb & Hc & Hd & _ & _ & Hkeep & _).
  exists w'. split; [exact Hrun|]. split; [exact Ha|]. split; [exact Hb|].
  split; [exact Hc|]. split; [exact Hd|exact Hkeep].
Defined.

Lemma swap_twice_restores_witness :
  wf two_lists ∧ is_list two_lists 1 ∧ is_list two_lists 2 ∧
  ∃ w1, swap_lists 1 2 two_lists = Ok () w1 ∧ swap_lists 1 2 w1 = Ok () two_lists.
Proof.
  split; [exact two_lists_wf|]. split; [exact two_lists_is_list_1|].
  split; [exact two_lists_is_list_2|].
  exact (swap_twice_restores two_lists 1 2
           two_lists_wf two_lists_is_list_1 two_lists_is_list_2).
Defined.


Lemma ctor_copy_copies_witness :
  wf two_lists ∧ unused two_lists 3 ∧ unused two_lists 9 ∧ 3%positive ≠ 9%positive ∧
  is_list two_lists 1 ∧
  to_list 1 two_lists = Ok [10; 20; 30] two_lists ∧
  GetSize 1 two_lists = Ok 3 two_lists ∧
  ∃ w', ctor_copy first_fit 0 3 9 7 1 two_lists = Ok () w' ∧
        wf w' ∧ is_list w' 3 ∧
        to_list 3 w' = Ok [10; 20; 30] w' ∧ GetSize 3 w' = Ok 3 w' ∧
        to_list 1 w' = Ok [10; 20; 30] w' ∧ GetSize 1 w' = Ok 3 w'.
Proof.
  assert (unused two_lists 3) as H3 by (apply two_lists_unused; by left).
  assert (unused two_lists 9) as H9 by (apply two_lists_unused; by right; right).
  assert (3%positive ≠ 9%positive) as Hne by done.
  assert (to_list 1 two_lists = Ok [10; 20; 30] two_lists) as Hl by by_running.
  assert (GetSize 1 two_lists = Ok 3 two_lists) as Hs by by_running.
  split; [exact two_lists_wf|]. split; [exact H3|]. split; [exact H9|].
  split; [exact Hne|]. split; [exact two_lists_is_list_1|].
  split; [exact Hl|]. split; [exact Hs|].
  pose proof (ctor_copy_copies first_fit 0 first_fit_fresh two_lists
                3 9 7 1 [10; 20; 30] 3 two_lists_wf H3 H9 Hne
                two_lists_is_list_1 Hl Hs) as H.
  destruct (ctor_copy first_fit 0 3 9 7 1 two_lists) as [[] w'|w'| | |] eqn:E;
    try (vm_compute in E; discriminate E).
  destruct H as (Hwf & His & Hl3 & Hs3 & Hl1 & Hs1 & _).
  exists w'. split; [reflexivity|]. split; [exact Hwf|]. split; [exact His|].
  split; [exact Hl3|]. split; [exact Hs3|]. split; [exact Hl1|exact Hs1].
Defined.

Lemma assign_copies_witness :
  wf two_lists ∧ is_list two_lists 2 ∧ is_list two_lists 1 ∧
  unused two_lists 8 ∧ unused two_lists 9 ∧ 8%positive ≠ 9%positive ∧
  to_list 1 two_lists = Ok [10; 20; 30] two_lists ∧
  GetSize 1 two_lists = Ok 3 two_lists ∧
  ∃ w', assign first_fit 0 2 8 9 7 1 two_lists = Ok () w' ∧
        wf w' ∧
        to_list 2 w' = Ok [10; 20; 30] w' ∧ GetSize 2 w' = Ok 3 w' ∧
        same_contents two_lists w' 1 ∧
        ¬ is_list w' 8.
Proof.
  assert (unused two_lists 8) as H8 by (apply two_lists_unused; right; by left).
  assert (unused two_lists 9) as H9 by (apply two_lists_unused; by right; right).
  assert (8%positive ≠ 9%positive) as Hne by done.
  assert (to_list 1 two_lists = Ok [10; 20; 30] two_lists) as Hl by by_running.
  assert (GetSize 1 two_lists = Ok 3 two_lists) as Hs by by_running.
  split; [exact two_lists_wf|]. split; [exact two_lists_is_list_2|].
  split; [exact two_lists_is_list_1|]. split; [exact H8|]. split; [exact H9|].
  split; [exact Hne|]. split; [exact Hl|]. split; [exact Hs|].
  pose proof (assign_copies first_fit 0 first_fit_fresh two_lists
                2 8 9 7 1 [10; 20; 30] 3 two_lists_wf two_lists_is_list_2
                two_lists_is_list_1 H8 H9 Hne Hl Hs) as H.
  destruct (assign first_fit 0 2 8 9 7 1 two_lists) as [[] w'|w'| | |] eqn:E;
    try (vm_compute in E; discriminate E).
  destruct H as (Hwf & Hl2 & Hs2 & Hdom & Hsame).
  exists w'. split; [reflexivity|]. split; [exact Hwf|].
  split; [exact Hl2|]. split; [exact Hs2|]. split.
  - exact (Hsame 1%positive two_lists_is_list_1 ltac:(done)).
  - intros H. apply Hdom in H. destruct H8 as (_ & Hnone & _).
    destruct H as [n Hn]. rewrite Hnone in Hn. discriminate Hn.
Defined.

Lemma InsertAfter_at_a_foreign_position_witness :
  wf two_lists ∧ is_list two_lists 2 ∧ is_list two_lists 1 ∧
  2%positive ≠ 1%positive ∧
  is_position two_lists 1 (mkIter (Some 10%positive)) 1 ∧
  to_list 2 two_lists = Ok [10; 20] two_lists ∧
  to_list 1 two_lists = Ok [10; 20; 30] two_lists ∧
  GetSize 2 two_lists = Ok 2 two_lists ∧
  GetSize 1 two_lists = Ok 3 two_lists ∧
  first_fit (nodes two_lists) = Some 15%positive ∧
  ∃ w' (it : Iterator),
    InsertAfter first_fit 2 (mkIter (Some 10%positive)) 15 two_lists = Ok it w' ∧
    to_list 2 w' = Ok [10; 20] w' ∧
    GetSize 2 w' = Ok 3 w' ∧
    count_steps 2 w' = Ok 2 w' ∧
    to_list 1 w' = Ok [10; 15; 20; 30] w' ∧
    GetSize 1 w' = Ok 3 w' ∧
    count_steps 1 w' = Ok 4 w'.
Proof.
  assert (2%positive ≠ 1%positive) as Hne by done.
  assert (to_list 2 two_lists = Ok [10; 20] two_lists) as Hl2 by by_running.
  assert (to_list 1 two_lists = Ok [10; 20; 30] two_lists) as Hl1 by by_running.
  assert (GetSize 2 two_lists = Ok 2 two_lists) as Hs2 by by_running.
  assert (GetSize 1 two_lists = Ok 3 two_lists) as Hs1 by by_running.
  split; [exact two_lists_wf|]. split; [exact two_lists_is_list_2|].
  split; [exact two_lists_is_list_1|]. split; [exact Hne|].
  split; [exact two_lists_position|]. split; [exact Hl2|]. split; [exact Hl1|].
  split; [exact Hs2|]. split; [exact Hs1|]. split; [exact two_lists_next|].
  exact (InsertAfter_at_a_foreign_position first_fit first_fit_fresh two_lists 2 1
           (mkIter (Some 10%positive)) 1 15 [10; 20] [10; 20; 30] 2 3 15%positive
           two_lists_wf two_lists_is_list_2 two_lists_is_list_1 Hne
           two_lists_position Hl2 Hl1 Hs2 Hs1 two_lists_next).
Defined.

Lemma PushFront_is_InsertAfter_before_begin_witness :
  wf two_lists ∧ is_list two_lists 1 ∧
  PushFront first_fit 1 5 two_lists =
    (InsertAfter first_fit 1 (cbefore_begin 1) 5;; mret ()) two_lists.
Proof.
  split; [exact two_lists_wf|]. split; [exact two_lists_is_list_1|].
  exact (PushFront_is_InsertAfter_before_begin first_fit first_fit_fresh two_lists 1 5
           two_lists_wf two_lists_is_list_1).
Defined.

Lemma comparison_operators_agree_witness :
  (∀ x y, exactly_one (Z.ltb x y) (Z.ltb y x) (Z.eqb x y)) ∧
  wf two_lists ∧ is_list two_lists 1 ∧ is_list two_lists 2 ∧
  ∃ lt gt le ge eq ne,
    operator_lt Z.ltb 1 2 two_lists = Ok lt two_lists ∧
    operator_gt Z.ltb 1 2 two_lists = Ok gt two_lists ∧
    operator_le Z.eqb Z.ltb 1 2 two_lists = Ok le two_lists ∧
    operator_ge Z.ltb 1 2 two_lists = Ok ge two_lists ∧
    operator_eq Z.eqb 1 2 two_lists = Ok eq two_lists ∧
    operator_ne Z.eqb 1 2 two_lists = Ok ne two_lists ∧
    le = negb gt ∧ ge = negb lt ∧ ne = negb eq ∧ eq = le && ge.
Proof.
  split; [exact Z_trichotomy|]. split; [exact two_lists_wf|].
  split; [exact two_lists_is_list_1|]. split; [exact two_lists_is_list_2|].
  exact (comparison_operators_agree Z.eqb Z.ltb two_lists 1 2
           Z_trichotomy two_lists_wf two_lists_is_list_1 two_lists_is_list_2).
Defined.

Lemma Z_eqb_reflexive (x : Z) : Z.eqb x x = true.
Proof. apply Z.eqb_refl. Qed.

Lemma Z_ltb_irreflexive (x : Z) : Z.ltb x x = false.
Proof. apply Z.ltb_irrefl. Qed.

Lemma Z_ltb_asymmetric (x y : Z) : Z.ltb x y = true → Z.ltb y x = false.
Proof. destruct (Z.ltb_spec x y), (Z.ltb_spec y x); intros; (done || lia). Qed.

Lemma Z_ltb_cotransitive (x y z : Z) :
  Z.ltb x y = true → Z.ltb x z = true ∨ Z.ltb z y = true.
Proof.
  destruct (Z.ltb_spec x y), (Z.ltb_spec x z), (Z.ltb_spec z y); intros;
    auto; (done || lia).
Qed.

Lemma equal_sequences_compare_equal_witness :
  (∀ x, Z.eqb x x = true) ∧ (∀ x, Z.ltb x x = false) ∧
  wf two_lists ∧ is_list two_lists 1 ∧
  to_list 1 two_lists = Ok [10; 20; 30] two_lists ∧
  operator_eq Z.eqb 1 1 two_lists = Ok true two_lists ∧
  operator_ne Z.eqb 1 1 two_lists = Ok false two_lists ∧
  operator_lt Z.ltb 1 1 two_lists = Ok false two_lists ∧
  operator_gt Z.ltb 1 1 two_lists = Ok false two_lists ∧
  operator_le Z.eqb Z.ltb 1 1 two_lists = Ok true two_lists ∧
  operator_ge Z.ltb 1 1 two_lists = Ok true two_lists.
Proof.
  assert (to_list 1 two_lists = Ok [10; 20; 30] two_lists) as Hl by by_running.
  split; [exact Z_eqb_reflexive|]. split; [exact Z_ltb_irreflexive|].
  split; [exact two_lists_wf|]. split; [exact two_lists_is_list_1|].
  split; [exact Hl|].
  exact (equal_sequences_compare_equal Z.eqb Z.ltb two_lists 1 1 [10; 20; 30]
           Z_eqb_reflexive Z_ltb_irreflexive two_lists_wf
           two_lists_is_list_1 two_lists_is_list_1 Hl Hl).
Defined.

Lemma operator_lt_transitive_witness :
  (∀ x y, Z.ltb x y = true → Z.ltb y x = false) ∧
  (∀ x y z, Z.ltb x y = true → Z.ltb x z = true ∨ Z.ltb z y = true) ∧
  ∃ w, ctor_init first_fit 0 3 9 7 [10; 25] two_lists = Ok () w ∧
       wf w ∧ is_list w 2 ∧ is_list w 1 ∧ is_list w 3 ∧
       operator_lt Z.ltb 2 1 w = Ok true w ∧
       operator_lt Z.ltb 1 3 w = Ok true w ∧
       operator_lt Z.ltb 2 3 w = Ok true w.
Proof.
  split; [exact Z_ltb_asymmetric|]. split; [exact Z_ltb_cotransitive|].
  assert (precondition two_lists (CallCtorInit 3 9 7 [10; 25])) as Hpre.
  { split; [apply two_lists_unused; by left|].
    split; [apply two_lists_unused; by right; right|done]. }
  destruct (ctor_init first_fit 0 3 9 7 [10; 25] two_lists) as [[] w|w| | |] eqn:E;
    try (vm_compute in E; discriminate E).
  assert (wf w) as Hwf.
  { apply (reachable_wf first_fit 0 first_fit_fresh).
    exact (reachable_return first_fit 0 _ _ _ two_lists_reachable Hpre E). }
  pose proof E as Hw. vm_compute in Hw. injection Hw as Hw.
  assert (is_list w 2) as H2 by (rewrite <- Hw; by exists 2).
  assert (is_list w 1) as H1 by (rewrite <- Hw; by exists 3).
  assert (is_list w 3) as H3 by (rewrite <- Hw; by exists 2).
  assert (operator_lt Z.ltb 2 1 w = Ok true w) as Hab by (rewrite <- Hw; by_running).
  assert (operator_lt Z.ltb 1 3 w = Ok true w) as Hbc by (rewrite <- Hw; by_running).
  exists w. split; [reflexivity|]. split; [exact Hwf|]. split; [exact H2|].
  split; [exact H1|]. split; [exact H3|]. split; [exact Hab|]. split; [exact Hbc|].
  exact (operator_lt_transitive Z.ltb w 2 1 3 Z_ltb_asymmetric Z_ltb_cotransitive
           Hwf H2 H1 H3 Hab Hbc).
Defined.

Lemma calls_within_preconditions_are_safe_witness :
  reachable first_fit 0 two_lists ∧
  precondition two_lists (CallEraseAfter 1 (mkIter (Some 10%positive))) ∧
  ∃ w', reachable first_fit 0 w' ∧
        (exec first_fit 0 (CallEraseAfter 1 (mkIter (Some 10%positive))) two_lists
           = Ok () w' ∨
         exec first_fit 0 (CallEraseAfter 1 (mkIter (Some 10%positive))) two_lists
           = BadAlloc w').
Proof.
  assert (precondition two_lists (CallEraseAfter 1 (mkIter (Some 10%positive))))
    as Hpre.
  { split; [exact two_lists_is_list_1|]. split; [exists 1%nat; exact two_lists_position|].
    exists (mkIter (Some 11%positive)). split; [by_running|done]. }
  split; [exact two_lists_reachable|]. split; [exact Hpre|].
  exact (calls_within_preconditions_are_safe first_fit 0 first_fit_fresh two_lists
           (CallEraseAfter 1 (mkIter (Some 10%positive))) two_lists_reachable Hpre).
Defined.
